(** * Sociomancer: the GitHub star report

    A shallow embedding of [github/get_stars.py] and
    [github/generate_awesome_docker_stars.py], with the properties of the
    markdown extractor, the star fetcher and the report renderer.

    Python [str] values are sequences of Unicode code points; they are
    modelled as lists of [N].  Python [int] is [Z].  Exceptions are values
    of [exn], carried by the [res] type. *)

From Stdlib Require Import ZArith Lia String Ascii DecimalString.
From stdpp Require Import base option list gmap sorting.

Set Default Proof Using "Type".
Open Scope Z_scope.

(** ** Strings *)

Module Str.

Abbreviation char := N (only parsing).
Abbreviation str := (list N) (only parsing).

(** An ASCII literal as a Python string. *)
Definition lit (s : string) : str :=
  List.map N_of_ascii (list_ascii_of_string s).

Definition chr (a : ascii) : char := N_of_ascii a.

Definition char_in (cs : str) (c : char) : bool :=
  existsb (N.eqb c) cs.

(** Code points for which [str.isspace] is true; the class [\s] of the
    [re] module on [str] patterns is the same set. *)
Definition whitespace : list N :=
  [0x9; 0xa; 0xb; 0xc; 0xd; 0x1c; 0x1d; 0x1e; 0x1f; 0x20; 0x85; 0xa0;
   0x1680; 0x2000; 0x2001; 0x2002; 0x2003; 0x2004; 0x2005; 0x2006;
   0x2007; 0x2008; 0x2009; 0x200a; 0x2028; 0x2029; 0x202f; 0x205f;
   0x3000]%N.

Definition isspace (c : char) : bool := char_in whitespace c.

(** Line boundaries of [str.splitlines], apart from the pair CR LF. *)
Definition line_breaks : list N :=
  [0xa; 0xd; 0xb; 0xc; 0x1c; 0x1d; 0x1e; 0x85; 0x2028; 0x2029]%N.

Definition is_line_break (c : char) : bool := char_in line_breaks c.

(** [s.splitlines()]: [cur] is the current line, reversed. *)
Fixpoint splitlines_from (cur : str) (s : str) : list str :=
  match s with
  | [] => match cur with [] => [] | _ => [reverse cur] end
  | c :: s' =>
      if N.eqb c 0xd then
        match s' with
        | c' :: s'' =>
            if N.eqb c' 0xa then reverse cur :: splitlines_from [] s''
            else reverse cur :: splitlines_from [] s'
        | [] => reverse cur :: splitlines_from [] s'
        end
      else if is_line_break c then reverse cur :: splitlines_from [] s'
      else splitlines_from (c :: cur) s'
  end.

Definition splitlines (s : str) : list str := splitlines_from [] s.

Fixpoint lstrip_by (p : char -> bool) (s : str) : str :=
  match s with
  | c :: s' => if p c then lstrip_by p s' else s
  | [] => []
  end.

Definition rstrip_by (p : char -> bool) (s : str) : str :=
  reverse (lstrip_by p (reverse s)).

Definition strip_by (p : char -> bool) (s : str) : str :=
  rstrip_by p (lstrip_by p s).

(** [s.strip()] *)
Definition strip (s : str) : str := strip_by isspace s.

(** [s.strip(chars)] *)
Definition strip_chars (chars : str) (s : str) : str :=
  strip_by (char_in chars) s.

Fixpoint starts_with (p s : str) : bool :=
  match p, s with
  | [], _ => true
  | a :: p', b :: s' => N.eqb a b && starts_with p' s'
  | _ :: _, [] => false
  end.

(** [sub in s] *)
Fixpoint contains (sub s : str) : bool :=
  starts_with sub s ||
  match s with
  | [] => false
  | _ :: s' => contains sub s'
  end.

(** [s.split(sep)] for a non-empty [sep] (Python raises [ValueError] on
    an empty separator; every call site passes a non-empty literal).
    [skip] counts the characters of a separator found one step earlier
    that are still to be passed over; [cur] is the current piece,
    reversed. *)
Fixpoint split_from (sep : str) (skip : nat) (cur : str) (s : str)
  : list str :=
  match s with
  | [] => [reverse cur]
  | c :: s' =>
      match skip with
      | S n => split_from sep n cur s'
      | O =>
          if starts_with sep s
          then reverse cur :: split_from sep (Nat.pred (length sep)) [] s'
          else split_from sep 0 (c :: cur) s'
      end
  end.

Definition split (sep : str) (s : str) : list str :=
  split_from sep 0 [] s.

(** [sep.join(parts)] *)
Fixpoint join (sep : str) (parts : list str) : str :=
  match parts with
  | [] => []
  | [p] => p
  | p :: ps => p ++ sep ++ join sep ps
  end.

(** [s.count(sub)]: the number of non-overlapping occurrences. *)
Definition count (sub s : str) : nat :=
  Nat.pred (length (split sub s)).

(** [str(n)] for an [int]. *)
Definition of_Z (n : Z) : str :=
  lit (NilZero.string_of_int (Z.to_int n)).

End Str.
Import Str.

(** ** Exceptions *)

Inductive exn : Type :=
| IndexError
| ValueError (msg : str)
| OverflowError
| AttributeError
| GitHubAPIError (msg : str)
| RateLimitError (msg : str) (reset_at : option Z).

Inductive res (A : Type) : Type :=
| Ok (a : A)
| Raise (e : exn).
Arguments Ok {A} a.
Arguments Raise {A} e.

#[global] Instance res_bind : MBind res := fun A B f r =>
  match r with
  | Ok a => f a
  | Raise e => Raise e
  end.

#[global] Instance res_ret : MRet res := fun A a => Ok a.

(** ** Regular expressions

    The fragment of Python's [re] that the scripts use: literals, greedy
    bounded repetition of a character class, numbered groups, [^] and [$].
    Matching is by backtracking, as in [re]: a repetition first takes as
    many characters as it can and gives them back one at a time while the
    rest of the pattern fails. *)

Module Re.

Inductive re : Type :=
| Bol                                  (* ^ *)
| Eol                                  (* $ *)
| Lit (s : str)
| Many (cls : char -> bool) (lo : nat) (hi : option nat)
                                       (* cls{lo,hi}, greedy *)
| Group (i : nat) (r : re)
| Seq (r1 r2 : re).

Definition caps := list (nat * str).

Fixpoint group (i : nat) (cs : caps) : str :=
  match cs with
  | [] => []
  | (j, s) :: cs' => if Nat.eqb i j then s else group i cs'
  end.

Definition at_most (hi : option nat) : bool :=
  match hi with
  | Some O => false
  | _ => true
  end.

Fixpoint many {A} (cls : char -> bool) (lo : nat) (hi : option nat)
    (pos : nat) (s : str) (k : nat -> str -> option A) : option A :=
  let stop := match lo with O => k pos s | S _ => None end in
  match s with
  | c :: s' =>
      if cls c && at_most hi then
        match many cls (Nat.pred lo) (Nat.pred <$> hi) (S pos) s' k with
        | Some r => Some r
        | None => stop
        end
      else stop
  | [] => stop
  end.

(** [$] matches at the end of the string and before a final newline. *)
Definition at_end (s : str) : bool :=
  match s with
  | [] => true
  | [c] => N.eqb c 0xa
  | _ => false
  end.

Fixpoint exec {A} (r : re) (pos : nat) (s : str) (cs : caps)
    (k : nat -> str -> caps -> option A) : option A :=
  match r with
  | Bol => if Nat.eqb pos 0 then k pos s cs else None
  | Eol => if at_end s then k pos s cs else None
  | Lit l =>
      if starts_with l s
      then k (pos + length l)%nat (drop (length l) s) cs
      else None
  | Many cls lo hi => many cls lo hi pos s (fun pos' s' => k pos' s' cs)
  | Group i r' =>
      exec r' pos s cs
        (fun pos' s' cs' => k pos' s' ((i, take (pos' - pos) s) :: cs'))
  | Seq r1 r2 =>
      exec r1 pos s cs (fun pos' s' cs' => exec r2 pos' s' cs' k)
  end.

(** [re.match(r, s)]: the groups of the match, if there is one. *)
Definition rmatch (r : re) (s : str) : option caps :=
  exec r 0 s [] (fun _ _ cs => Some cs).

(** [re.sub(r, repl, s)], scanning from position [pos]; [fuel] bounds
    the number of steps by the length of what is left.  The patterns of
    the scripts never match the empty string; for one that does, the
    replacement is put in and the scan moves on by one character. *)
Fixpoint sub_from (fuel : nat) (r : re) (repl : caps -> str)
    (pos : nat) (s : str) : str :=
  match fuel with
  | O => s
  | S fuel' =>
      match exec r pos s [] (fun pos' s' cs => Some (pos', s', cs)) with
      | Some (pos', rest, cs) =>
          if Nat.eqb pos' pos then
            match s with
            | [] => repl cs
            | c :: s' => repl cs ++ c :: sub_from fuel' r repl (S pos) s'
            end
          else repl cs ++ sub_from fuel' r repl pos' rest
      | None =>
          match s with
          | [] => []
          | c :: s' => c :: sub_from fuel' r repl (S pos) s'
          end
      end
  end.

Definition sub (r : re) (repl : caps -> str) (s : str) : str :=
  sub_from (S (length s)) r repl 0 s.

Definition eqc (a : ascii) (c : char) : bool := N.eqb c (chr a).
Definition nec (a : ascii) (c : char) : bool := negb (N.eqb c (chr a)).
(** [.] without [re.DOTALL] *)
Definition dot (c : char) : bool := negb (N.eqb c 0xa).
Definition range (a b : ascii) (c : char) : bool :=
  N.leb (chr a) c && N.leb c (chr b).

Definition star cls := Many cls 0 None.
Definition plus cls := Many cls 1 None.
Definition opt cls := Many cls 0 (Some 1%nat).
Definition one cls := Many cls 1 (Some 1%nat).

End Re.
Import Re.

Infix "⋅" := Seq (at level 41, right associativity).

(** ** generate_awesome_docker_stars.py: the markdown extractor *)

Record RepoEntry : Type := mkRepoEntry {
  name : str;
  slug : str;
  url : str;
  category : str;
  note : str;
  stars : option Z
}.

(** The pattern \s+ of [_clean_note]. *)
Definition spaces_re : re := plus isspace.

(** The pattern  \[ (@?[^\]]+) \] \( [^)]+ \)  of [_clean_note], written
    here with blanks between its parts. *)
Definition link_re : re :=
  Lit (lit "[") ⋅ Group 1 (opt (eqc "@") ⋅ plus (nec "]")) ⋅ Lit (lit "]")
  ⋅ Lit (lit "(") ⋅ plus (nec ")") ⋅ Lit (lit ")").

(** The pattern  [:;] [a-zA-Z0-9_]+ :  of [_clean_note]. *)
Definition emoji_re : re :=
  one (fun c => eqc ":" c || eqc ";" c)
  ⋅ plus (fun c => range "a" "z" c || range "A" "Z" c || range "0" "9" c
                   || eqc "_" c)
  ⋅ Lit (lit ":").

(** The characters that [_clean_note] trims: space, hyphen, en dash
    (U+2013), em dash (U+2014) and colon. *)
Definition note_trim : str := [0x20; 0x2d; 0x2013; 0x2014; 0x3a]%N.

Definition _clean_note (text : str) : str :=
  let text := strip_chars note_trim (sub spaces_re (fun _ => lit " ") text) in
  let text := sub link_re (fun cs => group 1 cs) text in
  let text := sub emoji_re (fun _ => []) text in
  strip text.

Definition _current_category (headings : list str) : str :=
  if (length headings <=? 1)%nat then []
  else join (lit " / ") (drop 1 headings).

(** The heading pattern  ^ (#{1,6}) \s+ ( .* ) $  of line 61. *)
Definition header_re : re :=
  Bol ⋅ Group 1 (Many (eqc "#") 1 (Some 6%nat)) ⋅ plus isspace
  ⋅ Group 2 (star dot) ⋅ Eol.

(** The bullet pattern of line 70,
      ^ -+ \s* \[ ([^\]]+) \] \( (https?://github.com/[^)]+) \) \s* ( .* ) $
    The dot of github.com is not escaped in the source and stands for any
    character but a newline. *)
Definition bullet_re : re :=
  Bol ⋅ plus (eqc "-") ⋅ star isspace
  ⋅ Lit (lit "[") ⋅ Group 1 (plus (nec "]")) ⋅ Lit (lit "]")
  ⋅ Lit (lit "(")
  ⋅ Group 2 (Lit (lit "http") ⋅ opt (eqc "s") ⋅ Lit (lit "://github")
             ⋅ one dot ⋅ Lit (lit "com/") ⋅ plus (nec ")"))
  ⋅ Lit (lit ")") ⋅ star isspace ⋅ Group 3 (star dot) ⋅ Eol.

(** [l[i]] *)
Definition index {A} (l : list A) (i : nat) : res A :=
  match l !! i with
  | Some a => Ok a
  | None => Raise IndexError
  end.

(** The state of the loop of [parse_repos]. *)
Record parser : Type := mkParser {
  headings : list str;
  entries : list RepoEntry;
  seen : gmap str RepoEntry
}.

(** Lines 76-80: the slug of a bullet's URL, [None] when the bullet is
    skipped for having fewer than two segments. *)
Definition bullet_slug (url : str) : res (option str) :=
  after ← index (split (lit "github.com/") url) 1;
  before_query ← index (split (lit "/?") after) 0;
  before_fragment ← index (split (lit "#") before_query) 0;
  let slug := strip_chars (lit "/") before_fragment in
  let slug_parts := split (lit "/") slug in
  if (length slug_parts <? 2)%nat then Ok None
  else Ok (Some (join (lit "/") (take 2 slug_parts))).

(** One iteration of the loop over the lines. *)
Definition parse_line (st : parser) (raw_line : str) : res parser :=
  let line := strip raw_line in
  match rmatch header_re line with
  | Some m =>
      let level := length (group 1 m) in
      let title := strip (group 2 m) in
      Ok (mkParser (take (level - 1) (headings st) ++ [title])
                   (entries st) (seen st))
  | None =>
      match rmatch bullet_re line with
      | None => Ok st
      | Some m =>
          let name := group 1 m in
          let url := group 2 m in
          let tail := group 3 m in
          s ← bullet_slug url;
          match s with
          | None => Ok st
          | Some slug =>
              let note := _clean_note tail in
              let category := _current_category (headings st) in
              match seen st !! slug with
              | Some _ => Ok st
              | None =>
                  let entry :=
                    mkRepoEntry (strip name) slug
                      (lit "https://github.com/" ++ slug) category note None
                  in
                  Ok (mkParser (headings st) (entries st ++ [entry])
                               (<[slug := entry]> (seen st)))
              end
          end
      end
  end.

Fixpoint parse_lines (st : parser) (lines : list str) : res parser :=
  match lines with
  | [] => Ok st
  | raw_line :: rest => st' ← parse_line st raw_line; parse_lines st' rest
  end.

Definition parse_repos (markdown : str) : res (list RepoEntry) :=
  st ← parse_lines (mkParser [] [] ∅) (splitlines markdown);
  Ok (entries st).

(** ** Floating point

    The scripts divide two [int]s with [/] and format or truncate the
    quotient.  A binary64 value is kept as [mant * 2 ^ expo]; [truediv]
    rounds the exact quotient to 53 significant bits, ties to even, which
    is what Python's [int / int] returns. *)

Module Float.

Record float : Type := mkFloat { mant : Z; expo : Z }.

(** [a / b] rounded to the nearest integer, ties to even; [0 <= a],
    [0 < b]. *)
Definition rne_div (a b : Z) : Z :=
  let q := a / b in
  let r := a mod b in
  if 2 * r <? b then q
  else if b <? 2 * r then q + 1
  else if Z.even q then q else q + 1.

(** [n / (b * 2 ^ e)] as a fraction of integers. *)
Definition scaled (n b e : Z) : Z * Z :=
  if 0 <=? e then (n, b * 2 ^ e) else (n * 2 ^ (- e), b).

(** [a / b] for [int]s [a] and [b] with [0 < b < 2 ^ 1022] (the
    divisors of the scripts are 60 and 1000), so that no quotient is
    subnormal.  The exponent [e] is the one that brings the quotient
    into [2 ^ 52, 2 ^ 53). *)
Definition truediv (a b : Z) : res float :=
  if a =? 0 then Ok (mkFloat 0 0)
  else
    let n := Z.abs a in
    let e0 := Z.log2 n - Z.log2 b - 53 in
    let '(x, y) := scaled n b e0 in
    let e := if x / y <? 2 ^ 53 then e0 else e0 + 1 in
    let '(x, y) := scaled n b e in
    let m := rne_div x y in
    if (0 <=? e) && (2 ^ 1024 <=? m * 2 ^ e) then Raise OverflowError
    else Ok (mkFloat (Z.sgn a * m) e).

(** [int(f)]: truncation towards zero. *)
Definition to_int (f : float) : Z :=
  if 0 <=? expo f then mant f * 2 ^ expo f
  else Z.quot (mant f) (2 ^ (- expo f)).

(** [format(f, ".1f")]: the exact value rounded to one decimal, ties to
    even. *)
Definition format_1f (f : float) : str :=
  let m := Z.abs (mant f) in
  let t := if 0 <=? expo f then 10 * m * 2 ^ expo f
           else rne_div (10 * m) (2 ^ (- expo f)) in
  (if mant f <? 0 then lit "-" else [])
  ++ of_Z (t / 10) ++ lit "." ++ of_Z (t mod 10).

End Float.

(** ** get_stars.py *)

(** Library functions that the model leaves open: [str.lower],
    [str.upper], [str.isdigit], [int] of a string, and the [netloc] and
    [path] of [urllib.parse.urlparse].  [int] and [urlparse] can raise:
    [int] on a string that it does not read, [urlparse] on a host with
    an unbalanced bracket, for one. *)
Class PyLib : Type := {
  str_lower : str -> str;
  str_upper : str -> str;
  str_isdigit : str -> bool;
  int_of_str : str -> res Z;
  urlparse : str -> res (str * str)
}.

Record RepoStars : Type := mkRepoStars {
  rs_slug : str;
  rs_stars : Z;
  rs_html_url : str;
  rs_description : option str
}.

(** The value of [data.get("message")] for the body of an error: none
    (the key is absent, or its value is one that [or] takes for false:
    null, false, 0 or an empty list or object), a string, or a true value
    of another kind (a number, a list, an object, true), of which [text]
    is what [str] makes. *)
Inductive message : Type :=
| NoMessage
| Text (s : str)
| Value (text : str).

(** What lines 104 to 107 make of the body of an error: a dictionary (the
    empty one when the body cannot be read as JSON) with its message, or
    a JSON value that is no object and has no [get]. *)
Inductive error_body : Type :=
| Object (m : message)
| NotObject.

(** What the script reads of an [HTTPError]: [error.code], [str(error)],
    the decoded body, and [error.headers.get("X-RateLimit-Reset")]
    ([None] when there are no headers). *)
Record HTTPError : Type := mkHTTPError {
  code : Z;
  error_str : str;
  body : error_body;
  reset_header : option str
}.

(** The decoded body of a successful response, when it is a JSON object
    whose count is an integer and whose URL and description are strings:
    the values of [data.get(...)] for the three keys that are read,
    [None] for a key that is absent. *)
Record RepoData : Type := mkRepoData {
  stargazers_count : option Z;
  html_url : option str;
  description : option str
}.

(** What [urlopen] followed by decoding the body can do.  [OtherErr] is
    any exception that is neither an [HTTPError] nor a [URLError]; a
    successful response whose body is not as [RepoData] says is outside
    this type. *)
Inductive reply : Type :=
| Body (data : RepoData)
| HTTPErr (error : HTTPError)
| URLErr (reason : str)                 (* reason is str(err.reason) *)
| OtherErr (e : exn).

Record Request : Type := mkRequest {
  req_url : str;
  req_headers : list (str * str)
}.

(** [env.get(key)] on the items of a mapping *)
Fixpoint env_get (env : list (str * str)) (key : str) : option str :=
  match env with
  | [] => None
  | (k, v) :: env' => if bool_decide (k = key) then Some v else env_get env' key
  end.

Definition truthy (s : str) : bool :=
  match s with [] => false | _ => true end.

Definition str_in (s : str) (l : list str) : bool := bool_decide (s ∈ l).

Definition preferred_keys : list str :=
  [lit "GITHUB_TOKEN"; lit "GH_TOKEN"; lit "GITHUB_PAT"; lit "GH_PAT"].

Definition _build_headers (token : option str) : list (str * str) :=
  let headers :=
    [(lit "Accept", lit "application/vnd.github+json");
     (lit "User-Agent", lit "sociomancer-star-fetcher")] in
  match token with
  | Some (c :: t) => headers ++ [(lit "Authorization", lit "Bearer " ++ c :: t)]
  | _ => headers
  end.

Definition format_stars (stars : Z) : res str :=
  if 1000 <=? stars then
    q ← Float.truediv stars 1000;
    Ok (Float.format_1f q ++ lit "k")
  else Ok (of_Z stars).

Definition retry_later : str :=
  lit "GitHub rate limit exceeded. Try again later or provide a PAT.".

Definition retry_in (minutes : Z) : str :=
  lit "GitHub rate limit exceeded. Try again in ~" ++ of_Z minutes
  ++ lit " minutes.".

(** [now] is the value of [int(time.time())].  The test [if reset_at:]
    fails for [None] and for 0. *)
Definition rate_limit_message (now : Z) (reset_at : option Z) : res str :=
  match reset_at with
  | Some r =>
      if r =? 0 then Ok retry_later
      else
        let delta := Z.max 0 (r - now) in
        q ← Float.truediv delta 60;
        let minutes := Float.to_int q in
        Ok (retry_in minutes)
  | None => Ok retry_later
  end.

Section GetStars.

Context `{PyLib}.

(** [env or os.environ], line 56: the mapping that was passed when it is
    not empty, and the environment of the process otherwise. *)
Definition env_or_environ (env : option (list (str * str)))
    (environ : list (str * str)) : list (str * str) :=
  match env with
  | Some (item :: items) => item :: items
  | _ => environ
  end.

Definition discover_tokens (environ : list (str * str))
    (env : option (list (str * str))) : list str :=
  let env := env_or_environ env environ in
  let tokens :=
    foldl (fun tokens key =>
             match env_get env key with
             | Some val =>
                 if truthy val && negb (str_in val tokens)
                 then tokens ++ [val] else tokens
             | None => tokens
             end) [] preferred_keys in
  foldl (fun tokens '(key, value) =>
           if contains (lit "PAT") (str_upper key) && truthy value
              && negb (str_in value tokens)
           then tokens ++ [value] else tokens) tokens env.

Definition discover_token (environ : list (str * str))
    (env : option (list (str * str))) : option str :=
  head (discover_tokens environ env).

Definition normalize_slug (repo : str) : res str :=
  if contains (lit "://") repo then
    parsed ← urlparse repo;
    let '(netloc, path) := parsed in
    if negb (bool_decide (str_lower netloc = lit "github.com")) then
      Raise (ValueError (lit "Unsupported host in repo URL: " ++ repo))
    else
      let parts := split (lit "/") (strip_chars (lit "/") path) in
      if (length parts <? 2)%nat then
        Raise (ValueError (lit "Invalid GitHub URL: " ++ repo))
      else Ok (join (lit "/") (take 2 parts))
  else if negb (count (lit "/") repo =? 1)%nat then
    Raise (ValueError (lit "Invalid repo slug: " ++ repo))
  else Ok repo.

(** The text of [data.get("message") or str(error)], line 108, as the
    string of line 116 has it: the message of the body when it is a string
    that is not empty, what [str] makes of a true message of another kind,
    and [str(error)] without a message.  For a body that is no object
    line 108 raises and there is no message: the empty string stands for
    that. *)
Definition error_message (error : HTTPError) : str :=
  match body error with
  | Object (Text (c :: m)) => c :: m
  | Object (Value text) => text
  | Object _ => error_str error
  | NotObject => []
  end.


Definition error_reset_at (error : HTTPError) : res (option Z) :=
  match reset_header error with
  | Some reset_header =>
      if truthy reset_header && str_isdigit reset_header
      then n ← int_of_str reset_header; Ok (Some n)
      else Ok None
  | None => Ok None
  end.

(** [_handle_error] never returns; the result is the exception that it
    raises. *)
Definition _handle_error (error : HTTPError) : exn :=
  match body error with
  | NotObject => AttributeError         (* [data.get], line 108 *)
  | Object m =>
      let message := error_message error in
      match error_reset_at error with
      | Raise e => e
      | Ok reset_at =>
          if code error =? 403 then
            match m with
            | Value _ => AttributeError  (* [message.lower()], line 114 *)
            | _ =>
                if contains (lit "rate limit") (str_lower message)
                then RateLimitError message reset_at
                else GitHubAPIError
                       (message ++ lit " (HTTP " ++ of_Z (code error)
                        ++ lit ")")
            end
          else GitHubAPIError
                 (message ++ lit " (HTTP " ++ of_Z (code error) ++ lit ")")
      end
  end.

(** The network: a state [World] and the reply of [urlopen] to a request
    in a state; [environ] is the process environment. *)
Context {World : Type}.
Variable urlopen : World -> Request -> reply * World.
Variable environ : list (str * str).

Definition _request_json (w : World) (url : str) (token : option str)
  : res RepoData * World :=
  let '(r, w') := urlopen w (mkRequest url (_build_headers token)) in
  match r with
  | Body data => (Ok data, w')
  | HTTPErr err => (Raise (_handle_error err), w')
  | URLErr reason =>
      (Raise (GitHubAPIError (lit "Network error: <urlopen error " ++ reason
                              ++ lit ">")), w')
  | OtherErr e => (Raise e, w')
  end.

Definition fetch_repo_stars (w : World) (repo : str) (token : option str)
  : res RepoStars * World :=
  match normalize_slug repo with
  | Raise e => (Raise e, w)
  | Ok slug =>
      let token :=
        match token with
        | Some t => Some t
        | None => discover_token environ None
        end in
      let '(r, w') :=
        _request_json w (lit "https://api.github.com/repos/" ++ slug) token in
      match r with
      | Raise e => (Raise e, w')
      | Ok data =>
          (Ok (mkRepoStars slug
                 (default 0 (stargazers_count data))
                 (default (lit "https://github.com/" ++ slug) (html_url data))
                 (description data)), w')
      end
  end.

(** The loop of [fetch_many]: [results] is the list that the loop appends
    to; an exception leaves the loop and the results so far are lost. *)
Fixpoint fetch_many_loop (w : World) (results : list RepoStars)
    (repos : list str) (token : option str)
  : res (list RepoStars) * World :=
  match repos with
  | [] => (Ok results, w)
  | repo :: rest =>
      let '(r, w') := fetch_repo_stars w repo token in
      match r with
      | Raise e => (Raise e, w')
      | Ok info => fetch_many_loop w' (results ++ [info]) rest token
      end
  end.

Definition fetch_many (w : World) (repos : list str) (token : option str)
  : res (list RepoStars) * World :=
  let token :=
    match token with
    | Some t => Some t
    | None => discover_token environ None
    end in
  fetch_many_loop w [] repos token.

End GetStars.

(** ** generate_awesome_docker_stars.py: fetching, sorting, rendering *)

(** [isinstance(e, GitHubAPIError)]; [RateLimitError] is a subclass. *)
Definition is_api_error (e : exn) : bool :=
  match e with
  | GitHubAPIError _ | RateLimitError _ _ => true
  | _ => false
  end.

(** [str(err)] for the errors that the handler of [fetch_star_data]
    catches: the message. *)
Definition api_error_str (e : exn) : str :=
  match e with
  | GitHubAPIError msg | RateLimitError msg _ => msg
  | _ => []
  end.

Definition set_stars (entry : RepoEntry) (n : Z) : RepoEntry :=
  mkRepoEntry (name entry) (slug entry) (url entry) (category entry)
    (note entry) (Some n).

(** [e.stars or 0] *)
Definition stars_or_0 (entry : RepoEntry) : Z := default 0 (stars entry).

(** [entries.sort(key=..., reverse=True)]: [list.sort] is stable, also
    with [reverse=True]; the model is the insertion sort that puts an
    element before the later elements whose key is not greater. *)
Fixpoint insert_desc {A} (key : A -> Z) (x : A) (l : list A) : list A :=
  match l with
  | [] => [x]
  | y :: l' =>
      if key x <? key y then y :: insert_desc key x l' else x :: y :: l'
  end.

Fixpoint sort_desc {A} (key : A -> Z) (l : list A) : list A :=
  match l with
  | [] => []
  | x :: l' => insert_desc key x (sort_desc key l')
  end.

Definition table_header : str :=
  lit "| Rank | Repository | Stars | Category | Note |".
Definition table_separator : str :=
  lit "| --- | --- | --- | --- | --- |".

Definition table_row (idx : Z) (entry : RepoEntry) (star_text : str) : str :=
  lit "| " ++ of_Z idx ++ lit " | [" ++ slug entry ++ lit "](" ++ url entry
  ++ lit ") | " ++ star_text ++ lit " | " ++ category entry ++ lit " | "
  ++ note entry ++ lit " |".

(** The loop of [render_markdown]: the lines of the entries, numbered from
    [idx]. *)
Fixpoint render_rows (idx : Z) (entries : list RepoEntry) : res (list str) :=
  match entries with
  | [] => Ok []
  | entry :: rest =>
      star_text ← format_stars (stars_or_0 entry);
      rows ← render_rows (idx + 1) rest;
      Ok (table_row idx entry star_text :: rows)
  end.

Definition render_markdown (entries : list RepoEntry) : res str :=
  rows ← render_rows 1 entries;
  Ok (join [0xa%N] (table_header :: table_separator :: rows) ++ [0xa%N]).

(** Lines 157 and 158 of [main]: the entries are sorted in place by
    [e.stars or 0], greatest first, and rendered. *)
Definition sorted_report (entries : list RepoEntry) : res str :=
  let entries := sort_desc stars_or_0 entries in
  render_markdown entries.

(** How the process ends: the report written to the output file, or
    [SystemExit(message)] (the message goes to standard error and the
    status is 1), or an exception that nothing catches (status 1).  The
    output file is opened only in the first case. *)
Inductive outcome : Type :=
| Written (report : str)
| SystemExit (message : str)
| Uncaught (e : exn).



(** [tokens[token_index] if token_index < len(tokens) else None] *)
Definition token_at (tokens : list (option str)) (token_index : nat)
  : option str :=
  if (token_index <? length tokens)%nat
  then default None (tokens !! token_index) else None.

Section Generator.

(** [clock w] is the value of [int(time.time())] in the state [w]. *)
Context `{PyLib} {World : Type}.
Variable urlopen : World -> Request -> reply * World.
Variable environ : list (str * str).
Variable clock : World -> Z.

(** The [while True] loop of [fetch_star_data] for one entry.  The
    result is the state of the network, the token index and either the
    entry with its stars or the exception that leaves the loop.  Every
    turn but the last adds one to [token_index]; [fuel] counts the turns
    and [None] means that it ran out. *)
Fixpoint fetch_entry (fuel : nat) (w : World) (tokens : list (option str))
    (token_index : nat) (entry : RepoEntry)
  : option (World * nat * res RepoEntry) :=
  match fuel with
  | O => None
  | S fuel' =>
      let token := token_at tokens token_index in
      let '(r, w') := fetch_repo_stars urlopen environ w (slug entry) token in
      match r with
      | Ok info => Some (w', token_index, Ok (set_stars entry (rs_stars info)))
      | Raise err =>
          if is_api_error err then
            if contains (lit "Not Found") (api_error_str err) then
              Some (w', token_index, Ok (set_stars entry 0))
            else if contains (lit "Bad credentials") (api_error_str err)
                    && (token_index + 1 <? length tokens)%nat then
              fetch_entry fuel' w' tokens (token_index + 1)%nat entry
            else Some (w', token_index, Raise err)
          else Some (w', token_index, Raise err)
      end
  end.

(** The [for] loop of [fetch_star_data].  Entries are updated in place:
    when an exception leaves the loop, the entries before the failing
    one keep their stars and the others are untouched. *)
Fixpoint fetch_entries (w : World) (tokens : list (option str))
    (token_index : nat) (entries : list RepoEntry)
  : option (World * nat * list RepoEntry * res unit) :=
  match entries with
  | [] => Some (w, token_index, [], Ok tt)
  | entry :: rest =>
      match fetch_entry (length tokens - token_index) w tokens token_index
              entry with
      | None => None
      | Some (w', i', Ok entry') =>
          match fetch_entries w' tokens i' rest with
          | Some (w'', i'', rest', r) => Some (w'', i'', entry' :: rest', r)
          | None => None
          end
      | Some (w', i', Raise err) => Some (w', i', entry :: rest, Raise err)
      end
  end.

Definition fetch_star_data (w : World) (entries : list RepoEntry)
    (tokens : list (option str))
  : option (World * list RepoEntry * res unit) :=
  let tokens := match tokens with [] => [None] | _ => tokens end in
  match fetch_entries w tokens 0 entries with
  | Some (w', _, entries', r) => Some (w', entries', r)
  | None => None
  end.

(** [main] from line 150 on, from the text of the input file to the way
    the process ends.  The lines before it, which read the command line
    and the input file, are not part of the model: [markdown] is what
    line 148 has read. *)
Definition main (w : World) (markdown : str) : option (World * outcome) :=
  match parse_repos markdown with
  | Raise e => Some (w, Uncaught e)
  | Ok entries =>
      let tokens := discover_tokens environ None in
      match fetch_star_data w entries (Some <$> tokens) with
      | None => None
      | Some (w', entries, Raise (RateLimitError _ reset_at)) =>
          match rate_limit_message (clock w') reset_at with
          | Ok message => Some (w', SystemExit message)
          | Raise e => Some (w', Uncaught e)
          end
      | Some (w', entries, Raise e) => Some (w', Uncaught e)
      | Some (w', entries, Ok _) =>
          match sorted_report entries with
          | Ok report => Some (w', Written report)
          | Raise e => Some (w', Uncaught e)
          end
      end
  end.

End Generator.

(** ** A concrete library for running examples

    ASCII versions of the open library functions.  [ascii_urlparse]
    follows [urlsplit] on a URL of printable characters: the scheme is
    what comes before the first colon, when that starts with a letter and
    is made of scheme characters; after two slashes the host goes up to
    the first slash, question mark or hash, and the path up to the first
    question mark or hash.  It raises as [urlsplit] does when one of the
    two brackets is in the host without the other.  The check of a host
    in brackets and the parameters after a semicolon are left out. *)

Module Ascii_lib.

Definition lower_char (c : char) : char :=
  if (65 <=? c)%N && (c <=? 90)%N then (c + 32)%N else c.
Definition upper_char (c : char) : char :=
  if (97 <=? c)%N && (c <=? 122)%N then (c - 32)%N else c.
Definition is_digit (c : char) : bool := (48 <=? c)%N && (c <=? 57)%N.

Definition isdigit (s : str) : bool := truthy s && forallb is_digit s.

Definition to_int (s : str) : res Z :=
  if isdigit s
  then Ok (fold_left (fun n c => 10 * n + Z.of_N (c - 48)) s 0)
  else Raise (ValueError (lit "invalid literal for int()")).

(** [s] cut before the first of its characters that is in [stops]. *)
Fixpoint cut_at (stops : str) (s : str) : str * str :=
  match s with
  | [] => ([], [])
  | c :: s' =>
      if char_in stops c then ([], s)
      else let '(a, b) := cut_at stops s' in (c :: a, b)
  end.

Definition is_letter (c : char) : bool :=
  (65 <=? c)%N && (c <=? 90)%N || (97 <=? c)%N && (c <=? 122)%N.

Definition scheme_char (c : char) : bool :=
  is_letter c || is_digit c || char_in (lit "+-.") c.

(** The URL without its scheme and the colon, when it has a scheme. *)
Definition after_scheme (u : str) : str :=
  match cut_at (lit ":") u with
  | (c :: scheme, _ :: url) =>
      if is_letter c && forallb scheme_char scheme then url else u
  | _ => u
  end.

Definition ascii_urlparse (u : str) : res (str * str) :=
  let url := after_scheme u in
  if starts_with (lit "//") url then
    let '(netloc, url) := cut_at (lit "/?#") (drop 2 url) in
    if xorb (char_in netloc (chr "[")) (char_in netloc (chr "]"))
    then Raise (ValueError (lit "Invalid IPv6 URL"))
    else Ok (netloc, (cut_at (lit "?#") url).1)
  else Ok ([], (cut_at (lit "?#") url).1).

#[global] Instance ascii_lib : PyLib := {|
  str_lower := List.map lower_char;
  str_upper := List.map upper_char;
  str_isdigit := isdigit;
  int_of_str := to_int;
  urlparse := ascii_urlparse
|}.

End Ascii_lib.

(** ** Occurrences of repository bullets

    The repository bullets of a document in document order, each one read
    on its own: the line is given to [parse_line] in a state that has the
    open headings and has seen nothing.  This is the sequence that the
    deduplication of [parse_repos] is stated against. *)

Fixpoint bullets (hs : list str) (lines : list str) : res (list RepoEntry) :=
  match lines with
  | [] => Ok []
  | raw_line :: rest =>
      st ← parse_line (mkParser hs [] ∅) raw_line;
      later ← bullets (headings st) rest;
      Ok (entries st ++ later)
  end.

(** The first element of [l] with the slug [s]. *)
Definition first_with_slug (s : str) (l : list RepoEntry) : option RepoEntry :=
  List.find (fun e => bool_decide (slug e = s)) l.

(** Keeping, of a sequence of occurrences, the first one of every slug
    that is not in [seen]. *)
Fixpoint first_occurrences (seen : list str) (l : list RepoEntry)
  : list RepoEntry :=
  match l with
  | [] => []
  | e :: l' =>
      if bool_decide (slug e ∈ seen) then first_occurrences seen l'
      else e :: first_occurrences (seen ++ [slug e]) l'
  end.

(** ** The stack of headings, in the words of the specification

    A heading line is one to six hashes, whitespace and a title; its level
    is the number of hashes. *)
Definition heading_of (line : str) : option (nat * str) :=
  let rest := lstrip_by (eqc "#") line in
  let level := (length line - length rest)%nat in
  match rest with
  | w :: title =>
      if (1 <=? level)%nat && (level <=? 6)%nat && isspace w
      then Some (level, strip title) else None
  | [] => None
  end.

(** A heading line of level [level] truncates the stack to its first
    [level - 1] entries and pushes the title; another line leaves it. *)
Definition heading_step (stack : list str) (raw_line : str) : list str :=
  match heading_of (strip raw_line) with
  | Some (level, title) => take (level - 1) stack ++ [title]
  | None => stack
  end.

(** The headings that are open after the lines [lines] of a document. *)
Definition open_headings (lines : list str) : list str :=
  foldl heading_step [] lines.

(** A segment of a slug that is not empty and has none of the characters
    at which the address of a bullet ends or is cut: the slash, the
    closing parenthesis, the question mark and the hash. *)
Definition plain_segment (s : str) : bool :=
  truthy s && forallb (fun c => negb (char_in (lit "/)?#") c)) s.

(** The slug of a line that [parse_repos] reads as a repository bullet:
    the tests of lines 61, 70 and 78 in their order. *)
Definition line_slug (raw_line : str) : option str :=
  let line := strip raw_line in
  match rmatch header_re line with
  | Some _ => None
  | None =>
      match rmatch bullet_re line with
      | Some m =>
          match bullet_slug (group 2 m) with
          | Ok (Some slug) => Some slug
          | _ => None
          end
      | None => None
      end
  end.

(** The pattern  ^ [^/]+ / [^/]+ $  that the specification gives for
    slugs, and the pattern  ^ [^/]+ / [^/]* $  that lets the second
    segment be empty. *)
Definition owner_repo_re : re :=
  Bol ⋅ plus (nec "/") ⋅ Lit (lit "/") ⋅ plus (nec "/") ⋅ Eol.

Definition owner_rest_re : re :=
  Bol ⋅ plus (nec "/") ⋅ Lit (lit "/") ⋅ star (nec "/") ⋅ Eol.

(** ** Predicates of the statements *)

(** The number of times that a character occurs in a string. *)
Definition occurrences (c : char) (s : str) : nat :=
  length (filter (fun x => x = c) s).

(** A slug as [bullet_slug] makes it: two segments without a slash, the
    first of them not empty. *)
Definition slug_shape (s : str) : Prop :=
  ∃ owner repo, s = owner ++ lit "/" ++ repo
    ∧ (chr "/" ∉ owner) ∧ (chr "/" ∉ repo) ∧ owner ≠ [].

(** The entry that a bullet with the groups [m] and the slug [s] adds. *)
Definition new_entry (st : parser) (m : caps) (s : str) : RepoEntry :=
  mkRepoEntry (strip (group 1 m)) s (lit "https://github.com/" ++ s)
    (_current_category (headings st)) (_clean_note (group 3 m)) None.

(** What one line can do to the state. *)
Inductive line_step (st : parser) (raw : str) : parser -> Prop :=
| step_heading m :
    rmatch header_re (strip raw) = Some m ->
    line_step st raw
      (mkParser (take (length (group 1 m) - 1) (headings st)
                 ++ [strip (group 2 m)]) (entries st) (seen st))
| step_skip :
    rmatch header_re (strip raw) = None ->
    line_step st raw st
| step_entry m s :
    rmatch header_re (strip raw) = None ->
    rmatch bullet_re (strip raw) = Some m ->
    bullet_slug (group 2 m) = Ok (Some s) ->
    seen st !! s = None ->
    line_step st raw
      (mkParser (headings st) (entries st ++ [new_entry st m s])
         (<[s := new_entry st m s]> (seen st))).

(** The state of the loop: every entry has a slug of the right shape and
    [seen] has exactly the slugs of the entries. *)
Record parser_inv (st : parser) : Prop := {
  inv_shape : Forall (fun e => slug_shape (slug e)) (entries st);
  inv_seen : ∀ s, is_Some (seen st !! s) ↔ s ∈ slug <$> entries st
}.

(** The exponent that [truediv] chooses brings the quotient into
    [2 ^ 52, 2 ^ 53). *)
Definition normal (n b e : Z) : Prop :=
  0 < snd (Float.scaled n b e)
  ∧ 2 ^ 52 * snd (Float.scaled n b e) <= fst (Float.scaled n b e)
  ∧ fst (Float.scaled n b e) < 2 ^ 53 * snd (Float.scaled n b e).

(** A network that keeps the requests it is sent, in the order in which
    they come. *)
Definition logged {World : Type} (urlopen : World -> Request -> reply * World)
    (s : World * list Request) (request : Request)
  : reply * (World * list Request) :=
  let '(r, w') := urlopen s.1 request in (r, (w', s.2 ++ [request])).

(** [token if token is not None else discover_token()] *)
Definition token_or_discovered `{PyLib} (environ : list (str * str))
    (token : option str) : option str :=
  match token with
  | Some t => Some t
  | None => discover_token environ None
  end.

(** The request of [fetch_repo_stars] for a slug. *)
Definition lookup_request (slug : str) (token : option str) : Request :=
  mkRequest (lit "https://api.github.com/repos/" ++ slug)
    (_build_headers token).

(** What [fetch_repo_stars] makes of the reply to its request. *)
Definition lookup_result `{PyLib} (slug : str) (r : reply) : res RepoStars :=
  match r with
  | Body data =>
      Ok (mkRepoStars slug (default 0 (stargazers_count data))
            (default (lit "https://github.com/" ++ slug) (html_url data))
            (description data))
  | HTTPErr err => Raise (_handle_error err)
  | URLErr reason =>
      Raise (GitHubAPIError (lit "Network error: <urlopen error " ++ reason
                             ++ lit ">"))
  | OtherErr e => Raise e
  end.

(** Two entries that differ at most in their stars. *)
Definition same_repo (a b : RepoEntry) : Prop :=
  name a = name b ∧ slug a = slug b ∧ url a = url b
  ∧ category a = category b ∧ note a = note b.

(** A string that [str.strip] leaves as it is. *)
Definition stripped (s : str) : Prop := strip s = s.

(** The strings that a match has captured are made of characters with
    the property [P]. *)
Definition caps_ok (P : N -> Prop) (cs : caps) : Prop :=
  Forall (fun c => Forall P c.2) cs.

(** [isinstance(e, RateLimitError)] *)
Definition is_rate_limit (e : exn) : bool :=
  match e with
  | RateLimitError _ _ => true
  | _ => false
  end.

(** The message of a process that ends with [SystemExit]. *)
Definition system_exit (o : outcome) : option str :=
  match o with
  | SystemExit message => Some message
  | _ => None
  end.

(** The values that [discover_tokens] meets, in the order in which it
    meets them: the non-empty values of the preferred keys, then the
    non-empty values of the variables whose name, in upper case, has
    [PAT].  A value can come more than once. *)
Definition preferred_value (env : list (str * str)) (key : str) : option str :=
  match env_get env key with
  | Some val => if truthy val then Some val else None
  | None => None
  end.

Definition pat_value `{PyLib} (item : str * str) : option str :=
  if contains (lit "PAT") (str_upper item.1) && truthy item.2
  then Some item.2 else None.

Definition candidates `{PyLib} (env : list (str * str)) : list str :=
  omap (preferred_value env) preferred_keys ++ omap pat_value env.

(** A small network for running examples: the token [bad] is rejected,
    the repository [gone/repo] does not exist, [busy/repo] is rate
    limited, and every other repository has 12345 stars. *)
Module Sample.

Import Ascii_lib.

Definition api (s : string) : str :=
  lit "https://api.github.com/repos/" ++ lit s.

Definition bad_credentials : HTTPError :=
  mkHTTPError 401 (lit "HTTP Error 401: Unauthorized")
    (Object (Text (lit "Bad credentials"))) None.

Definition not_found : HTTPError :=
  mkHTTPError 404 (lit "HTTP Error 404: Not Found")
    (Object (Text (lit "Not Found"))) None.

Definition rate_limited : HTTPError :=
  mkHTTPError 403 (lit "HTTP Error 403: rate limit exceeded")
    (Object (Text (lit "API rate limit exceeded for 203.0.113.7.")))
    (Some (lit "1700000300")).

(** A rate-limit reply whose message is a list and not a string, and a
    reply whose body is a JSON string and not an object. *)
Definition listed_rate_limit : HTTPError :=
  mkHTTPError 403 (lit "HTTP Error 403: Forbidden")
    (Object (Value (lit "['API rate limit exceeded']"))) None.

Definition bad_gateway : HTTPError :=
  mkHTTPError 502 (lit "HTTP Error 502: Bad Gateway") NotObject None.





(** A network that gives the message of a rate limit with the status
    404. *)
Definition misfiled_rate_limit : HTTPError :=
  mkHTTPError 404 (lit "HTTP Error 404: Not Found")
    (Object (Text (lit "API rate limit exceeded"))) None.

Definition misfiled_urlopen (w : unit) (r : Request) : reply * unit :=
  (HTTPErr misfiled_rate_limit, w).

Definition urlopen (w : unit) (r : Request) : reply * unit :=
  if bool_decide ((lit "Authorization", lit "Bearer bad") ∈ req_headers r)
  then (HTTPErr bad_credentials, w)
  else if bool_decide (req_url r = api "gone/repo")
  then (HTTPErr not_found, w)
  else if bool_decide (req_url r = api "busy/repo")
  then (HTTPErr rate_limited, w)
  else (Body (mkRepoData (Some 12345) None None), w).

Definition clock (w : unit) : Z := 1700000000.



(** A network that rejects the token [bad] with a message that also has
    the words of a missing repository. *)
Definition odd_bad_credentials : HTTPError :=
  mkHTTPError 401 (lit "HTTP Error 401: Unauthorized")
    (Object (Text (lit "Bad credentials: token Not Found"))) None.

Definition odd_auth_urlopen (w : unit) (r : Request) : reply * unit :=
  if bool_decide ((lit "Authorization", lit "Bearer bad") ∈ req_headers r)
  then (HTTPErr odd_bad_credentials, w)
  else (Body (mkRepoData (Some 12345) None None), w).

Definition starred (s : string) (n : option Z) : RepoEntry :=
  mkRepoEntry (lit s) (lit s) (lit "https://github.com/" ++ lit s) [] [] n.

Definition entry (s : string) : RepoEntry := starred s None.

(** The example document of the specification: a title, a section and two
    bullets for the same repository. *)
Definition document : str :=
  lit "# Awesome
## DBs
- [foo/bar](https://github.com/foo/bar) - a database
- [foo/bar](https://github.com/foo/bar/issues) dup
".

Definition foo_bar : RepoEntry :=
  mkRepoEntry (lit "foo/bar") (lit "foo/bar")
    (lit "https://github.com/foo/bar") (lit "DBs") (lit "a database") None.

(** What the second bullet is on its own. *)
Definition foo_bar_again : RepoEntry :=
  mkRepoEntry (lit "foo/bar") (lit "foo/bar")
    (lit "https://github.com/foo/bar") (lit "DBs") (lit "dup") None.

(** A bullet whose link has a query, and one whose link has two slashes
    in a row. *)
Definition query_bullet : str := lit "- [x](https://github.com/foo/bar?tab=x)".
Definition double_slash_bullet : str :=
  lit "- [x](https://github.com/foo//bar)".

End Sample.

(** * Properties *)

(** ** Strings *)

Section StrFacts.

Implicit Types (s t p sub cur : str) (c d : char).

Lemma starts_with_app p t : starts_with p (p ++ t) = true.
Proof. induction p as [|a p IH]; simpl; [done|]. by rewrite N.eqb_refl. Qed.

Lemma starts_with_inv p s : starts_with p s = true -> ∃ t, s = p ++ t.
Proof.
  revert s. induction p as [|a p IH]; intros s Hs; simpl in *; [by eexists|].
  destruct s as [|b s]; [done|].
  apply andb_true_iff in Hs as [Hab Hs]. apply N.eqb_eq in Hab as ->.
  destruct (IH _ Hs) as [t ->]. by exists t.
Qed.

Lemma contains_inv sub s : contains sub s = true -> ∃ a b, s = a ++ sub ++ b.
Proof.
  induction s as [|x s IH]; simpl; intros Hs.
  - rewrite orb_false_r in Hs. apply starts_with_inv in Hs as [t ->].
    by exists [], t.
  - apply orb_true_iff in Hs as [Hs|Hs].
    + apply starts_with_inv in Hs as [t ->]. by exists [], t.
    + destruct (IH Hs) as (a & b & ->). by exists (x :: a), b.
Qed.

Lemma contains_prefix sub s : starts_with sub s = true -> contains sub s = true.
Proof. intros Hs. destruct s; simpl; by rewrite Hs. Qed.

Lemma contains_intro sub a b : contains sub (a ++ sub ++ b) = true.
Proof.
  induction a as [|x a IH]; simpl.
  - apply contains_prefix, starts_with_app.
  - rewrite IH. apply orb_true_r.
Qed.


(** A character that is not in [sub], put at the end, changes nothing. *)
Lemma starts_with_snoc p s c :
  c ∉ p -> starts_with p (s ++ [c]) = starts_with p s.
Proof.
  revert s. induction p as [|a p IH]; intros s Hc; [done|].
  apply not_elem_of_cons in Hc as [Hac Hc].
  destruct s as [|b s]; simpl.
  - by destruct (N.eqb_spec a c) as [->|].
  - by rewrite IH.
Qed.

Lemma contains_snoc sub s c :
  c ∉ sub -> sub ≠ [] -> contains sub (s ++ [c]) = contains sub s.
Proof.
  intros Hc Hne. induction s as [|x s IH].
  - destruct sub as [|a sub]; [done|]. simpl.
    apply not_elem_of_cons in Hc as [Hac _].
    by destruct (N.eqb_spec a c) as [->|].
  - change ((x :: s) ++ [c]) with (x :: (s ++ [c])).
    cbn [contains]. rewrite IH.
    change (x :: (s ++ [c])) with ((x :: s) ++ [c]).
    by rewrite (starts_with_snoc sub (x :: s) c Hc).
Qed.

(** Splitting at a single character. *)
Lemma split_from_char c cur s :
  split_from [c] 0 cur s =
  match s with
  | [] => [reverse cur]
  | x :: s' =>
      if N.eqb c x then reverse cur :: split_from [c] 0 [] s'
      else split_from [c] 0 (x :: cur) s'
  end.
Proof. destruct s as [|x s]; simpl; [done|]. by rewrite andb_true_r. Qed.

Lemma split_char_pieces c s cur :
  c ∉ cur -> Forall (fun p => c ∉ p) (split_from [c] 0 cur s).
Proof.
  revert cur. induction s as [|x s IH]; intros cur Hcur;
    rewrite split_from_char.
  - constructor; [|constructor]. by rewrite elem_of_reverse.
  - destruct (N.eqb_spec c x) as [->|Hne].
    + constructor; [by rewrite elem_of_reverse|]. apply IH. apply not_elem_of_nil.
    + apply IH. rewrite elem_of_cons. intros [?|?]; done.
Qed.

Lemma split_char_head c s cur :
  ∃ x rest, split_from [c] 0 cur s = (reverse cur ++ x) :: rest.
Proof.
  revert cur. induction s as [|x s IH]; intros cur; rewrite split_from_char.
  - exists [], []. by rewrite app_nil_r.
  - destruct (N.eqb c x).
    + exists [], (split_from [c] 0 [] s). by rewrite app_nil_r.
    + destruct (IH (x :: cur)) as (y & rest & ->).
      exists (x :: y), rest. by rewrite reverse_cons, <- app_assoc.
Qed.

Lemma split_char_length c s cur :
  length (split_from [c] 0 cur s) = S (occurrences c s).
Proof.
  revert cur. induction s as [|x s IH]; intros cur; rewrite split_from_char;
    [done|].
  unfold occurrences. rewrite filter_cons.
  destruct (N.eqb_spec c x) as [->|Hne].
  - rewrite decide_True by done. simpl. by rewrite IH.
  - rewrite decide_False by done. by rewrite IH.
Qed.

Lemma count_char c s : count [c] s = occurrences c s.
Proof. unfold count, split. by rewrite split_char_length. Qed.

Lemma occurrences_app c s t :
  occurrences c (s ++ t) = (occurrences c s + occurrences c t)%nat.
Proof. unfold occurrences. by rewrite filter_app, length_app. Qed.

Lemma occurrences_none c s : c ∉ s -> occurrences c s = 0%nat.
Proof.
  unfold occurrences. induction s as [|x s IH]; [done|].
  rewrite not_elem_of_cons. intros [Hx Hs].
  rewrite filter_cons, decide_False by done. auto.
Qed.

(** Stripping. *)
Lemma lstrip_by_keep f s c :
  f c = false -> ∃ t, lstrip_by f (s ++ [c]) = t ++ [c].
Proof.
  intros Hc. induction s as [|x s IH]; simpl.
  - rewrite Hc. by exists [].
  - destruct (f x); [done|]. by exists (x :: s).
Qed.

Lemma lstrip_by_head f s :
  match lstrip_by f s with
  | [] => True
  | c :: _ => f c = false
  end.
Proof.
  induction s as [|x s IH]; simpl; [done|].
  destruct (f x) eqn:E; [done|]. done.
Qed.

Lemma strip_by_head f s :
  match strip_by f s with
  | [] => True
  | c :: _ => f c = false
  end.
Proof.
  unfold strip_by, rstrip_by.
  pose proof (lstrip_by_head f s) as Hl.
  destruct (lstrip_by f s) as [|c t]; [done|].
  rewrite reverse_cons. destruct (lstrip_by_keep f (reverse t) c Hl) as [u ->].
  by rewrite reverse_snoc.
Qed.

Lemma lstrip_by_elem f s c : c ∈ lstrip_by f s -> c ∈ s.
Proof.
  induction s as [|x s IH]; simpl; [done|].
  destruct (f x); [|done]. intros Hc. apply elem_of_cons. right. by apply IH.
Qed.

Lemma strip_by_elem f s c : c ∈ strip_by f s -> c ∈ s.
Proof.
  unfold strip_by, rstrip_by. rewrite elem_of_reverse.
  intros Hc%lstrip_by_elem. rewrite elem_of_reverse in Hc.
  by apply lstrip_by_elem in Hc.
Qed.

(** No line of [splitlines] has a newline. *)
Lemma splitlines_from_newline n s cur raw :
  (length s <= n)%nat -> raw ∈ splitlines_from cur s ->
  0xa%N ∉ cur -> 0xa%N ∉ raw.
Proof.
  revert s cur. induction n as [|n IH]; intros s cur Hlen Hraw Hcur.
  { destruct s; [|simpl in Hlen; lia]. simpl in Hraw.
    destruct cur; [by apply elem_of_nil in Hraw|].
    apply list_elem_of_singleton in Hraw as ->. by rewrite elem_of_reverse. }
  destruct s as [|c s].
  { simpl in Hraw. destruct cur; [by apply elem_of_nil in Hraw|].
    apply list_elem_of_singleton in Hraw as ->. by rewrite elem_of_reverse. }
  simpl in Hlen, Hraw.
  assert (Hline : ∀ s', (length s' <= n)%nat ->
            raw ∈ reverse cur :: splitlines_from [] s' -> 0xa%N ∉ raw).
  { intros s' Hs' [->|Hin]%elem_of_cons; [by rewrite elem_of_reverse|].
    eapply IH; [exact Hs'|exact Hin|apply not_elem_of_nil]. }
  destruct (N.eqb c 0xd).
  { destruct s as [|c' s'']; [apply (Hline []); [simpl; lia|done]|].
    destruct (N.eqb c' 0xa).
    - apply (Hline s''); [simpl in Hlen; lia|done].
    - apply (Hline (c' :: s'')); [lia|done]. }
  destruct (is_line_break c) eqn:Hbreak.
  { apply (Hline s); [lia|done]. }
  eapply IH; [|exact Hraw|]; [lia|].
  rewrite not_elem_of_cons. split; [|done]. by intros <-.
Qed.

Lemma splitlines_newline s raw : raw ∈ splitlines s -> 0xa%N ∉ raw.
Proof.
  intros Hraw. eapply splitlines_from_newline; [done|exact Hraw|].
  apply not_elem_of_nil.
Qed.

End StrFacts.

(** ** Regular expressions *)

Lemma many_inv {A} cls lo hi pos s (k : nat -> str -> option A) r :
  many cls lo hi pos s k = Some r ->
  ∃ n, (lo <= n <= length s)%nat ∧ (∀ h, hi = Some h -> (n <= h)%nat)
       ∧ Forall (fun c => cls c = true) (take n s)
       ∧ k (pos + n)%nat (drop n s) = Some r.
Proof.
  revert lo hi pos. induction s as [|c s IH]; intros lo hi pos Hm.
  - destruct lo; simpl in Hm; [|done].
    exists 0%nat. rewrite Nat.add_0_r. repeat split; auto with lia.
  - assert (Hstop : match lo with
                    | O => k pos (c :: s)
                    | S _ => None
                    end = Some r ->
                    ∃ n, (lo <= n <= length (c :: s))%nat
                         ∧ (∀ h, hi = Some h -> (n <= h)%nat)
                         ∧ Forall (fun c => cls c = true) (take n (c :: s))
                         ∧ k (pos + n)%nat (drop n (c :: s)) = Some r).
    { destruct lo; [|done]. intros Hk. exists 0%nat.
      rewrite Nat.add_0_r. simpl. repeat split; auto with lia. }
    simpl in Hm. destruct (cls c && at_most hi) eqn:Hc; [|by apply Hstop].
    apply andb_true_iff in Hc as [Hc Hhi].
    destruct (many cls (Nat.pred lo) (Nat.pred <$> hi) (S pos) s k) as [r'|]
      eqn:Hrec; [|by apply Hstop].
    injection Hm as ->.
    apply IH in Hrec as (n & Hn & Hbound & Hall & Hk).
    exists (S n). simpl. rewrite <- Nat.add_succ_comm. repeat split.
    + lia.
    + lia.
    + intros h ->. destruct h as [|h]; [done|].
      specialize (Hbound h eq_refl). lia.
    + by constructor.
    + done.
Qed.

(** A repetition takes all the characters of its class that it is
    allowed to take, when the rest of the pattern then matches. *)
Lemma many_all {A} cls lo hi pos a b (k : nat -> str -> option A) r :
  Forall (fun c => cls c = true) a ->
  (lo <= length a)%nat -> (∀ h, hi = Some h -> (length a <= h)%nat) ->
  match b with c :: _ => cls c = false | [] => True end ->
  k (pos + length a)%nat b = Some r ->
  many cls lo hi pos (a ++ b) k = Some r.
Proof.
  intros Ha. revert lo hi pos.
  induction Ha as [|x a Hx Ha IH]; intros lo hi pos Hlo Hhi Hb Hk.
  - simpl in *. rewrite Nat.add_0_r in Hk.
    assert (lo = 0%nat) as -> by lia.
    destruct b as [|c b]; simpl; [done|]. by rewrite Hb.
  - simpl. rewrite Hx.
    assert (at_most hi = true) as ->.
    { destruct hi as [[|h]|]; try done. specialize (Hhi _ eq_refl).
      simpl in Hhi. lia. }
    simpl. rewrite (IH (Nat.pred lo) (Nat.pred <$> hi) (S pos)); try done.
    + simpl in Hlo. lia.
    + intros h Hh. destruct hi as [h'|]; [|done]. injection Hh as <-.
      specialize (Hhi _ eq_refl). simpl in Hhi. lia.
    + simpl in Hk. by rewrite <- Nat.add_succ_comm in Hk.
Qed.

(** A heading has between one and six hashes. *)
Lemma header_level line m :
  rmatch header_re line = Some m ->
  (1 <= length (group 1 m) <= 6)%nat
  ∧ group 1 m = replicate (length (group 1 m)) (chr "#").
Proof.
  unfold rmatch, header_re. cbn [exec Nat.eqb].
  intros (n & Hn & Hhi & Hall & Hk)%many_inv.
  specialize (Hhi _ eq_refl).
  apply many_inv in Hk as (n2 & _ & _ & _ & Hk).
  apply many_inv in Hk as (n3 & _ & _ & _ & Hk).
  destruct (at_end _); [|done]. injection Hk as <-.
  cbn [group Nat.eqb]. rewrite Nat.sub_0_r.
  rewrite length_take, Nat.min_l by lia. split; [lia|].
  apply list_eq_Forall2, Forall2_same_length_lookup_2.
  { by rewrite length_take, length_replicate, Nat.min_l by lia. }
  intros i x y Hx Hy. apply lookup_replicate in Hy as [-> _].
  rewrite Forall_lookup in Hall. apply Hall in Hx.
  unfold eqc in Hx. by apply N.eqb_eq in Hx.
Qed.

(** ** The steps of [parse_repos] *)

Lemma parse_line_inv st raw st' :
  parse_line st raw = Ok st' -> line_step st raw st'.
Proof.
  unfold parse_line.
  destruct (rmatch header_re (strip raw)) as [m|] eqn:Hh.
  { intros [= <-]. by constructor. }
  destruct (rmatch bullet_re (strip raw)) as [m|] eqn:Hb.
  2: { intros [= <-]. by constructor. }
  destruct (bullet_slug (group 2 m)) as [[s|]|e] eqn:Hs;
    cbn [mbind res_bind]; [| |done].
  2: { intros [= <-]. by constructor. }
  destruct (seen st !! s) eqn:Hseen.
  { intros [= <-]. by constructor. }
  intros [= <-]. by eapply step_entry.
Qed.

(** ** Slugs *)

Lemma bullet_slug_shape url s : bullet_slug url = Ok (Some s) -> slug_shape s.
Proof.
  unfold bullet_slug.
  destruct (index _ 1) as [after|]; cbn [mbind res_bind]; [|done].
  destruct (index _ 0) as [before_query|]; cbn [mbind res_bind]; [|done].
  destruct (index _ 0) as [before_fragment|]; cbn [mbind res_bind]; [|done].
  change (lit "/") with [chr "/"].
  pose proof (strip_by_head (char_in [chr "/"]) before_fragment) as Hhead.
  unfold strip_chars. destruct (strip_by _ before_fragment) as [|c t].
  { done. }
  unfold split.
  pose proof (split_char_pieces (chr "/") (c :: t) [] (not_elem_of_nil _))
    as Hpieces.
  rewrite split_from_char in Hpieces |- *.
  assert (N.eqb (chr "/") c = false) as Hc.
  { apply N.eqb_neq. intros <-. done. }
  rewrite Hc in Hpieces |- *.
  destruct (split_char_head (chr "/") t [c]) as (x & rest & Hsplit).
  rewrite Hsplit in Hpieces |- *.
  destruct rest as [|repo rest]; [done|].
  cbn [length Nat.ltb Nat.leb take join]. intros [= <-].
  apply Forall_cons in Hpieces as [Howner Hpieces].
  apply Forall_cons in Hpieces as [Hrepo _].
  exists (reverse [c] ++ x), repo. done.
Qed.

Lemma slug_shape_one_slash s : slug_shape s -> occurrences (chr "/") s = 1%nat.
Proof.
  intros (owner & repo & -> & Ho & Hr & _).
  change (lit "/") with [chr "/"].
  rewrite !occurrences_app.
  rewrite (occurrences_none _ owner), (occurrences_none _ repo) by done.
  done.
Qed.

Lemma slug_shape_no_scheme s : slug_shape s -> contains (lit "://") s = false.
Proof.
  intros Hs. apply slug_shape_one_slash in Hs.
  destruct (contains _ s) eqn:Hc; [|done].
  apply contains_inv in Hc as (a & b & ->).
  change (lit "://") with ([chr ":"] ++ [chr "/"] ++ [chr "/"]) in Hs.
  rewrite !occurrences_app in Hs.
  change (occurrences (chr "/") [chr "/"]) with 1%nat in Hs. lia.
Qed.

Lemma slug_shape_matches s : slug_shape s -> rmatch owner_rest_re s = Some [].
Proof.
  intros (owner & repo & -> & Ho & Hr & Hne).
  unfold rmatch, owner_rest_re. cbn [exec Nat.eqb].
  assert (∀ t, chr "/" ∉ t -> Forall (fun c => nec "/" c = true) t) as Hnec.
  { intros t Ht. apply Forall_forall. intros c Hc. unfold nec.
    apply negb_true_iff, N.eqb_neq. by intros ->. }
  apply many_all; [by apply Hnec| |done|done|].
  { destruct owner; [done|simpl; lia]. }
  change (lit "/" ++ repo) with (chr "/" :: repo).
  change (starts_with (lit "/") (chr "/" :: repo)) with true.
  change (drop (length (lit "/")) (chr "/" :: repo)) with repo.
  cbn [exec star]. rewrite <- (app_nil_r repo).
  by apply many_all; [apply Hnec|lia|..].
Qed.

(** ** Deduplication *)

Lemma filter_none {A} (P : A -> Prop) `{!∀ x, Decision (P x)} (l : list A) :
  Forall (fun x => ¬ P x) l -> filter P l = [].
Proof.
  induction 1 as [|x l Hx _ IH]; [done|]. by rewrite filter_cons_False.
Qed.

Lemma first_occurrences_fresh seen l e :
  e ∈ first_occurrences seen l -> slug e ∉ seen.
Proof.
  revert seen. induction l as [|x l IH]; intros seen; simpl.
  { by intros ?%elem_of_nil. }
  case_bool_decide as Hx; [by apply IH|].
  intros [->|He]%elem_of_cons; [done|].
  apply IH in He. rewrite elem_of_app in He. tauto.
Qed.

Lemma first_occurrences_NoDup seen l :
  NoDup (slug <$> first_occurrences seen l).
Proof.
  revert seen. induction l as [|x l IH]; intros seen; simpl.
  { constructor. }
  case_bool_decide as Hx; [by apply IH|].
  rewrite fmap_cons. constructor; [|by apply IH].
  intros (e & He & Hin)%list_elem_of_fmap.
  apply first_occurrences_fresh in Hin. rewrite elem_of_app in Hin.
  apply Hin. right. rewrite He. apply list_elem_of_singleton. done.
Qed.

Lemma first_occurrences_sublist seen l : first_occurrences seen l `sublist_of` l.
Proof.
  revert seen. induction l as [|x l IH]; intros seen; simpl; [done|].
  case_bool_decide; [by apply sublist_cons|by apply sublist_skip].
Qed.

Lemma first_occurrences_first seen l c :
  c ∈ l -> slug c ∉ seen ->
  ∃ e, first_with_slug (slug c) l = Some e
       ∧ filter (fun x => slug x = slug c) (first_occurrences seen l) = [e].
Proof.
  unfold first_with_slug.
  revert seen. induction l as [|x l IH]; intros seen Hc Hseen.
  { by apply elem_of_nil in Hc. }
  cbn [first_occurrences find].
  destruct (decide (slug x ∈ seen)) as [Hseen_x|Hseen_x].
  - assert (slug x ≠ slug c) as Hne by (intros Heq; by rewrite Heq in Hseen_x).
    rewrite (bool_decide_eq_true_2 _ Hseen_x), (bool_decide_eq_false_2 _ Hne).
    apply elem_of_cons in Hc as [->|Hc]; [done|]. by apply IH.
  - rewrite (bool_decide_eq_false_2 _ Hseen_x), filter_cons.
    destruct (decide (slug x = slug c)) as [Hx|Hx].
    + rewrite (bool_decide_eq_true_2 _ Hx).
      exists x. split; [done|]. f_equal.
      apply filter_none, Forall_forall. intros y Hy Heq. clear IH.
      apply first_occurrences_fresh in Hy. rewrite elem_of_app in Hy.
      apply Hy. right. rewrite Heq, <- Hx. by apply list_elem_of_singleton.
    + rewrite (bool_decide_eq_false_2 _ Hx).
      apply elem_of_cons in Hc as [->|Hc]; [done|]. apply IH; [done|].
      rewrite elem_of_app, list_elem_of_singleton. intros [?|?]; congruence.
Qed.

Lemma parser_inv_init hs : parser_inv (mkParser hs [] ∅).
Proof.
  split; simpl; [constructor|].
  intros s. rewrite lookup_empty, elem_of_nil. split; [by intros []|done].
Qed.

Lemma line_step_inv st raw st' :
  line_step st raw st' -> parser_inv st -> parser_inv st'.
Proof.
  intros Hstep [Hshape Hseen].
  destruct Hstep as [m Hm| |m s Hh Hb Hs Hnew]; [by split|by split|].
  split; simpl.
  - apply Forall_app. split; [done|]. constructor; [|constructor].
    simpl. by eapply bullet_slug_shape.
  - intros s'. rewrite fmap_app, elem_of_app, <- Hseen. simpl.
    rewrite list_elem_of_singleton, lookup_insert_is_Some.
    destruct (decide (s = s')) as [->|Hne]; [tauto|].
    split; [intros [?|[_ ?]]|intros [?|?]]; auto; congruence.
Qed.

(** A line read in a state is the line read on its own, followed by the
    test of [seen]. *)
Lemma parse_line_alone st raw st' :
  parse_line st raw = Ok st' ->
  ∃ st0, parse_line (mkParser (headings st) [] ∅) raw = Ok st0
    ∧ headings st0 = headings st'
    ∧ ((entries st0 = [] ∧ entries st' = entries st ∧ seen st' = seen st)
       ∨ ∃ e, entries st0 = [e]
           ∧ ((is_Some (seen st !! slug e) ∧ st' = st)
              ∨ (seen st !! slug e = None
                 ∧ entries st' = entries st ++ [e]))).
Proof.
  unfold parse_line. cbn [headings entries seen].
  destruct (rmatch header_re (strip raw)) as [m|].
  { intros [= <-]. eexists. split; [done|]. split; [done|]. by left. }
  destruct (rmatch bullet_re (strip raw)) as [m|].
  2: { intros [= <-]. eexists. split; [done|]. split; [done|]. by left. }
  destruct (bullet_slug (group 2 m)) as [[s|]|e]; cbn [mbind res_bind];
    [| |done].
  2: { intros [= <-]. eexists. split; [done|]. split; [done|]. by left. }
  rewrite lookup_empty. intros Hst'. eexists. split; [done|].
  cbn [headings entries app slug].
  destruct (seen st !! s) eqn:Hseen; injection Hst' as <-.
  - split; [done|]. right. eexists. split; [done|]. left.
    cbn [slug]. by rewrite Hseen.
  - split; [done|]. right. eexists. split; [done|]. right.
    cbn [slug]. by rewrite Hseen.
Qed.

Lemma parse_lines_occurrences lines st st' :
  parse_lines st lines = Ok st' -> parser_inv st ->
  parser_inv st'
  ∧ ∃ occ, bullets (headings st) lines = Ok occ
      ∧ entries st' = entries st ++ first_occurrences (slug <$> entries st) occ.
Proof.
  revert st. induction lines as [|raw rest IH]; intros st Hparse Hinv.
  { injection Hparse as <-. split; [done|]. exists []. by rewrite app_nil_r. }
  cbn [parse_lines bullets] in *.
  destruct (parse_line st raw) as [st1|] eqn:Hline; [|done].
  cbn [mbind res_bind] in Hparse.
  assert (parser_inv st1) as Hinv1.
  { eapply line_step_inv; [by apply parse_line_inv|done]. }
  destruct (IH _ Hparse Hinv1) as (Hinv' & occ & Hocc & Hentries).
  split; [done|].
  destruct (parse_line_alone _ _ _ Hline) as (st0 & -> & Hh & Hcases).
  cbn [mbind res_bind]. rewrite Hh, Hocc. cbn [mbind res_bind].
  eexists. split; [done|].
  destruct Hcases as [(-> & He & _)|(e & -> & [[Hseen ->]|[Hseen He]])].
  - by rewrite Hentries, He.
  - apply (inv_seen _ Hinv) in Hseen. cbn [app first_occurrences].
    by rewrite bool_decide_eq_true_2.
  - cbn [app first_occurrences]. rewrite bool_decide_eq_false_2.
    + by rewrite Hentries, He, fmap_app, <- app_assoc.
    + rewrite <- (inv_seen _ Hinv), Hseen. by intros [].
Qed.

Lemma parse_repos_inv markdown es :
  parse_repos markdown = Ok es ->
  Forall (fun e => slug_shape (slug e)) es
  ∧ ∃ occ, bullets [] (splitlines markdown) = Ok occ
      ∧ es = first_occurrences [] occ.
Proof.
  unfold parse_repos.
  destruct (parse_lines _ _) as [st|] eqn:Hparse; [|done].
  intros [= <-].
  apply parse_lines_occurrences in Hparse as (Hinv & occ & Hocc & Hes);
    [|apply parser_inv_init].
  split; [apply Hinv|]. by exists occ.
Qed.

(** ** Stripping *)

Lemma lstrip_by_span f s :
  ∃ a, s = a ++ lstrip_by f s ∧ Forall (fun c => f c = true) a.
Proof.
  induction s as [|x s (a & Hs & Ha)]; simpl; [by exists []|].
  destruct (f x) eqn:Hx; [|by exists []].
  exists (x :: a). split; [simpl; congruence|by constructor].
Qed.

Lemma lstrip_by_idemp f s : lstrip_by f (lstrip_by f s) = lstrip_by f s.
Proof.
  induction s as [|x s IH]; simpl; [done|].
  destruct (f x) eqn:Hx; [done|]. simpl. by rewrite Hx.
Qed.

Lemma Forall_lstrip_by (P : N -> Prop) f s :
  Forall P s -> Forall P (lstrip_by f s).
Proof.
  induction 1 as [|x s Hx Hs IH]; simpl; [done|].
  destruct (f x); [done|by constructor].
Qed.

Lemma lstrip_by_id (f : N -> bool) (s : str) :
  match s with [] => True | c :: _ => f c = false end -> lstrip_by f s = s.
Proof. destruct s as [|c s]; simpl; [done|]. by intros ->. Qed.

Lemma strip_by_idemp (f : N -> bool) (s : str) :
  strip_by f (strip_by f s) = strip_by f s.
Proof.
  unfold strip_by at 1.
  rewrite (lstrip_by_id f (strip_by f s)) by apply strip_by_head.
  unfold strip_by, rstrip_by. by rewrite reverse_involutive, lstrip_by_idemp.
Qed.

(** What is stripped is inside the string. *)
Lemma strip_by_inside (f : N -> bool) (s : str) :
  ∃ a b, s = a ++ strip_by f s ++ b.
Proof.
  unfold strip_by, rstrip_by.
  destruct (lstrip_by_span f s) as (a & Hs & _).
  destruct (lstrip_by_span f (reverse (lstrip_by f s))) as (b & Hr & _).
  exists a, (reverse b). rewrite <- reverse_app, <- Hr, reverse_involutive.
  done.
Qed.

(** A string that neither starts nor ends with a character to strip. *)
Lemma strip_by_id (f : N -> bool) (s : str) :
  match s with [] => True | c :: _ => f c = false end ->
  match last s with None => True | Some c => f c = false end ->
  strip_by f s = s.
Proof.
  intros Hhead Hlast. unfold strip_by, rstrip_by.
  rewrite (lstrip_by_id f s Hhead), lstrip_by_id; [apply reverse_involutive|].
  destruct s as [|c s _] using rev_ind; [done|].
  rewrite reverse_snoc. by rewrite last_snoc in Hlast.
Qed.

(** ** Cutting a string at a separator *)

Section SplitFacts.

Implicit Types (s t sep cur : str).

Lemma starts_with_nil_r sep : sep ≠ [] -> starts_with sep [] = false.
Proof. by destruct sep. Qed.

Lemma contains_nil_r sep : sep ≠ [] -> contains sep [] = false.
Proof. by destruct sep. Qed.

Lemma contains_cons sep c s :
  contains sep (c :: s) = starts_with sep (c :: s) || contains sep s.
Proof. done. Qed.

(** A string that is inside another. *)
Lemma contains_inside sep a s b :
  contains sep s = true -> contains sep (a ++ s ++ b) = true.
Proof.
  intros (x & y & ->)%contains_inv.
  replace (a ++ (x ++ sep ++ y) ++ b) with ((a ++ x) ++ sep ++ (y ++ b)).
  - apply contains_intro.
  - by rewrite <- !app_assoc.
Qed.

(** Without the separator in it, a string is its only piece. *)
Lemma split_from_none sep cur s :
  sep ≠ [] -> contains sep s = false ->
  split_from sep 0 cur s = [reverse cur ++ s].
Proof.
  intros Hsep. revert cur. induction s as [|c s IH]; intros cur Hs.
  { cbn [split_from]. by rewrite app_nil_r. }
  rewrite contains_cons in Hs. apply orb_false_iff in Hs as [Hhere Hs].
  cbn [split_from]. rewrite Hhere, (IH _ Hs).
  by rewrite reverse_cons, <- app_assoc.
Qed.

(** The characters of a separator that was found are passed over. *)
Lemma split_from_skip sep t cur s :
  split_from sep (length t) cur (t ++ s) = split_from sep 0 cur s.
Proof.
  induction t as [|c t IH]; [done|]. cbn [length app split_from]. apply IH.
Qed.

(** With the separator in it, a string has a second piece. *)
Lemma split_from_some sep cur s :
  sep ≠ [] -> contains sep s = true ->
  ∃ a b, s = a ++ sep ++ b
    ∧ split_from sep 0 cur s = (reverse cur ++ a) :: split_from sep 0 [] b.
Proof.
  intros Hsep. revert cur. induction s as [|c s IH]; intros cur Hs.
  { by rewrite contains_nil_r in Hs. }
  rewrite contains_cons in Hs. cbn [split_from].
  destruct (starts_with sep (c :: s)) eqn:Hhere.
  - apply starts_with_inv in Hhere as [b Hb].
    destruct sep as [|c' sep']; [done|]. injection Hb as <- ->.
    exists [], b. split; [done|]. rewrite app_nil_r. f_equal.
    cbn [length Nat.pred]. apply split_from_skip.
  - destruct (IH (c :: cur) Hs) as (a & b & -> & ->).
    exists (c :: a), b. split; [done|].
    by rewrite reverse_cons, <- app_assoc.
Qed.

(** The first piece is the start of the string, and every piece is
    without the separator. *)
Lemma split_from_first sep cur s :
  ∃ a b rest, s = a ++ b ∧ split_from sep 0 cur s = (reverse cur ++ a) :: rest.
Proof.
  revert cur. induction s as [|c s IH]; intros cur.
  { exists [], [], []. split; [done|]. cbn [split_from]. by rewrite app_nil_r. }
  cbn [split_from]. destruct (starts_with sep (c :: s)).
  - exists [], (c :: s), (split_from sep (Nat.pred (length sep)) [] s).
    split; [done|]. by rewrite app_nil_r.
  - destruct (IH (c :: cur)) as (a & b & rest & -> & ->).
    exists (c :: a), b, rest. by rewrite reverse_cons, <- app_assoc.
Qed.

Lemma split_nonempty sep s : split sep s ≠ [].
Proof.
  unfold split. by destruct (split_from_first sep [] s) as (a & b & rest & _ & ->).
Qed.

Lemma split_first_free sep s a rest :
  sep ≠ [] -> split sep s = a :: rest ->
  contains sep a = false ∧ ∃ b, s = a ++ b.
Proof.
  intros Hsep. unfold split. destruct (contains sep s) eqn:Hs.
  - assert (∀ cur, (∀ x y, reverse cur = x ++ y -> y ≠ [] ->
                           starts_with sep (y ++ s) = false) ->
              ∀ a rest, split_from sep 0 cur s = a :: rest ->
              contains sep a = false ∧ ∃ p b, a = reverse cur ++ p ∧ s = p ++ b)
      as Hgen.
    { clear Hs a rest. induction s as [|c s IH]; intros cur Hcur a rest.
      - cbn [split_from]. intros [= <- _]. split.
        + destruct (contains sep (reverse cur)) eqn:Hc; [|done].
          apply contains_inv in Hc as (x & y & Hxy).
          specialize (Hcur x (sep ++ y) Hxy).
          rewrite <- app_assoc, starts_with_app in Hcur.
          discriminate Hcur. by destruct sep.
        + exists [], []. by rewrite app_nil_r.
      - cbn [split_from]. destruct (starts_with sep (c :: s)) eqn:Hhere.
        + intros [= <- _]. split.
          * destruct (contains sep (reverse cur)) eqn:Hc; [|done].
            apply contains_inv in Hc as (x & y & Hxy).
            specialize (Hcur x (sep ++ y) Hxy).
            rewrite <- app_assoc, starts_with_app in Hcur.
            discriminate Hcur. by destruct sep.
          * exists [], (c :: s). by rewrite app_nil_r.
        + intros Hsplit. apply IH in Hsplit as (Hfree & p & b & -> & ->).
          * split; [done|]. exists (c :: p), b.
            by rewrite reverse_cons, <- app_assoc.
          * intros x y Hxy Hy. rewrite reverse_cons in Hxy.
            destruct (decide (y = [c])) as [->|Hne]; [done|].
            destruct y as [|d y _] using rev_ind; [done|].
            rewrite app_assoc in Hxy. apply app_inj_tail in Hxy as [Hxy ->].
            rewrite <- app_assoc. apply (Hcur x y Hxy). by intros ->. }
    intros Hsplit. apply Hgen in Hsplit as (Hfree & p & b & -> & ->).
    + split; [done|]. by exists b.
    + intros x y Hxy. by destruct x, y.
  - rewrite split_from_none by done. intros [= <- _]. split; [done|].
    exists []. by rewrite app_nil_r.
Qed.

(** The separator is in a string exactly when the string has more than
    one piece. *)
Lemma split_length sep s :
  sep ≠ [] ->
  if contains sep s then (2 <= length (split sep s))%nat
  else split sep s = [s].
Proof.
  intros Hsep. unfold split. destruct (contains sep s) eqn:Hs.
  - destruct (split_from_some sep [] s Hsep Hs) as (a & b & _ & ->).
    destruct (split_from_first sep [] b) as (a' & b' & rest & _ & ->).
    simpl. lia.
  - by rewrite split_from_none.
Qed.

(** Cutting at a character and joining again. *)
Lemma join_split_char c s cur :
  join [c] (split_from [c] 0 cur s) = reverse cur ++ s.
Proof.
  revert cur. induction s as [|x s IH]; intros cur; rewrite split_from_char.
  { cbn [join]. by rewrite app_nil_r. }
  destruct (N.eqb_spec c x) as [->|Hne].
  - destruct (split_char_head x s []) as (y & rest & Hsplit).
    specialize (IH []). rewrite Hsplit in IH |- *.
    change (join [x] (reverse cur :: (reverse [] ++ y) :: rest))
      with (reverse cur ++ [x] ++ join [x] ((reverse [] ++ y) :: rest)).
    by rewrite IH.
  - rewrite IH. by rewrite reverse_cons, <- app_assoc.
Qed.

End SplitFacts.

(** A string with one separating character has two pieces. *)
Lemma split_two_pieces c (a b : str) :
  c ∉ a -> c ∉ b -> split [c] (a ++ [c] ++ b) = [a; b].
Proof.
  intros Ha Hb. unfold split.
  assert (∀ cur s, c ∉ s -> split_from [c] 0 cur s = [reverse cur ++ s]) as Hnone.
  { intros cur s. revert cur. induction s as [|x s IH]; intros cur Hs;
      rewrite split_from_char; [by rewrite app_nil_r|].
    apply not_elem_of_cons in Hs as [Hx Hs].
    rewrite (proj2 (N.eqb_neq _ _) Hx), IH by done.
    by rewrite reverse_cons, <- app_assoc. }
  assert (∀ cur, split_from [c] 0 cur (a ++ [c] ++ b) = [reverse cur ++ a; b])
    as Hsome.
  { induction a as [|x a IH]; intros cur; rewrite split_from_char;
      cbn [app].
    - rewrite N.eqb_refl, Hnone by done. by rewrite app_nil_r.
    - apply not_elem_of_cons in Ha as [Hx Ha].
      rewrite (proj2 (N.eqb_neq _ _) Hx), IH by done.
      by rewrite reverse_cons, <- app_assoc. }
  apply Hsome.
Qed.

(** The address that [parse_repos] writes is read back by [split] as the
    text before the host and the slug. *)
Lemma split_written_url (s : str) :
  split (lit "github.com/") (lit "https://github.com/" ++ s)
  = lit "https://" :: split (lit "github.com/") s.
Proof. reflexivity. Qed.

(** * The claims *)

(** ** Slugs (C1, C2, C10) *)

(** C1, at the input [- [x](https://github.com/foo/bar?tab=x)]: the code
    cuts the path at the two characters slash and question mark, not at a
    question mark, so the query stays in the slug, which is
    [foo/bar?tab=x] and not [foo/bar].  A query that follows a slash, and
    a fragment, are removed. *)
Theorem slug_keeps_query :
  parse_repos Sample.query_bullet
  = Ok [mkRepoEntry (lit "x") (lit "foo/bar?tab=x")
          (lit "https://github.com/foo/bar?tab=x") [] [] None]
  ∧ parse_repos (lit "- [x](https://github.com/foo/bar/?tab=x)")
    = Ok [mkRepoEntry (lit "x") (lit "foo/bar")
            (lit "https://github.com/foo/bar") [] [] None]
  ∧ parse_repos (lit "- [x](https://github.com/foo/bar#readme)")
    = Ok [mkRepoEntry (lit "x") (lit "foo/bar")
            (lit "https://github.com/foo/bar") [] [] None].
Proof. by vm_compute. Qed.

(** C2 fails as stated: the bullet [- [x](https://github.com/foo//bar)]
    gives an entry whose slug is [foo/], with an empty second segment; the
    pattern of the specification does not match it. *)
Lemma slug_pattern_counterexample :
  ∃ e, parse_repos Sample.double_slash_bullet = Ok [e]
       ∧ slug e = lit "foo/"
       ∧ rmatch owner_repo_re (slug e) = None.
Proof. eexists. vm_compute. repeat split. Qed.

(** C2, amended: every slug that [parse_repos] returns consists of two
    segments separated by one slash; neither segment contains a slash and
    the first one is not empty, so the slug has no leading slash.  The
    second segment may be empty: the slug matches  ^ [^/]+ / [^/]* $. *)
Theorem slug_two_segments markdown es e :
  parse_repos markdown = Ok es -> e ∈ es ->
  (∃ owner repo, slug e = owner ++ lit "/" ++ repo
     ∧ (chr "/" ∉ owner) ∧ (chr "/" ∉ repo) ∧ owner ≠ [])
  ∧ is_Some (rmatch owner_rest_re (slug e)).
Proof.
  intros [Hshape _]%parse_repos_inv He.
  rewrite Forall_forall in Hshape. apply Hshape in He.
  split; [done|]. by rewrite slug_shape_matches.
Qed.

Lemma slug_two_segments_witness :
  ∃ e, parse_repos Sample.double_slash_bullet = Ok [e]
       ∧ is_Some (rmatch owner_rest_re (slug e)).
Proof.
  eexists. split; [vm_compute; reflexivity|].
  apply (slug_two_segments Sample.double_slash_bullet _ _ eq_refl).
  apply list_elem_of_singleton. reflexivity.
Defined.

Section SlugValidation.

Context `{PyLib} {World : Type}.
Variable urlopen : World -> Request -> reply * World.
Variable environ : list (str * str).

Lemma normalize_slug_shape s : slug_shape s -> normalize_slug s = Ok s.
Proof.
  intros Hs. unfold normalize_slug.
  rewrite (slug_shape_no_scheme _ Hs).
  change (lit "/") with [chr "/"].
  by rewrite count_char, (slug_shape_one_slash _ Hs).
Qed.

(** C10: a slug returned by [parse_repos] has exactly one slash;
    [normalize_slug] returns it unchanged, and [fetch_repo_stars] passes
    the validation and sends the request for that slug. *)
Theorem parsed_slug_is_valid markdown es e w token :
  parse_repos markdown = Ok es -> e ∈ es ->
  count (lit "/") (slug e) = 1%nat
  ∧ normalize_slug (slug e) = Ok (slug e)
  ∧ fetch_repo_stars urlopen environ w (slug e) token
    = let token := match token with
                   | Some t => Some t
                   | None => discover_token environ None
                   end in
      let '(r, w') :=
        _request_json urlopen w
          (lit "https://api.github.com/repos/" ++ slug e) token in
      match r with
      | Raise err => (Raise err, w')
      | Ok data =>
          (Ok (mkRepoStars (slug e) (default 0 (stargazers_count data))
                 (default (lit "https://github.com/" ++ slug e)
                    (html_url data))
                 (description data)), w')
      end.
Proof.
  intros [Hshape _]%parse_repos_inv He.
  rewrite Forall_forall in Hshape. apply Hshape in He.
  split; [|split].
  - change (lit "/") with [chr "/"].
    by rewrite count_char, slug_shape_one_slash.
  - by apply normalize_slug_shape.
  - unfold fetch_repo_stars. by rewrite normalize_slug_shape.
Qed.

End SlugValidation.

Lemma parsed_slug_is_valid_witness :
  parse_repos Sample.document = Ok [Sample.foo_bar]
  ∧ count (lit "/") (slug Sample.foo_bar) = 1%nat
  ∧ normalize_slug (slug Sample.foo_bar) = Ok (slug Sample.foo_bar).
Proof.
  split; [vm_compute; reflexivity|].
  destruct (parsed_slug_is_valid Sample.urlopen [] Sample.document
              [Sample.foo_bar] Sample.foo_bar tt None eq_refl)
    as (Hcount & Hnorm & _).
  - apply list_elem_of_singleton. reflexivity.
  - split; assumption.
Defined.

(** ** Deduplication (C7) *)

Lemma parse_line_seen st raw st0 e :
  parse_line (mkParser (headings st) [] ∅) raw = Ok st0 ->
  entries st0 = [e] -> is_Some (seen st !! slug e) ->
  parse_line st raw = Ok st.
Proof.
  unfold parse_line. cbn [headings entries seen].
  destruct (rmatch header_re (strip raw)) as [m|].
  { by intros [= <-]. }
  destruct (rmatch bullet_re (strip raw)) as [m|]; [|by intros [= <-]].
  destruct (bullet_slug (group 2 m)) as [[s|]|err]; cbn [mbind res_bind];
    [|by intros [= <-]|done].
  rewrite lookup_empty. intros [= <-]. cbn [entries app].
  intros [= <-]. cbn [slug]. by intros [? ->].
Qed.

(** C7: the slugs of the entries that [parse_repos] returns are pairwise
    distinct.  With [occ] the repository bullets of the document in
    document order, the result is a subsequence of [occ] and, for each
    occurrence, has exactly one entry with its slug: the first occurrence
    of that slug, with its name, category and note.  A later occurrence of
    a slug that was seen leaves the state of the loop, and so the kept
    entry, as it is. *)
Theorem first_occurrence_wins markdown es :
  parse_repos markdown = Ok es ->
  NoDup (slug <$> es)
  ∧ (∃ occ, bullets [] (splitlines markdown) = Ok occ
       ∧ es `sublist_of` occ
       ∧ ∀ c, c ∈ occ ->
           ∃ e, first_with_slug (slug c) occ = Some e
                ∧ filter (fun x => slug x = slug c) es = [e])
  ∧ (∀ st raw st0 e,
       parse_line (mkParser (headings st) [] ∅) raw = Ok st0 ->
       entries st0 = [e] -> is_Some (seen st !! slug e) ->
       parse_line st raw = Ok st).
Proof.
  intros (_ & occ & Hocc & ->)%parse_repos_inv.
  split; [apply first_occurrences_NoDup|].
  split; [|apply parse_line_seen].
  exists occ. split; [done|]. split; [apply first_occurrences_sublist|].
  intros c Hc. apply first_occurrences_first; [done|apply not_elem_of_nil].
Qed.

Lemma first_occurrence_wins_witness :
  parse_repos Sample.document = Ok [Sample.foo_bar]
  ∧ bullets [] (splitlines Sample.document)
    = Ok [Sample.foo_bar; Sample.foo_bar_again]
  ∧ NoDup (slug <$> [Sample.foo_bar]).
Proof.
  split; [vm_compute; reflexivity|].
  split; [vm_compute; reflexivity|].
  apply (first_occurrence_wins Sample.document [Sample.foo_bar] eq_refl).
Defined.

(** ** Headings and categories (C8) *)

(** The lines that the heading pattern accepts: one to six hashes, a
    whitespace character, and a rest without a newline. *)
Lemma header_match L w rest :
  (1 <= L <= 6)%nat -> isspace w = true ->
  Forall (fun c => dot c = true) rest ->
  rmatch header_re (replicate L (chr "#") ++ w :: rest)
  = Some [(2%nat, lstrip_by isspace rest); (1%nat, replicate L (chr "#"))].
Proof.
  intros HL Hw Hrest. unfold rmatch, header_re. cbn [exec Nat.eqb].
  destruct (lstrip_by_span isspace rest) as (ws & Hspan & Hws).
  pose proof (lstrip_by_head isspace rest) as Hhead.
  pose proof (Forall_lstrip_by _ isspace _ Hrest) as Hdots.
  remember (lstrip_by isspace rest) as t eqn:Ht. clear Ht. subst rest.
  apply many_all.
  { apply Forall_forall. intros c ->%elem_of_replicate_inv.
    unfold eqc. apply N.eqb_refl. }
  { rewrite length_replicate. lia. }
  { intros h [= <-]. rewrite length_replicate. lia. }
  { unfold eqc. apply N.eqb_neq. intros ->. done. }
  change (w :: ws ++ t) with ((w :: ws) ++ t).
  apply many_all.
  { by constructor. }
  { simpl. lia. }
  { done. }
  { done. }
  rewrite <- (app_nil_r t) at 1.
  apply many_all.
  { done. }
  { lia. }
  { done. }
  { done. }
  cbn [at_end]. f_equal. f_equal; f_equal.
  - apply take_ge. lia.
  - by rewrite Nat.add_0_l, Nat.sub_0_r, take_app_length.
Qed.

Lemma strip_lstrip s : strip (lstrip_by isspace s) = strip s.
Proof. unfold strip, strip_by. by rewrite lstrip_by_idemp. Qed.

Lemma current_category_join hs :
  _current_category hs = join (lit " / ") (drop 1 hs)
  ∧ ((length hs <= 1)%nat -> _current_category hs = []).
Proof.
  unfold _current_category.
  destruct hs as [|h [|h' hs]]; simpl; split; auto with lia.
Qed.

Lemma lstrip_by_app f a b :
  Forall (fun c => f c = true) a ->
  match b with c :: _ => f c = false | [] => True end ->
  lstrip_by f (a ++ b) = b.
Proof.
  intros Ha Hb. induction Ha as [|x a Hx Ha IH]; simpl.
  - destruct b as [|c b]; simpl; [done|]. by rewrite Hb.
  - by rewrite Hx.
Qed.

Lemma hashes_replicate a :
  Forall (fun c => eqc "#" c = true) a -> a = replicate (length a) (chr "#").
Proof.
  induction 1 as [|x a Hx Ha IH]; [done|]. cbn [length replicate].
  unfold eqc in Hx. apply N.eqb_eq in Hx as ->. by f_equal.
Qed.

Lemma space_no_hash w : isspace w = true -> eqc "#" w = false.
Proof.
  intros Hw. unfold eqc. apply N.eqb_neq. intros ->. done.
Qed.

(** The heading pattern accepts a line without a newline exactly when the
    line is one to six hashes, a whitespace character and a rest; the
    level is the number of hashes and the title the rest, stripped. *)
Lemma header_spec line :
  0xa%N ∉ line ->
  match heading_of line with
  | Some (level, title) =>
      ∃ m, rmatch header_re line = Some m
           ∧ length (group 1 m) = level ∧ strip (group 2 m) = title
  | None => rmatch header_re line = None
  end.
Proof.
  intros Hline. unfold heading_of.
  destruct (lstrip_by_span (eqc "#") line) as (a & Hspan & Ha).
  pose proof (lstrip_by_head (eqc "#") line) as Hhead.
  remember (lstrip_by (eqc "#") line) as t eqn:Ht.
  assert (length line - length t = length a)%nat as ->.
  { rewrite Hspan at 1. rewrite length_app. lia. }
  destruct t as [|w title].
  { destruct (rmatch header_re line) as [m|] eqn:Hm; [|done]. exfalso.
    revert Hm. unfold rmatch, header_re. cbn [exec Nat.eqb].
    intros (n1 & Hn1 & _ & _ & Hk)%many_inv.
    apply many_inv in Hk as (n2 & Hn2 & _ & Hall & _).
    rewrite app_nil_r in Hspan. subst a.
    destruct (drop n1 line) as [|c rest] eqn:Hdrop; [simpl in Hn2; lia|].
    destruct n2 as [|n2]; [lia|]. cbn [take] in Hall.
    apply Forall_cons in Hall as [Hc _].
    assert (c ∈ line) as Hin.
    { rewrite <- (take_drop n1 line), Hdrop, elem_of_app, elem_of_cons. auto. }
    rewrite Forall_forall in Ha. apply Ha in Hin.
    by rewrite (space_no_hash c Hc) in Hin. }
  destruct ((1 <=? length a)%nat && (length a <=? 6)%nat && isspace w) eqn:Hok.
  - apply andb_true_iff in Hok as [Hlen Hw].
    apply andb_true_iff in Hlen as [H1%Nat.leb_le H6%Nat.leb_le].
    exists [(2%nat, lstrip_by isspace title);
            (1%nat, replicate (length a) (chr "#"))].
    cbn [group Nat.eqb]. rewrite length_replicate, strip_lstrip.
    split; [|done]. rewrite Hspan at 1. rewrite (hashes_replicate a Ha) at 1.
    apply header_match; [lia|done|].
    apply Forall_forall. intros c Hc. unfold dot.
    apply negb_true_iff, N.eqb_neq. intros ->. apply Hline.
    rewrite Hspan, elem_of_app, elem_of_cons. auto.
  - destruct (rmatch header_re line) as [m|] eqn:Hm; [|done]. exfalso.
    revert Hm. unfold rmatch, header_re. cbn [exec Nat.eqb].
    intros (n1 & Hn1 & Hhi & Hall1 & Hk)%many_inv.
    specialize (Hhi _ eq_refl).
    apply many_inv in Hk as (n2 & Hn2 & _ & Hall2 & _).
    destruct (drop n1 line) as [|c rest] eqn:Hdrop; [simpl in Hn2; lia|].
    destruct n2 as [|n2]; [lia|]. cbn [take] in Hall2.
    apply Forall_cons in Hall2 as [Hc _].
    assert (lstrip_by (eqc "#") line = c :: rest) as Hstrip.
    { rewrite <- (take_drop n1 line), Hdrop.
      apply lstrip_by_app; [done|by apply space_no_hash]. }
    rewrite <- Ht in Hstrip. injection Hstrip as <- <-.
    assert (length a = n1) as Hlen.
    { apply (f_equal length) in Hspan.
      rewrite <- (take_drop n1 line) in Hspan at 1.
      rewrite Hdrop, !length_app, length_take in Hspan. simpl in Hspan. lia. }
    rewrite Hc, andb_true_r in Hok.
    apply andb_false_iff in Hok as [Hok|Hok];
      [apply Nat.leb_gt in Hok|apply Nat.leb_gt in Hok]; lia.
Qed.

Lemma parse_lines_app st a b :
  parse_lines st (a ++ b) = st' ← parse_lines st a; parse_lines st' b.
Proof.
  revert st. induction a as [|raw a IH]; intros st; [done|].
  cbn [app parse_lines]. destruct (parse_line st raw) as [st1|e]; [|done].
  cbn [mbind res_bind]. apply IH.
Qed.

Lemma open_headings_snoc pre raw :
  open_headings (pre ++ [raw]) = heading_step (open_headings pre) raw.
Proof. unfold open_headings. by rewrite foldl_app. Qed.

Lemma heading_of_level line level title :
  heading_of line = Some (level, title) -> (1 <= level <= 6)%nat.
Proof.
  unfold heading_of. destruct (lstrip_by _ line) as [|w rest]; [done|].
  destruct (_ && _ && isspace w) eqn:Hok; [|done]. intros [= <- _].
  apply andb_true_iff in Hok as [Hok _].
  apply andb_true_iff in Hok as [H1%Nat.leb_le H6%Nat.leb_le].
  cbn [length] in *. lia.
Qed.

(** What a line does to the stack is what the specification says of it. *)
Lemma parse_line_heading_step st raw st' :
  0xa%N ∉ raw -> parse_line st raw = Ok st' ->
  headings st' = heading_step (headings st) raw.
Proof.
  intros Hraw. unfold parse_line, heading_step.
  assert (0xa%N ∉ strip raw) as Hline.
  { intros Hin. by apply (strip_by_elem isspace) in Hin. }
  pose proof (header_spec (strip raw) Hline) as Hspec.
  destruct (heading_of (strip raw)) as [[level title]|].
  - destruct Hspec as (m & -> & <- & <-). by intros [= <-].
  - rewrite Hspec. destruct (rmatch bullet_re _) as [m|]; [|by intros [= <-]].
    destruct (bullet_slug _) as [[s|]|e]; cbn [mbind res_bind];
      [|by intros [= <-]|done].
    destruct (seen st !! s); by intros [= <-].
Qed.

(** What a line does to the entries. *)
Lemma parse_line_entries st raw st' :
  parse_line st raw = Ok st' ->
  match line_slug raw with
  | None => entries st' = entries st
  | Some s =>
      match seen st !! s with
      | Some _ => entries st' = entries st
      | None =>
          ∃ e, slug e = s ∧ category e = _current_category (headings st)
               ∧ entries st' = entries st ++ [e]
      end
  end.
Proof.
  unfold parse_line, line_slug.
  destruct (rmatch header_re _) as [m|]; [by intros [= <-]|].
  destruct (rmatch bullet_re _) as [m|]; [|by intros [= <-]].
  destruct (bullet_slug _) as [[s|]|e]; cbn [mbind res_bind];
    [|by intros [= <-]|done].
  destruct (seen st !! s); intros [= <-]; [done|].
  by exists (new_entry st m s).
Qed.

(** The state of the loop after the lines [pre] of a document: the stack
    has the open headings, and the entries are the first bullets of their
    slugs, each with the category of the headings that were open at its
    line. *)
Lemma parse_lines_scan pre st :
  Forall (fun raw => 0xa%N ∉ raw) pre ->
  parse_lines (mkParser [] [] ∅) pre = Ok st ->
  headings st = open_headings pre
  ∧ parser_inv st
  ∧ (∀ e, e ∈ entries st ->
       ∃ a raw b, pre = a ++ raw :: b ∧ line_slug raw = Some (slug e)
         ∧ Forall (fun r => line_slug r ≠ Some (slug e)) a
         ∧ category e = _current_category (open_headings a))
  ∧ (∀ raw s, raw ∈ pre -> line_slug raw = Some s -> s ∈ slug <$> entries st).
Proof.
  revert st. induction pre as [|raw pre IH] using rev_ind; intros st Hlines.
  { intros [= <-]. split; [done|]. split; [apply parser_inv_init|].
    split; [by intros e Hin%elem_of_nil|by intros raw s Hin%elem_of_nil]. }
  apply Forall_app in Hlines as [Hpre Hraw].
  apply Forall_cons in Hraw as [Hraw _].
  rewrite parse_lines_app.
  destruct (parse_lines _ pre) as [st1|] eqn:Hst1; [|done].
  cbn [mbind res_bind parse_lines].
  destruct (parse_line st1 raw) as [st2|] eqn:Hline; [|done].
  cbn [mbind res_bind]. intros [= <-].
  destruct (IH st1 Hpre eq_refl) as (Hstack & Hinv & Horigin & Hall).
  assert (parser_inv st2) as Hinv2.
  { eapply line_step_inv; [by apply parse_line_inv|done]. }
  pose proof (parse_line_entries _ _ _ Hline) as Hentries.
  split; [|split; [done|split]].
  - rewrite open_headings_snoc, <- Hstack. by apply parse_line_heading_step.
  - assert (Hold : ∀ e, e ∈ entries st1 ->
              ∃ a raw0 b, pre ++ [raw] = a ++ raw0 :: b
                ∧ line_slug raw0 = Some (slug e)
                ∧ Forall (fun r => line_slug r ≠ Some (slug e)) a
                ∧ category e = _current_category (open_headings a)).
    { intros e (a & raw0 & b & -> & Hslug & Hfirst & Hcat)%Horigin.
      exists a, raw0, (b ++ [raw]). by rewrite <- app_assoc. }
    destruct (line_slug raw) as [s|] eqn:Hs; [|by rewrite Hentries].
    destruct (seen st1 !! s) eqn:Hseen; [by rewrite Hentries|].
    destruct Hentries as (e & Hslug & Hcat & ->).
    intros e' [He'|He']%elem_of_app; [by apply Hold|].
    apply list_elem_of_singleton in He' as ->.
    exists pre, raw, []. split; [done|]. rewrite Hslug. split; [done|].
    split; [|by rewrite Hcat, Hstack].
    apply Forall_forall. intros r Hr Hrs.
    apply (Hall _ _ Hr), (inv_seen _ Hinv) in Hrs.
    rewrite Hseen in Hrs. by destruct Hrs.
  - intros raw0 s [Hin|Hin]%elem_of_app Hs;
      [|apply list_elem_of_singleton in Hin as ->].
    + assert (s ∈ slug <$> entries st1) as Hin1 by by eapply Hall.
      revert Hentries. destruct (line_slug raw) as [s'|].
      * destruct (seen st1 !! s'); [by intros ->|].
        intros (e & _ & _ & ->). rewrite fmap_app, elem_of_app. by left.
      * by intros ->.
    + rewrite Hs in Hentries. destruct (seen st1 !! s) eqn:Hseen.
      * rewrite Hentries. apply (inv_seen _ Hinv). by rewrite Hseen.
      * destruct Hentries as (e & <- & _ & ->).
        rewrite fmap_app, elem_of_app. right. by apply list_elem_of_singleton.
Qed.

Lemma first_unique {A} (P : A -> Prop) a x b a' x' b' :
  a ++ x :: b = a' ++ x' :: b' ->
  Forall (fun r => ¬ P r) a -> P x -> Forall (fun r => ¬ P r) a' -> P x' ->
  a = a'.
Proof.
  revert a'. induction a as [|y a IH]; intros [|y' a'] Heq Ha Hx Ha' Hx'.
  - done.
  - injection Heq as -> _. by apply Forall_cons in Ha' as [? _].
  - injection Heq as <- _. by apply Forall_cons in Ha as [? _].
  - injection Heq as -> Heq. apply Forall_cons in Ha as [_ Ha].
    apply Forall_cons in Ha' as [_ Ha']. f_equal. by eapply IH.
Qed.

(** A repetition with the bounds 1 and 1 takes one character. *)
Lemma many_one {A} cls pos c b (k : nat -> str -> option A) :
  cls c = true -> many cls 1 (Some 1%nat) pos (c :: b) k = k (S pos) b.
Proof.
  intros Hc. cbn [many]. rewrite Hc. cbn [andb at_most Nat.pred fmap option_fmap option_map].
  destruct b as [|c' b]; cbn [many at_most]; rewrite ?andb_false_r;
    by destruct (k (S pos) _).
Qed.

Lemma bullet_match_parts name path tail :
  name ≠ [] -> chr "]" ∉ name -> path ≠ [] -> chr ")" ∉ path ->
  0xa%N ∉ tail ->
  rmatch bullet_re
    ([chr "-"] ++ [chr " "] ++ lit "[" ++ name ++ lit "]" ++ lit "("
     ++ lit "http" ++ [chr "s"] ++ lit "://github" ++ [chr "."]
     ++ lit "com/" ++ path ++ lit ")" ++ tail)
  = Some [(3%nat, lstrip_by isspace tail);
          (2%nat, lit "https://github.com/" ++ path); (1%nat, name)].
Proof.
  intros Hname Hbracket Hpath Hparen Htail.
  destruct (lstrip_by_span isspace tail) as (ws & Hspan & Hws).
  pose proof (lstrip_by_head isspace tail) as Hhead.
  assert (Forall (fun c => dot c = true) (lstrip_by isspace tail)) as Hdots.
  { apply Forall_forall. intros c Hc%lstrip_by_elem. unfold dot.
    apply negb_true_iff, N.eqb_neq. by intros ->. }
  remember (lstrip_by isspace tail) as t eqn:Ht. clear Ht. subst tail.
  unfold rmatch, bullet_re, plus, star, opt, one.
  cbn [exec Nat.eqb].
  apply many_all; [by repeat constructor|simpl; lia|done|done|].
  apply many_all; [by repeat constructor|simpl; lia|done|done|].
  rewrite starts_with_app, drop_app_length.
  apply many_all.
  { apply Forall_forall. intros c Hc. unfold nec.
    apply negb_true_iff, N.eqb_neq. by intros ->. }
  { destruct name; [done|simpl; lia]. }
  { done. }
  { done. }
  rewrite starts_with_app, drop_app_length.
  rewrite starts_with_app, drop_app_length.
  rewrite starts_with_app, drop_app_length.
  apply many_all; [by repeat constructor|simpl; lia| |done|].
  { by intros h [= <-]. }
  rewrite starts_with_app, drop_app_length.
  change ([chr "."] ++ lit "com/" ++ path ++ lit ")" ++ ws ++ t)
    with (chr "." :: (lit "com/" ++ path ++ lit ")" ++ ws ++ t)).
  rewrite many_one by done.
  rewrite starts_with_app, drop_app_length.
  apply many_all.
  { apply Forall_forall. intros c Hc. unfold nec.
    apply negb_true_iff, N.eqb_neq. by intros ->. }
  { destruct path; [done|simpl; lia]. }
  { done. }
  { done. }
  rewrite starts_with_app, drop_app_length.
  apply many_all; [done|lia|done| |].
  { destruct t as [|c t]; [done|]. exact Hhead. }
  rewrite <- (app_nil_r t) at 1.
  apply many_all; [done|lia|done|done|].
  cbn [at_end]. f_equal. f_equal; [|f_equal; [|f_equal]]; f_equal.
  - apply take_ge. lia.
  - change (lit "http" ++ [chr "s"] ++ lit "://github" ++ chr "."
            :: lit "com/" ++ path ++ lit ")" ++ ws ++ t)
      with ((lit "https://github.com/" ++ path) ++ lit ")" ++ ws ++ t).
    apply take_app_length'. rewrite length_app. simpl. lia.
  - apply take_app_length'. simpl. lia.
Qed.

(** The lines that the bullet pattern accepts, in the usual form of a
    bullet: a hyphen, a space, a name in brackets and the address of a
    repository in parentheses, then any text. *)
Lemma bullet_match name path tail :
  name ≠ [] -> chr "]" ∉ name -> path ≠ [] -> chr ")" ∉ path ->
  0xa%N ∉ tail ->
  rmatch bullet_re
    (lit "- [" ++ name ++ lit "](https://github.com/" ++ path ++ lit ")"
     ++ tail)
  = Some [(3%nat, lstrip_by isspace tail);
          (2%nat, lit "https://github.com/" ++ path); (1%nat, name)].
Proof. apply bullet_match_parts. Qed.

Lemma contains_char_free sep s c :
  c ∈ sep -> c ∉ s -> contains sep s = false.
Proof.
  intros Hsep Hs. destruct (contains sep s) eqn:Hc; [|done].
  apply contains_inv in Hc as (a & b & ->). exfalso. apply Hs.
  rewrite !elem_of_app. auto.
Qed.

Lemma plain_segment_chars s c :
  plain_segment s = true -> c ∈ lit "/)?#" -> s ≠ [] ∧ c ∉ s.
Proof.
  unfold plain_segment. intros [Hne Hall]%andb_true_iff Hc.
  split; [by destruct s|].
  rewrite forallb_forall in Hall. intros Hin.
  apply list_elem_of_In, Hall, negb_true_iff in Hin.
  unfold char_in in Hin.
  assert (existsb (N.eqb c) (lit "/)?#") = true) as Hex; [|congruence].
  apply existsb_exists. exists c. split; [by apply list_elem_of_In|].
  apply N.eqb_refl.
Qed.

(** The slug of the address of a repository whose two segments are
    plain. *)
Lemma bullet_slug_written owner repo :
  plain_segment owner = true -> plain_segment repo = true ->
  contains (lit "github.com/") (owner ++ lit "/" ++ repo) = false ->
  bullet_slug (lit "https://github.com/" ++ owner ++ lit "/" ++ repo)
  = Ok (Some (owner ++ lit "/" ++ repo)).
Proof.
  intros Howner Hrepo Hhost.
  assert (∀ c, c ∈ lit "/)?#" -> c ∉ owner ++ lit "/" ++ repo ∨ c = chr "/")
    as Hchars.
  { intros c Hc. destruct (decide (c = chr "/")) as [->|Hne]; [by right|].
    left. change (lit "/") with [chr "/"].
    rewrite !elem_of_app, list_elem_of_singleton.
    destruct (plain_segment_chars _ c Howner Hc) as [_ Ho].
    destruct (plain_segment_chars _ c Hrepo Hc) as [_ Hr]. tauto. }
  assert (chr "/" ∈ lit "/)?#") as Hslash by (apply (bool_decide_unpack _); by vm_compute).
  destruct (plain_segment_chars _ _ Howner Hslash) as [Hone Ho].
  destruct (plain_segment_chars _ _ Hrepo Hslash) as [Hrne Hr].
  set (s := owner ++ lit "/" ++ repo) in *.
  assert (contains (lit "/?") s = false) as Hquery.
  { apply (contains_char_free _ _ (chr "?")).
    - apply (bool_decide_unpack _). by vm_compute.
    - destruct (Hchars (chr "?")) as [?|?]; [|done|done].
      apply (bool_decide_unpack _). by vm_compute. }
  assert (contains (lit "#") s = false) as Hfragment.
  { apply (contains_char_free _ _ (chr "#")).
    - apply (bool_decide_unpack _). by vm_compute.
    - destruct (Hchars (chr "#")) as [?|?]; [|done|done].
      apply (bool_decide_unpack _). by vm_compute. }
  unfold bullet_slug. rewrite split_written_url.
  pose proof (split_length (lit "github.com/") s ltac:(done)) as H1.
  pose proof (split_length (lit "/?") s ltac:(done)) as H2.
  pose proof (split_length (lit "#") s ltac:(done)) as H3.
  rewrite Hhost in H1. rewrite Hquery in H2. rewrite Hfragment in H3.
  rewrite H1. cbn [index lookup list_lookup mbind res_bind].
  rewrite H2. cbn [index lookup list_lookup mbind res_bind].
  rewrite H3. cbn [index lookup list_lookup mbind res_bind].
  assert (strip_chars (lit "/") s = s) as ->.
  { apply strip_by_id.
    - subst s. destruct owner as [|c owner]; [done|]. cbn [app].
      apply not_elem_of_cons in Ho as [Hc _]. unfold char_in. cbn [lit existsb
        list_ascii_of_string List.map]. rewrite orb_false_r.
      apply N.eqb_neq. by intros ->.
    - subst s. rewrite app_assoc, last_app.
      destruct (last repo) as [c|] eqn:Hlast; [|by apply last_None in Hlast].
      apply last_Some in Hlast as [l' ->].
      unfold char_in. cbn [lit existsb list_ascii_of_string List.map].
      rewrite orb_false_r. apply N.eqb_neq. intros ->. apply Hr.
      rewrite elem_of_app, list_elem_of_singleton. auto. }
  subst s. change (lit "/") with [chr "/"].
  rewrite split_two_pieces by done. reflexivity.
Qed.

Lemma line_slug_bullet raw name owner repo tail :
  0xa%N ∉ raw ->
  strip raw = lit "- [" ++ name ++ lit "](https://github.com/" ++ owner
              ++ lit "/" ++ repo ++ lit ")" ++ tail ->
  name ≠ [] -> chr "]" ∉ name ->
  plain_segment owner = true -> plain_segment repo = true ->
  contains (lit "github.com/") (owner ++ lit "/" ++ repo) = false ->
  line_slug raw = Some (owner ++ lit "/" ++ repo).
Proof.
  intros Hraw Hline Hname Hbracket Howner Hrepo Hhost.
  assert (chr ")" ∈ lit "/)?#") as Hparen by (apply (bool_decide_unpack _); by vm_compute).
  destruct (plain_segment_chars _ _ Howner Hparen) as [Hone Ho].
  destruct (plain_segment_chars _ _ Hrepo Hparen) as [Hrne Hr].
  unfold line_slug. rewrite Hline.
  assert (rmatch header_re
            (lit "- [" ++ name ++ lit "](https://github.com/" ++ owner
             ++ lit "/" ++ repo ++ lit ")" ++ tail) = None) as ->.
  { reflexivity. }
  rewrite (app_assoc owner), (app_assoc (owner ++ lit "/")).
  rewrite <- (app_assoc owner).
  rewrite bullet_match; [|done|done| | |].
  - cbn [group Nat.eqb]. by rewrite bullet_slug_written.
  - by destruct owner.
  - change (lit "/") with [chr "/"].
    rewrite !elem_of_app, list_elem_of_singleton.
    intros [?|[?|?]]; done.
  - intros Hin. apply Hraw, (strip_by_elem isspace). fold (strip raw).
    rewrite Hline, !elem_of_app. auto 10.
Qed.

(** C8: while [parse_repos] scans the lines of a document, the state of
    the loop before each line has for stack the headings that are open
    after the lines before it, and a heading line of level [level] (one
    to six hashes, whitespace, a title) leaves the first [level - 1]
    entries of the stack and pushes the title; another line leaves the
    stack as it is.  Every entry of the result comes from the first
    bullet line of its slug, and its category is the headings that are
    open before that line, the first one left out, joined with [ / ]:
    the empty string when at most one heading is open.  Every first
    bullet line of a slug gives such an entry, and a line that is a
    hyphen, a space, a name in brackets, the address
    https://github.com/OWNER/REPO in parentheses and any text is a bullet
    line of the slug OWNER/REPO when the two segments are plain. *)
Theorem heading_stack_and_category markdown es :
  parse_repos markdown = Ok es ->
  (∀ pre raw post, splitlines markdown = pre ++ raw :: post ->
     ∃ st st', parse_lines (mkParser [] [] ∅) pre = Ok st
       ∧ parse_line st raw = Ok st'
       ∧ headings st = open_headings pre
       ∧ headings st' = open_headings (pre ++ [raw])
       ∧ match heading_of (strip raw) with
         | Some (level, title) =>
             (1 <= level <= 6)%nat
             ∧ headings st' = take (level - 1) (headings st) ++ [title]
         | None => headings st' = headings st
         end)
  ∧ (∀ e, e ∈ es ->
       ∃ pre raw post, splitlines markdown = pre ++ raw :: post
         ∧ line_slug raw = Some (slug e)
         ∧ Forall (fun r => line_slug r ≠ Some (slug e)) pre
         ∧ category e = join (lit " / ") (drop 1 (open_headings pre))
         ∧ ((length (open_headings pre) <= 1)%nat -> category e = []))
  ∧ (∀ pre raw post s, splitlines markdown = pre ++ raw :: post ->
       line_slug raw = Some s ->
       Forall (fun r => line_slug r ≠ Some s) pre ->
       ∃ e, e ∈ es ∧ slug e = s
            ∧ category e = join (lit " / ") (drop 1 (open_headings pre))
            ∧ ((length (open_headings pre) <= 1)%nat -> category e = []))
  ∧ (∀ raw name owner repo tail,
       raw ∈ splitlines markdown ->
       strip raw = lit "- [" ++ name ++ lit "](https://github.com/" ++ owner
                   ++ lit "/" ++ repo ++ lit ")" ++ tail ->
       name ≠ [] -> chr "]" ∉ name ->
       plain_segment owner = true -> plain_segment repo = true ->
       contains (lit "github.com/") (owner ++ lit "/" ++ repo) = false ->
       line_slug raw = Some (owner ++ lit "/" ++ repo)).
Proof.
  unfold parse_repos.
  destruct (parse_lines _ _) as [final|] eqn:Hfinal; [|done].
  cbn [mbind res_bind]. intros [= <-].
  assert (Forall (fun raw => 0xa%N ∉ raw) (splitlines markdown)) as Hlines.
  { apply Forall_forall. intros raw. apply splitlines_newline. }
  destruct (parse_lines_scan _ _ Hlines Hfinal) as (_ & _ & Horigin & Hall).
  assert (Hentry : ∀ e, e ∈ entries final ->
            ∃ pre raw post, splitlines markdown = pre ++ raw :: post
              ∧ line_slug raw = Some (slug e)
              ∧ Forall (fun r => line_slug r ≠ Some (slug e)) pre
              ∧ category e = join (lit " / ") (drop 1 (open_headings pre))
              ∧ ((length (open_headings pre) <= 1)%nat -> category e = [])).
  { intros e (a & raw & b & Heq & Hslug & Hfirst & Hcat)%Horigin.
    exists a, raw, b. rewrite Hcat. repeat split; try done;
      apply current_category_join. }
  split; [|split; [done|split]].
  3: { intros raw name owner repo tail Hraw. apply line_slug_bullet.
       by eapply splitlines_newline. }
  - intros pre raw post Heq. rewrite Heq in Hfinal, Hlines.
    rewrite parse_lines_app in Hfinal.
    destruct (parse_lines _ pre) as [st|] eqn:Hst; [|done].
    cbn [mbind res_bind parse_lines] in Hfinal.
    destruct (parse_line st raw) as [st'|] eqn:Hline; [|done].
    exists st, st'. split; [done|]. split; [done|].
    apply Forall_app in Hlines as [Hpre Hraw].
    apply Forall_cons in Hraw as [Hraw _].
    destruct (parse_lines_scan _ _ Hpre Hst) as (Hstack & _).
    pose proof (parse_line_heading_step _ _ _ Hraw Hline) as Hstep.
    split; [done|]. split; [by rewrite open_headings_snoc, <- Hstack|].
    rewrite Hstep. unfold heading_step.
    destruct (heading_of (strip raw)) as [[level title]|] eqn:Hh; [|done].
    split; [by eapply heading_of_level|done].
  - intros pre raw post s Heq Hs Hfirst.
    assert (s ∈ slug <$> entries final) as (e & Hse & He)%list_elem_of_fmap.
    { apply (Hall raw); [|done]. rewrite Heq, elem_of_app, elem_of_cons. auto. }
    subst s. exists e. split; [done|]. split; [done|].
    destruct (Hentry e He) as (pre' & raw' & post' & Heq' & Hs' & Hfirst' & Hcat).
    assert (pre' = pre) as ->; [|done].
    rewrite Heq in Heq'. symmetry.
    apply (first_unique (fun r => line_slug r = Some (slug e))
             _ _ _ _ _ _ Heq'); done.
Qed.

Lemma heading_stack_and_category_witness :
  parse_repos Sample.document = Ok [Sample.foo_bar]
  ∧ open_headings [lit "# Awesome"; lit "## DBs"] = [lit "Awesome"; lit "DBs"]
  ∧ ∃ e, e ∈ [Sample.foo_bar] ∧ slug e = lit "foo/bar"
         ∧ category e = lit "DBs".
Proof.
  split; [vm_compute; reflexivity|]. split; [vm_compute; reflexivity|].
  destruct (heading_stack_and_category Sample.document [Sample.foo_bar])
    as (_ & _ & Hbullet & Hline); [vm_compute; reflexivity|].
  destruct (Hbullet [lit "# Awesome"; lit "## DBs"]
              (lit "- [foo/bar](https://github.com/foo/bar) - a database")
              [lit "- [foo/bar](https://github.com/foo/bar/issues) dup"]
              (lit "foo/bar"))
    as (e & He & Hslug & Hcat & _).
  - vm_compute. reflexivity.
  - apply (Hline _ (lit "foo/bar") (lit "foo") (lit "bar")
             (lit " - a database")).
    + apply list_elem_of_In. vm_compute. auto.
    + reflexivity.
    + discriminate.
    + apply (bool_decide_unpack _). by vm_compute.
    + reflexivity.
    + reflexivity.
    + reflexivity.
  - repeat constructor; vm_compute; discriminate.
  - exists e. split; [done|]. split; [done|]. rewrite Hcat.
    vm_compute. reflexivity.
Defined.

(** ** Floating point *)

Module FloatFacts.

Import Float.

Lemma rne_div_bounds x y :
  0 < y -> 2 * x - y <= 2 * (rne_div x y * y) <= 2 * x + y.
Proof.
  intros Hy. unfold rne_div.
  pose proof (Z.div_mod x y ltac:(lia)) as Hdm.
  pose proof (Z.mod_pos_bound x y Hy) as Hr.
  set (q := x / y) in *. set (r := x mod y) in *.
  destruct (Z.ltb_spec (2 * r) y); [nia|].
  destruct (Z.ltb_spec y (2 * r)); [nia|].
  destruct (Z.even q); nia.
Qed.

Lemma scaled_pos n b e :
  0 < n -> 0 < b -> 0 < fst (scaled n b e) ∧ 0 < snd (scaled n b e).
Proof.
  intros Hn Hb. unfold scaled. destruct (Z.leb_spec 0 e); simpl.
  - pose proof (Z.pow_pos_nonneg 2 e). nia.
  - pose proof (Z.pow_pos_nonneg 2 (- e)). nia.
Qed.

Lemma scaled_succ n b e :
  fst (scaled n b e) * snd (scaled n b (e + 1))
  = 2 * fst (scaled n b (e + 1)) * snd (scaled n b e).
Proof.
  unfold scaled.
  destruct (Z.leb_spec 0 e), (Z.leb_spec 0 (e + 1)); simpl; try lia.
  - rewrite Z.pow_add_r by lia. change (2 ^ 1) with 2. ring.
  - assert (e = -1) as -> by lia.
    change (2 ^ (- -1)) with 2. change (2 ^ (-1 + 1)) with 1. ring.
  - replace (- e) with (- (e + 1) + 1) by lia.
    rewrite Z.pow_add_r by lia. change (2 ^ 1) with 2. ring.
Qed.

Lemma scaled_first n b :
  0 < n -> 0 < b ->
  let e0 := Z.log2 n - Z.log2 b - 53 in
  2 ^ 52 * snd (scaled n b e0) <= fst (scaled n b e0)
  ∧ fst (scaled n b e0) < 2 ^ 54 * snd (scaled n b e0).
Proof.
  intros Hn Hb e0.
  pose proof (Z.log2_spec n Hn) as Hln. pose proof (Z.log2_spec b Hb) as Hlb.
  pose proof (Z.log2_nonneg n) as Hln0. pose proof (Z.log2_nonneg b) as Hlb0.
  rewrite !Z.pow_succ_r in Hln, Hlb by done.
  unfold scaled. destruct (Z.leb_spec 0 e0) as [He|He]; simpl.
  - assert (2 ^ Z.log2 n = 2 ^ 53 * (2 ^ Z.log2 b * 2 ^ e0)) as Hpow.
    { rewrite <- !Z.pow_add_r by lia. f_equal. lia. }
    pose proof (Z.pow_pos_nonneg 2 e0 ltac:(lia) He) as Hpos.
    set (A := 2 ^ Z.log2 b) in *. set (E := 2 ^ e0) in *.
    assert (A * E <= b * E < 2 * (A * E)) by nia. lia.
  - assert (2 ^ Z.log2 n * 2 ^ (- e0) = 2 ^ 53 * 2 ^ Z.log2 b) as Hpow.
    { rewrite <- !Z.pow_add_r by lia. f_equal. lia. }
    pose proof (Z.pow_pos_nonneg 2 (- e0) ltac:(lia) ltac:(lia)) as Hpos.
    set (A := 2 ^ Z.log2 b) in *. set (E := 2 ^ (- e0)) in *.
    set (L := 2 ^ Z.log2 n) in *.
    assert (L * E <= n * E < 2 * (L * E)) by nia. lia.
Qed.

Lemma truediv_normal a b :
  0 < a -> 0 < b ->
  ∃ e, normal a b e
    ∧ truediv a b =
      let m := rne_div (fst (scaled a b e)) (snd (scaled a b e)) in
      if (0 <=? e) && (2 ^ 1024 <=? m * 2 ^ e) then Raise OverflowError
      else Ok (mkFloat m e).
Proof.
  intros Ha Hb. unfold truediv.
  rewrite (proj2 (Z.eqb_neq a 0)) by lia.
  rewrite Z.abs_eq, (Z.sgn_pos a) by lia.
  set (e0 := Z.log2 a - Z.log2 b - 53).
  destruct (scaled_first a b Ha Hb) as [Hlo Hhi]. fold e0 in Hlo, Hhi.
  destruct (scaled_pos a b e0 Ha Hb) as [Hx0 Hy0].
  destruct (scaled_pos a b (e0 + 1) Ha Hb) as [Hx1 Hy1].
  pose proof (scaled_succ a b e0) as Hsucc.
  destruct (scaled a b e0) as [x0 y0] eqn:Hs0. simpl in *.
  destruct (Z.ltb_spec (x0 / y0) (2 ^ 53)) as [Hq|Hq].
  - exists e0. rewrite Hs0. simpl. split.
    + unfold normal. rewrite Hs0. simpl. split; [done|]. split; [done|].
      pose proof (Z.div_mod x0 y0 ltac:(lia)).
      pose proof (Z.mod_pos_bound x0 y0 Hy0). nia.
    + by rewrite Z.mul_1_l.
  - exists (e0 + 1). destruct (scaled a b (e0 + 1)) as [x1 y1] eqn:Hs1.
    simpl in *. split.
    + unfold normal. rewrite Hs1. simpl.
      assert (2 ^ 53 * y0 <= x0).
      { pose proof (Z.div_mod x0 y0 ltac:(lia)).
        pose proof (Z.mod_pos_bound x0 y0 Hy0). nia. }
      split; [done|]. split; nia.
    + by rewrite Z.mul_1_l.
Qed.

Lemma pow2_gt a k : 0 <= a -> 0 <= k -> 2 ^ k < 2 ^ a -> 2 * 2 ^ k <= 2 ^ a.
Proof.
  intros Ha Hk Hlt. apply Z.pow_lt_mono_r_iff in Hlt; [|lia|lia].
  rewrite <- Z.pow_succ_r by done. apply Z.pow_le_mono_r; lia.
Qed.

(** When the quotient is below [2 ^ 52] the exponent is negative, and
    nothing overflows. *)
Lemma truediv_small a b :
  0 < a -> 0 < b -> a < b * 2 ^ 52 ->
  ∃ E m, 0 < E ∧ truediv a b = Ok (mkFloat m (- E))
    ∧ 2 ^ 52 * b <= a * 2 ^ E
    ∧ 2 * (a * 2 ^ E) - b <= 2 * (m * b) <= 2 * (a * 2 ^ E) + b.
Proof.
  intros Ha Hb Hlt.
  destruct (truediv_normal a b Ha Hb) as (e & (Hy & Hlo & Hhi) & ->).
  unfold scaled in *. destruct (Z.leb_spec 0 e) as [He|He]; simpl in *.
  { pose proof (Z.pow_pos_nonneg 2 e ltac:(lia) He). nia. }
  exists (- e), (rne_div (a * 2 ^ (- e)) b).
  rewrite Z.opp_involutive. repeat split; try lia.
  all: apply rne_div_bounds; lia.
Qed.

Lemma format_1f_small m E :
  0 <= m -> 0 < E ->
  format_1f (mkFloat m (- E))
  = of_Z (rne_div (10 * m) (2 ^ E) / 10) ++ lit "."
    ++ of_Z (rne_div (10 * m) (2 ^ E) mod 10).
Proof.
  intros Hm HE. unfold format_1f. cbn [mant expo].
  rewrite (proj2 (Z.leb_gt 0 (- E))) by lia.
  rewrite (proj2 (Z.ltb_ge m 0)) by lia.
  by rewrite Z.abs_eq, Z.opp_involutive by lia.
Qed.

(** Below [1000 * 2 ^ 44] the two roundings of [format_stars], to
    binary64 and then to one decimal, give a nearest tenth of the exact
    quotient. *)
Lemma thousands_nearest n :
  1000 <= n < 1000 * 2 ^ 44 ->
  ∃ t, -50 <= 100 * t - n <= 50
    ∧ (q ← truediv n 1000; Ok (format_1f q))
      = Ok (of_Z (t / 10) ++ lit "." ++ of_Z (t mod 10)).
Proof.
  intros [Hlo Hhi].
  destruct (truediv_small n 1000) as (E & m & HE & -> & Hnorm & Hm);
    [lia|lia|lia|].
  cbn [mbind res_bind].
  pose proof (Z.pow_pos_nonneg 2 E ltac:(lia) ltac:(lia)) as HP.
  assert (2 * 2 ^ 8 <= 2 ^ E) as HP9.
  { apply pow2_gt; [lia|lia|]. nia. }
  assert (0 <= m) as Hm0 by nia.
  rewrite format_1f_small by lia.
  pose proof (rne_div_bounds (10 * m) (2 ^ E) HP) as Ht.
  set (t := rne_div (10 * m) (2 ^ E)) in *. set (P := 2 ^ E) in *.
  exists t. split; [|done].
  change (2 ^ 8) with 256 in HP9.
  assert (2 * (P * (100 * t - n)) <= 1000 + 100 * P) by nia.
  assert (- (1000 + 100 * P) <= 2 * (P * (100 * t - n))) by nia.
  nia.
Qed.


(** A quotient by 1000 of an [int] below [2 ^ 1024] is a float. *)
Lemma thousands_finite n :
  1000 <= n < 2 ^ 1024 -> ∃ q, truediv n 1000 = Ok q.
Proof.
  intros [Hlo Hhi].
  destruct (truediv_normal n 1000) as (e & (Hy & Hnorm & _) & ->);
    [lia|lia|].
  unfold scaled in *. destruct (Z.leb_spec 0 e) as [He|He]; simpl in *;
    [|by eexists].
  pose proof (Z.pow_pos_nonneg 2 e ltac:(lia) He) as HP.
  pose proof (rne_div_bounds n (1000 * 2 ^ e) ltac:(lia)) as Hm.
  set (m := rne_div n (1000 * 2 ^ e)) in *. set (P := 2 ^ e) in *.
  assert (m * P < 2 ^ 1024) as Hfin by nia.
  rewrite (proj2 (Z.leb_gt _ _) Hfin). by eexists.
Qed.

End FloatFacts.

(** ** Formatting star counts (C9) *)

(** C9 fails as stated for very large counts: 17592186044416049 / 1000 is
    17592186044416.049, and [format_stars] returns [17592186044416.1k],
    which is not that quotient to one decimal place, whichever way it is
    rounded; for 10 ^ 312 it returns nothing and raises [OverflowError]. *)
Lemma format_stars_counterexample :
  format_stars 17592186044416049 = Ok (lit "17592186044416.1k")
  ∧ (¬ ∃ t, -50 <= 100 * t - 17592186044416049 <= 50
         ∧ lit "17592186044416.1k"
           = of_Z (t / 10) ++ lit "." ++ of_Z (t mod 10) ++ lit "k")
  ∧ format_stars (10 ^ 312) = Raise OverflowError.
Proof.
  split; [vm_compute; reflexivity|]. split; [|by vm_compute].
  intros (t & Ht & Heq).
  assert (t = 175921860444160) as -> by lia.
  vm_compute in Heq. discriminate Heq.
Qed.

(** C9, amended: [format_stars] returns the plain decimal representation
    for every count below 1000 and, for every count from 1000 up to (not
    including) 1000 * 2 ^ 44 = 17592186044416000, the count divided by
    1000 to one decimal place followed by [k]: a whole part [t / 10] and a
    tenth [t mod 10] with [t / 10] within 0.05 of the quotient.  In
    particular 999 gives [999], 1000 gives [1.0k] and 12345 gives
    [12.3k]. *)
Theorem format_stars_thresholds :
  (∀ n, n < 1000 -> format_stars n = Ok (of_Z n))
  ∧ (∀ n, 1000 <= n < 1000 * 2 ^ 44 ->
       ∃ t, -50 <= 100 * t - n <= 50
         ∧ format_stars n
           = Ok (of_Z (t / 10) ++ lit "." ++ of_Z (t mod 10) ++ lit "k"))
  ∧ format_stars 999 = Ok (lit "999")
  ∧ format_stars 1000 = Ok (lit "1.0k")
  ∧ format_stars 12345 = Ok (lit "12.3k").
Proof.
  split; [|split; [|by vm_compute]].
  - intros n Hn. unfold format_stars.
    by rewrite (proj2 (Z.leb_gt 1000 n)) by lia.
  - intros n Hn. unfold format_stars.
    rewrite (proj2 (Z.leb_le 1000 n)) by lia.
    destruct (FloatFacts.thousands_nearest n Hn) as (t & Ht & Heq).
    exists t. split; [done|].
    destruct (Float.truediv n 1000) as [q|]; [|done].
    cbn [mbind res_bind] in *. injection Heq as ->.
    by rewrite <- !app_assoc.
Qed.

Lemma format_stars_thresholds_witness :
  format_stars 7 = Ok (lit "7")
  ∧ ∃ t, -50 <= 100 * t - 1949 <= 50
      ∧ format_stars 1949
        = Ok (of_Z (t / 10) ++ lit "." ++ of_Z (t mod 10) ++ lit "k").
Proof.
  split.
  - apply (proj1 format_stars_thresholds 7). lia.
  - apply (proj1 (proj2 format_stars_thresholds) 1949). lia.
Defined.

(** ** Rate limits (C6) *)


Section RateLimit.

Context `{PyLib} {World : Type}.
Variable urlopen : World -> Request -> reply * World.


(** With another code than 403 the error is the plain one, whatever the
    message. *)
Lemma handle_other err reset_at :
  code err ≠ 403 -> error_message err ≠ [] ->
  error_reset_at err = Ok reset_at ->
  _handle_error err
  = GitHubAPIError (error_message err ++ lit " (HTTP " ++ of_Z (code err)
                    ++ lit ")").
Proof.
  intros Hcode Hmsg Hreset. unfold _handle_error, error_message in *.
  destruct (body err) as [m|]; [|done].
  rewrite Hreset. by rewrite (proj2 (Z.eqb_neq _ _) Hcode).
Qed.




End RateLimit.


(** ** Resolution (C4, C5) *)

Section Resolution.

Context `{PyLib} {World : Type}.
Variable urlopen : World -> Request -> reply * World.
Variable environ : list (str * str).
Variable clock : World -> Z.

Ltac loop_turn := cbn [fetch_entry].
Ltac next_entry := cbn [fetch_entries].
Ltac whole_pass := unfold fetch_star_data.

Local Abbreviation lookup := (fetch_repo_stars urlopen environ).
Local Abbreviation fetch_entry := (fetch_entry urlopen environ).
Local Abbreviation fetch_entries := (fetch_entries urlopen environ).
Local Abbreviation fetch_star_data := (fetch_star_data urlopen environ).
Local Abbreviation main := (main urlopen environ clock).

(** The loop for one entry ends before its fuel does, and the token index
    never goes down nor leaves the list. *)
Lemma fetch_entry_total fuel w tokens i entry :
  (i < length tokens)%nat -> (length tokens - i <= fuel)%nat ->
  ∃ w' i' r, fetch_entry fuel w tokens i entry = Some (w', i', r)
    ∧ (i <= i' < length tokens)%nat.
Proof.
  revert w i. induction fuel as [|fuel IH]; intros w i Hi Hfuel; [lia|].
  loop_turn.
  destruct (lookup w (slug entry) (token_at tokens i)) as [[info|err] w'].
  { eexists _, _, _. split; [done|lia]. }
  destruct (is_api_error err); [|eexists _, _, _; split; [done|lia]].
  destruct (contains (lit "Not Found") _);
    [eexists _, _, _; split; [done|lia]|].
  destruct (contains (lit "Bad credentials") _); cbn [andb];
    [|eexists _, _, _; split; [done|lia]].
  destruct (Nat.ltb_spec (i + 1) (length tokens)) as [Hnext|Hnext];
    [|eexists _, _, _; split; [done|lia]].
  destruct (IH w' (i + 1)%nat) as (w'' & i' & r & Hr & Hi'); [lia..|].
  eexists _, _, _. split; [done|lia].
Qed.

Lemma fetch_entries_total w tokens i entries :
  (i < length tokens)%nat ->
  ∃ w' i' entries' r,
    fetch_entries w tokens i entries = Some (w', i', entries', r)
    ∧ (i <= i' < length tokens)%nat.
Proof.
  revert w i. induction entries as [|entry rest IH]; intros w i Hi.
  { eexists _, _, _, _. split; [done|lia]. }
  next_entry.
  destruct (fetch_entry_total (length tokens - i) w tokens i entry)
    as (w' & i' & r & -> & Hi'); [lia..|].
  destruct r as [entry'|err]; [|eexists _, _, _, _; split; [done|lia]].
  destruct (IH w' i') as (w'' & i'' & rest' & r & -> & Hi''); [lia|].
  eexists _, _, _, _. split; [done|lia].
Qed.



(** One turn of the loop for an entry whose lookup fails. *)
Lemma fetch_entry_raise fuel w tokens i entry err w' :
  lookup w (slug entry) (token_at tokens i) = (Raise err, w') ->
  fetch_entry (S fuel) w tokens i entry =
  if is_api_error err then
    if contains (lit "Not Found") (api_error_str err) then
      Some (w', i, Ok (set_stars entry 0))
    else if contains (lit "Bad credentials") (api_error_str err)
            && (i + 1 <? length tokens)%nat then
      fetch_entry fuel w' tokens (i + 1)%nat entry
    else Some (w', i, Raise err)
  else Some (w', i, Raise err).
Proof. intros Hlookup. loop_turn. by rewrite Hlookup. Qed.

Lemma fetch_entry_ok fuel w tokens i entry info w' :
  lookup w (slug entry) (token_at tokens i) = (Ok info, w') ->
  fetch_entry (S fuel) w tokens i entry
  = Some (w', i, Ok (set_stars entry (rs_stars info))).
Proof. intros Hlookup. loop_turn. by rewrite Hlookup. Qed.

Lemma fuel_succ (tokens : list (option str)) i :
  (i < length tokens)%nat ->
  (length tokens - i)%nat = S (length tokens - i - 1).
Proof. lia. Qed.


(** C5, amended: a lookup that fails with an API error whose text has
    [Bad credentials] (an HTTP 401 with that message is one) and does not
    have [Not Found] makes the loop take the next token, when there is
    one, and look the same entry up again; with the tokens [bad] and
    [good], where [bad] is rejected in this way and [good] is accepted,
    the entry gets its stars and nothing is raised.  When there is no next
    token the error leaves the pass.  After a lookup that succeeds, the
    pass goes on to the next entry with the same token index, and the
    index never goes down. *)
Theorem bad_credentials_fall_back :
  (∀ err reset_at,
     code err = 401 -> error_message err = lit "Bad credentials" ->
     error_reset_at err = Ok reset_at ->
     _handle_error err = GitHubAPIError (lit "Bad credentials (HTTP 401)"))
  ∧ (∀ fuel w tokens i entry err w',
       lookup w (slug entry) (token_at tokens i) = (Raise err, w') ->
       is_api_error err = true ->
       contains (lit "Not Found") (api_error_str err) = false ->
       contains (lit "Bad credentials") (api_error_str err) = true ->
       (i + 1 < length tokens)%nat ->
       fetch_entry (S fuel) w tokens i entry
       = fetch_entry fuel w' tokens (i + 1)%nat entry)
  ∧ (∀ w entry bad good err w1 info w2,
       lookup w (slug entry) (Some bad) = (Raise err, w1) ->
       is_api_error err = true ->
       contains (lit "Not Found") (api_error_str err) = false ->
       contains (lit "Bad credentials") (api_error_str err) = true ->
       lookup w1 (slug entry) (Some good) = (Ok info, w2) ->
       fetch_star_data w [entry] [Some bad; Some good]
       = Some (w2, [set_stars entry (rs_stars info)], Ok tt))
  ∧ (∀ w tokens i entry rest err w',
       (i < length tokens)%nat ->
       lookup w (slug entry) (token_at tokens i) = (Raise err, w') ->
       is_api_error err = true ->
       contains (lit "Not Found") (api_error_str err) = false ->
       contains (lit "Bad credentials") (api_error_str err) = true ->
       (length tokens <= i + 1)%nat ->
       fetch_entries w tokens i (entry :: rest)
       = Some (w', i, entry :: rest, Raise err))
  ∧ (∀ w tokens i entry rest info w',
       (i < length tokens)%nat ->
       lookup w (slug entry) (token_at tokens i) = (Ok info, w') ->
       ∃ w'' i'' rest' r,
         fetch_entries w' tokens i rest = Some (w'', i'', rest', r)
         ∧ (i <= i'')%nat
         ∧ fetch_entries w tokens i (entry :: rest)
           = Some (w'', i'', set_stars entry (rs_stars info) :: rest', r)).
Proof.
  split; [|split; [|split; [|split]]].
  - intros err reset_at Hcode Hmsg Hreset.
    rewrite (handle_other err reset_at); [|lia| |done].
    + by rewrite Hcode, Hmsg.
    + by rewrite Hmsg.
  - intros fuel w tokens i entry err w' Hlookup Hapi Hnf Hbc Hnext.
    rewrite (fetch_entry_raise _ _ _ _ _ _ _ Hlookup), Hapi, Hnf, Hbc.
    by rewrite (proj2 (Nat.ltb_lt _ _) Hnext).
  - intros w entry bad good err w1 info w2 Hbad Hapi Hnf Hbc Hgood.
    whole_pass. next_entry.
    change (length [Some bad; Some good] - 0)%nat with 2%nat.
    rewrite (fetch_entry_raise 1 w [Some bad; Some good] 0 entry err w1 Hbad).
    rewrite Hapi, Hnf, Hbc. cbn [andb Nat.add length Nat.ltb Nat.leb].
    by rewrite (fetch_entry_ok 0 w1 [Some bad; Some good] 1 entry info w2 Hgood).
  - intros w tokens i entry rest err w' Hi Hlookup Hapi Hnf Hbc Hlast.
    next_entry. rewrite (fuel_succ tokens i Hi).
    rewrite (fetch_entry_raise _ _ _ _ _ _ _ Hlookup), Hapi, Hnf, Hbc.
    by rewrite (proj2 (Nat.ltb_ge _ _) Hlast).
  - intros w tokens i entry rest info w' Hi Hlookup.
    destruct (fetch_entries_total w' tokens i rest Hi)
      as (w'' & i'' & rest' & r & Hrest & Hi'').
    eexists _, _, _, _. split; [done|]. split; [lia|].
    next_entry. rewrite (fuel_succ tokens i Hi).
    by rewrite (fetch_entry_ok _ _ _ _ _ _ _ Hlookup), Hrest.
Qed.

End Resolution.



(** C5 fails as stated: a token rejected with a message that also has
    the words [Not Found] is taken for a missing repository.  The entry
    gets 0 stars, the token index stays at 0 and the good token is never
    tried. *)
Lemma bad_credentials_absorbed_counterexample :
  fetch_repo_stars Sample.odd_auth_urlopen [] tt (lit "foo/bar")
    (Some (lit "bad"))
  = (Raise (GitHubAPIError (lit "Bad credentials: token Not Found (HTTP 401)")),
     tt)
  ∧ fetch_repo_stars Sample.odd_auth_urlopen [] tt (lit "foo/bar")
      (Some (lit "good"))
    = (Ok (mkRepoStars (lit "foo/bar") 12345
             (lit "https://github.com/foo/bar") None), tt)
  ∧ fetch_entries Sample.odd_auth_urlopen [] tt
      [Some (lit "bad"); Some (lit "good")] 0 [Sample.entry "foo/bar"]
    = Some (tt, 0%nat, [set_stars (Sample.entry "foo/bar") 0], Ok tt).
Proof. by vm_compute. Qed.

Lemma bad_credentials_fall_back_witness :
  fetch_star_data Sample.urlopen [] tt [Sample.entry "foo/bar"]
    [Some (lit "bad"); Some (lit "good")]
  = Some (tt, [set_stars (Sample.entry "foo/bar") 12345], Ok tt).
Proof.
  pose proof (bad_credentials_fall_back Sample.urlopen [])
    as (_ & _ & Hfallback & _).
  apply (Hfallback tt (Sample.entry "foo/bar") (lit "bad") (lit "good")
           (GitHubAPIError (lit "Bad credentials (HTTP 401)")) tt
           (mkRepoStars (lit "foo/bar") 12345
              (lit "https://github.com/foo/bar") None) tt);
    reflexivity.
Defined.

(** ** The report (C3) *)

Section Sorting.

Context {A : Type} (key : A -> Z).

Lemma insert_desc_first x y l :
  key y <= key x -> insert_desc key x (y :: l) = x :: y :: l.
Proof. intros Hxy. simpl. by rewrite (proj2 (Z.ltb_ge _ _) Hxy). Qed.

Lemma insert_desc_later x y l :
  key x < key y -> insert_desc key x (y :: l) = y :: insert_desc key x l.
Proof. intros Hxy. simpl. by rewrite (proj2 (Z.ltb_lt _ _) Hxy). Qed.

Lemma insert_desc_perm x l : insert_desc key x l ≡ₚ x :: l.
Proof.
  induction l as [|y l IH]; simpl; [done|].
  destruct (key x <? key y); [|done].
  rewrite IH. apply Permutation_swap.
Qed.

Lemma sort_desc_perm l : sort_desc key l ≡ₚ l.
Proof.
  induction l as [|x l IH]; simpl; [done|].
  by rewrite insert_desc_perm, IH.
Qed.

Lemma insert_desc_sorted x l :
  StronglySorted (fun a b => key b <= key a) l ->
  StronglySorted (fun a b => key b <= key a) (insert_desc key x l).
Proof.
  induction 1 as [|y l Hl IH Hy]; simpl.
  { repeat constructor. }
  destruct (Z.ltb_spec (key x) (key y)) as [Hlt|Hge].
  - constructor; [done|].
    rewrite insert_desc_perm. constructor; [lia|done].
  - constructor; [by constructor|]. constructor; [done|].
    eapply Forall_impl; [done|]. simpl. intros z Hz. lia.
Qed.

Lemma sort_desc_sorted l :
  StronglySorted (fun a b => key b <= key a) (sort_desc key l).
Proof.
  induction l as [|x l IH]; simpl; [constructor|].
  by apply insert_desc_sorted.
Qed.

(** Among the elements with a given key, [insert_desc] puts the new one
    first. *)
Lemma insert_desc_filter k x l :
  filter (fun a => key a = k) (insert_desc key x l)
  = filter (fun a => key a = k) (x :: l).
Proof.
  induction l as [|y l IH]; simpl; [done|].
  destruct (Z.ltb_spec (key x) (key y)) as [Hlt|Hge]; [|done].
  rewrite filter_cons, IH, !filter_cons.
  destruct (decide (key y = k)), (decide (key x = k)); try done. lia.
Qed.

Lemma sort_desc_stable k l :
  filter (fun a => key a = k) (sort_desc key l)
  = filter (fun a => key a = k) l.
Proof.
  induction l as [|x l IH]; simpl; [done|].
  by rewrite insert_desc_filter, !filter_cons, IH.
Qed.

End Sorting.

Lemma join_lines (lines : list str) :
  lines ≠ [] ->
  join [0xa%N] lines ++ [0xa%N] = concat ((fun l => l ++ [0xa%N]) <$> lines).
Proof.
  induction lines as [|l lines IH]; [done|]. intros _.
  destruct lines as [|l' lines].
  { simpl. by rewrite app_nil_r. }
  change (join [0xa%N] (l :: l' :: lines))
    with (l ++ [0xa%N] ++ join [0xa%N] (l' :: lines)).
  rewrite fmap_cons. cbn [concat].
  rewrite <- !app_assoc. do 2 f_equal. by apply IH.
Qed.

Lemma render_rows_spec es texts :
  Forall2 (fun e t => format_stars (stars_or_0 e) = Ok t) es texts ->
  ∀ idx, ∃ rows,
    render_rows idx es = Ok rows ∧ length rows = length es
    ∧ ∀ i e t, es !! i = Some e -> texts !! i = Some t ->
        rows !! i = Some (table_row (idx + Z.of_nat i) e t).
Proof.
  induction 1 as [|e t es texts He _ IH]; intros idx.
  { exists []. repeat split. intros i e t He. by rewrite lookup_nil in He. }
  destruct (IH (idx + 1)) as (rows & Hrows & Hlen & Hi).
  exists (table_row idx e t :: rows). cbn [render_rows].
  rewrite He, Hrows. cbn [mbind res_bind]. split; [done|].
  split; [simpl; by rewrite Hlen|].
  intros [|i] e' t'; simpl.
  - intros [= <-] [= <-]. by rewrite Z.add_0_r.
  - intros He' Ht'. rewrite (Hi i e' t' He' Ht'). do 2 f_equal. lia.
Qed.

Lemma format_stars_ok n : n < 2 ^ 1024 -> ∃ t, format_stars n = Ok t.
Proof.
  intros Hn. unfold format_stars. destruct (Z.leb_spec 1000 n); [|by eexists].
  destruct (FloatFacts.thousands_finite n) as [q ->]; [lia|]. by eexists.
Qed.

(** C3 fails as stated for a count so large that its quotient by 1000 is
    not a float: [format_stars] raises [OverflowError] and no report is
    made. *)
Lemma report_overflow_counterexample :
  sorted_report [Sample.starred "a/huge" (Some (10 ^ 312))]
  = Raise OverflowError.
Proof. by vm_compute. Qed.

(** C3, amended: the entries are put in the order of their star counts,
    greatest first, an absent count being 0: the result is a permutation
    of the input, it is sorted, and the entries with the same count keep
    the order that they had (so the counts 5, 5, 10, None give the order
    10, first 5, second 5, None).  Whenever [format_stars] returns a text
    for every entry, which it does for every count below 2 ^ 1024, the
    report is the header row, the separator row and one row for each
    entry, the row at position [i] (from 0) having the rank [i + 1]; each
    of these lines, the last one too, ends with a newline. *)
Theorem report_order_and_layout :
  (∀ es,
     sort_desc stars_or_0 es ≡ₚ es
     ∧ StronglySorted (fun a b => stars_or_0 b <= stars_or_0 a)
         (sort_desc stars_or_0 es)
     ∧ ∀ k, filter (fun e => stars_or_0 e = k) (sort_desc stars_or_0 es)
            = filter (fun e => stars_or_0 e = k) es)
  ∧ (∀ a b c d,
       stars a = Some 5 -> stars b = Some 5 -> stars c = Some 10 ->
       stars d = None ->
       sort_desc stars_or_0 [a; b; c; d] = [c; a; b; d])
  ∧ (∀ es texts,
       Forall2 (fun e t => format_stars (stars_or_0 e) = Ok t)
         (sort_desc stars_or_0 es) texts ->
       ∃ rows,
         length rows = length es
         ∧ (∀ i e t,
              sort_desc stars_or_0 es !! i = Some e -> texts !! i = Some t ->
              rows !! i = Some (table_row (Z.of_nat i + 1) e t))
         ∧ sorted_report es
           = Ok (table_header ++ [0xa%N] ++ table_separator ++ [0xa%N]
                 ++ concat ((fun row => row ++ [0xa%N]) <$> rows)))
  ∧ (∀ es, Forall (fun e => stars_or_0 e < 2 ^ 1024) es ->
       ∃ texts,
         Forall2 (fun e t => format_stars (stars_or_0 e) = Ok t)
           (sort_desc stars_or_0 es) texts).
Proof.
  split; [|split; [|split]].
  - intros es. split; [apply sort_desc_perm|].
    split; [apply sort_desc_sorted|]. intros k. apply sort_desc_stable.
  - intros a b c d Ha Hb Hc Hd.
    assert (stars_or_0 a = 5) as Ka by (unfold stars_or_0; by rewrite Ha).
    assert (stars_or_0 b = 5) as Kb by (unfold stars_or_0; by rewrite Hb).
    assert (stars_or_0 c = 10) as Kc by (unfold stars_or_0; by rewrite Hc).
    assert (stars_or_0 d = 0) as Kd by (unfold stars_or_0; by rewrite Hd).
    cbn [sort_desc]. change (insert_desc stars_or_0 d []) with [d].
    rewrite (insert_desc_first _ c d) by lia.
    rewrite (insert_desc_later _ b c), (insert_desc_first _ b d) by lia.
    rewrite (insert_desc_later _ a c), (insert_desc_first _ a b) by lia.
    done.
  - intros es texts Htexts.
    destruct (render_rows_spec _ texts Htexts 1) as (rows & Hrows & Hlen & Hi).
    exists rows. split.
    { by rewrite Hlen, (Permutation_length (sort_desc_perm _ es)). }
    split.
    { intros i e t He Ht. rewrite (Hi i e t He Ht). do 2 f_equal. lia. }
    unfold sorted_report, render_markdown. rewrite Hrows.
    cbn [mbind res_bind].
    rewrite join_lines by done. rewrite !fmap_cons. cbn [concat].
    by rewrite <- !app_assoc.
  - intros es Hes.
    assert (Forall (fun e => stars_or_0 e < 2 ^ 1024)
              (sort_desc stars_or_0 es)) as Hsorted.
    { by rewrite sort_desc_perm. }
    clear Hes. induction Hsorted as [|e l He _ [texts IH]]; [by exists []|].
    destruct (format_stars_ok _ He) as [t Ht].
    exists (t :: texts). by constructor.
Qed.

Lemma report_order_and_layout_witness :
  sort_desc stars_or_0
    [Sample.starred "a/first" (Some 5); Sample.starred "a/second" (Some 5);
     Sample.starred "a/top" (Some 10); Sample.starred "a/new" None]
  = [Sample.starred "a/top" (Some 10); Sample.starred "a/first" (Some 5);
     Sample.starred "a/second" (Some 5); Sample.starred "a/new" None]
  ∧ ∃ rows,
      length rows = 2%nat
      ∧ sorted_report
          [Sample.starred "a/new" None; Sample.starred "a/top" (Some 12345)]
        = Ok (table_header ++ [0xa%N] ++ table_separator ++ [0xa%N]
              ++ concat ((fun row => row ++ [0xa%N]) <$> rows)).
Proof.
  pose proof report_order_and_layout as (_ & Horder & Hlayout & _).
  split.
  - apply Horder; reflexivity.
  - destruct (Hlayout
                [Sample.starred "a/new" None;
                 Sample.starred "a/top" (Some 12345)]
                [lit "12.3k"; lit "0"]) as (rows & Hlen & _ & Hreport).
    + repeat constructor.
    + exists rows. split; assumption.
Defined.

(** * Further properties *)

(** ** Tokens of the environment *)

Lemma truthy_nonempty (s : str) : truthy s = true ↔ s ≠ [].
Proof. by destruct s. Qed.

Lemma str_in_elem (s : str) (l : list str) : str_in s l = true ↔ s ∈ l.
Proof. unfold str_in. apply bool_decide_eq_true. Qed.

(** A loop that appends to [tokens] the values it has not yet, where
    [cand x] is the value that the item [x] brings. *)
Lemma append_fresh_loop {B} (cand : B -> option str)
    (f : list str -> B -> list str) :
  (∀ tokens x,
     f tokens x = match cand x with
                  | Some v => if str_in v tokens then tokens else tokens ++ [v]
                  | None => tokens
                  end) ->
  ∀ xs init,
    (NoDup init -> NoDup (foldl f init xs))
    ∧ (∀ t, t ∈ foldl f init xs ↔ t ∈ init ∨ t ∈ omap cand xs)
    ∧ head (foldl f init xs) = head (init ++ omap cand xs)
    ∧ ∃ more, foldl f init xs = init ++ more ∧ more `sublist_of` omap cand xs.
Proof.
  intros Hf xs. induction xs as [|x xs IH]; intros init.
  { cbn [foldl omap list_omap]. rewrite app_nil_r. split; [done|].
    split; [|split; [done|]].
    - intros t. rewrite elem_of_nil. tauto.
    - exists []. by rewrite app_nil_r. }
  cbn [foldl]. rewrite Hf.
  change (omap cand (x :: xs))
    with (match cand x with Some v => v :: omap cand xs | None => omap cand xs end).
  destruct (IH init) as (Hnd & Hin & Hhead & more & Hmore & Hsub).
  destruct (cand x) as [v|]; [|done].
  destruct (str_in v init) eqn:Hv.
  - apply str_in_elem in Hv. split; [done|]. split; [|split].
    + intros t. rewrite Hin, elem_of_cons. split; [tauto|].
      intros [?|[->|?]]; auto.
    + rewrite Hhead. destruct init; [by apply elem_of_nil in Hv|done].
    + exists more. split; [done|]. by apply sublist_cons.
  - assert (v ∉ init) as Hfresh.
    { intros Hin'%str_in_elem. congruence. }
    destruct (IH (init ++ [v])) as (Hnd' & Hin' & Hhead' & more' & Hmore' & Hsub').
    split; [|split; [|split]].
    + intros Hinit. apply Hnd'. apply NoDup_app. split; [done|].
      split; [|apply NoDup_singleton].
      intros y Hy ->%list_elem_of_singleton. done.
    + intros t. rewrite Hin', elem_of_app, list_elem_of_singleton, elem_of_cons.
      tauto.
    + rewrite Hhead'. by rewrite <- app_assoc.
    + exists (v :: more'). split; [by rewrite Hmore', <- app_assoc|].
      by apply sublist_skip.
Qed.

Section Tokens.

Context `{PyLib}.

Lemma preferred_step env tokens key :
  match env_get env key with
  | Some val =>
      if truthy val && negb (str_in val tokens)
      then tokens ++ [val] else tokens
  | None => tokens
  end
  = match preferred_value env key with
    | Some v => if str_in v tokens then tokens else tokens ++ [v]
    | None => tokens
    end.
Proof.
  unfold preferred_value. destruct (env_get env key) as [val|]; [|done].
  destruct (truthy val); [|done]. by destruct (str_in val tokens).
Qed.

Lemma pat_step tokens (item : str * str) :
  (let '(key, value) := item in
   if contains (lit "PAT") (str_upper key) && truthy value
      && negb (str_in value tokens)
   then tokens ++ [value] else tokens)
  = match pat_value item with
    | Some v => if str_in v tokens then tokens else tokens ++ [v]
    | None => tokens
    end.
Proof.
  destruct item as [key value]. unfold pat_value. cbn [fst snd].
  destruct (contains _ _ && truthy value); [|done].
  by destruct (str_in value tokens).
Qed.

Lemma candidates_nonempty env t : t ∈ candidates env -> t ≠ [].
Proof.
  unfold candidates. rewrite elem_of_app, !list_elem_of_omap.
  intros [(key & _ & Hv)|(item & _ & Hv)].
  - unfold preferred_value in Hv. destruct (env_get env key) as [val|]; [|done].
    destruct (truthy val) eqn:Ht; [|done]. injection Hv as <-.
    by apply truthy_nonempty.
  - unfold pat_value in Hv.
    destruct (contains _ _); [|done]. cbn [andb] in Hv.
    destruct (truthy item.2) eqn:Ht; [|done]. injection Hv as <-.
    by apply truthy_nonempty.
Qed.

Lemma discover_tokens_loops environ env :
  NoDup (discover_tokens environ env)
  ∧ (∀ t, t ∈ discover_tokens environ env
          ↔ t ∈ candidates (env_or_environ env environ))
  ∧ head (discover_tokens environ env)
    = head (candidates (env_or_environ env environ))
  ∧ discover_tokens environ env
    `sublist_of` candidates (env_or_environ env environ).
Proof.
  unfold discover_tokens, candidates.
  set (mapping := env_or_environ env environ).
  destruct (append_fresh_loop (preferred_value mapping) _
              (preferred_step mapping) preferred_keys [])
    as (Hnd1 & Hin1 & Hhead1 & more1 & Hmore1 & Hsub1).
  set (tokens1 := foldl _ [] preferred_keys) in *.
  destruct (append_fresh_loop pat_value _
              (fun tokens item => pat_step tokens item) mapping tokens1)
    as (Hnd2 & Hin2 & Hhead2 & more2 & Hmore2 & Hsub2).
  set (tokens2 := foldl _ tokens1 mapping) in *.
  split; [apply Hnd2, Hnd1, NoDup_nil_2|].
  split; [|split].
  - intros t. rewrite Hin2, Hin1, elem_of_app, elem_of_nil. tauto.
  - rewrite Hhead2. cbn [app] in Hhead1.
    destruct tokens1, (omap (preferred_value mapping) preferred_keys);
      simpl in *; congruence.
  - rewrite Hmore2, Hmore1. cbn [app]. by apply sublist_app.
Qed.

(** X1: the tokens that [discover_tokens] returns are pairwise distinct
    and none of them is the empty string. *)
Theorem discover_tokens_distinct environ env :
  NoDup (discover_tokens environ env)
  ∧ Forall (fun t => t ≠ []) (discover_tokens environ env).
Proof.
  destruct (discover_tokens_loops environ env) as (Hnd & Hin & _).
  split; [done|]. apply Forall_forall. intros t Ht%Hin.
  by eapply candidates_nonempty.
Qed.

(** X2: [discover_tokens] reads the mapping that it is given when that is
    not empty, and the environment of the process when it is given none
    or an empty one.  It returns exactly the candidate values of the
    mapping that it reads: the non-empty values of the four preferred keys
    and of the variables whose name, in upper case, has [PAT].  They come
    in the order in which the two loops meet them. *)
Theorem discover_tokens_candidates environ env :
  (∀ t, t ∈ discover_tokens environ env ↔
        t ≠ []
        ∧ ((∃ key, key ∈ preferred_keys
              ∧ env_get (env_or_environ env environ) key = Some t)
           ∨ ∃ key, (key, t) ∈ env_or_environ env environ
               ∧ contains (lit "PAT") (str_upper key) = true))
  ∧ discover_tokens environ env
    `sublist_of` candidates (env_or_environ env environ)
  ∧ (∀ item items,
       env = Some (item :: items) -> env_or_environ env environ = item :: items)
  ∧ (env = None ∨ env = Some [] -> env_or_environ env environ = environ)
  ∧ discover_tokens environ (Some []) = discover_tokens environ None.
Proof.
  destruct (discover_tokens_loops environ env) as (_ & Hin & _ & Hsub).
  split; [|split; [done|split; [by intros ?? ->|split; [by intros [->| ->]|done]]]].
  intros t. rewrite Hin. set (mapping := env_or_environ env environ). split.
  - intros Ht. split; [by eapply candidates_nonempty|].
    unfold candidates in Ht. rewrite elem_of_app, !list_elem_of_omap in Ht.
    destruct Ht as [(key & Hkey & Hv)|([key value] & Hitem & Hv)].
    + left. exists key. split; [done|]. unfold preferred_value in Hv.
      destruct (env_get mapping key) as [val|]; [|done].
      destruct (truthy val); [|done]. by injection Hv as ->.
    + right. exists key. unfold pat_value in Hv. cbn [fst snd] in Hv.
      destruct (contains _ _) eqn:Hpat; [|done]. cbn [andb] in Hv.
      destruct (truthy value); [|done]. by injection Hv as ->.
  - intros [Ht%truthy_nonempty [(key & Hkey & Hv)|(key & Hitem & Hpat)]];
      unfold candidates; rewrite elem_of_app, !list_elem_of_omap.
    + left. exists key. split; [done|]. unfold preferred_value.
      by rewrite Hv, Ht.
    + right. exists (key, t). split; [done|]. unfold pat_value.
      cbn [fst snd]. by rewrite Hpat, Ht.
Qed.

(** X3: [discover_token] returns the first candidate value of the mapping
    that [discover_tokens] reads: the value of the first preferred key
    that is set and not empty, and without one the first non-empty value
    of a variable whose name has [PAT].  So a non-empty GITHUB_TOKEN
    always wins, and the result is [None] exactly when the mapping that is
    read has no candidate.  An empty mapping is not read: the result is
    the one for the environment of the process. *)
Theorem discover_token_first_candidate environ env :
  discover_token environ env = head (candidates (env_or_environ env environ))
  ∧ (∀ v, env_get (env_or_environ env environ) (lit "GITHUB_TOKEN") = Some v ->
          v ≠ [] -> discover_token environ env = Some v)
  ∧ (discover_token environ env = None
     ↔ candidates (env_or_environ env environ) = [])
  ∧ discover_token environ (Some []) = discover_token environ None.
Proof.
  destruct (discover_tokens_loops environ env) as (_ & _ & Hhead & _).
  unfold discover_token. rewrite Hhead. split; [done|]. split; [|split].
  - intros v Hv Hne%truthy_nonempty. unfold candidates, preferred_keys.
    cbn [omap list_omap]. unfold preferred_value at 1. by rewrite Hv, Hne.
  - by destruct (candidates _).
  - done.
Qed.

End Tokens.

Lemma discover_tokens_candidates_witness :
  lit "e1" ∈ discover_tokens [(lit "GH_TOKEN", lit "e1")] (Some [])
  ∧ lit "p1" ∈ discover_tokens [(lit "GH_TOKEN", lit "e1")]
                 (Some [(lit "my_pat", lit "p1")])
  ∧ discover_tokens [(lit "GH_TOKEN", lit "e1")]
      (Some [(lit "my_pat", lit "p1")]) = [lit "p1"].
Proof.
  split; [|split; [|reflexivity]].
  - apply (proj1 (discover_tokens_candidates
                    [(lit "GH_TOKEN", lit "e1")] (Some []))).
    split; [discriminate|]. left. exists (lit "GH_TOKEN").
    split; [|reflexivity]. unfold preferred_keys.
    apply list_elem_of_further, list_elem_of_here.
  - apply (proj1 (discover_tokens_candidates
                    [(lit "GH_TOKEN", lit "e1")]
                    (Some [(lit "my_pat", lit "p1")]))).
    split; [discriminate|]. right. exists (lit "my_pat").
    split; [apply list_elem_of_here|reflexivity].
Defined.

Lemma discover_token_first_candidate_witness :
  discover_token [(lit "HOME", lit "/root"); (lit "my_pat", lit "p1");
                  (lit "GITHUB_TOKEN", lit "t0")] None
  = Some (lit "t0")
  ∧ discover_token [(lit "GITHUB_TOKEN", lit "t0")] (Some [])
    = Some (lit "t0")
  ∧ discover_token [(lit "GITHUB_TOKEN", lit "t0")]
      (Some [(lit "GH_PAT", lit "t1")])
    = Some (lit "t1").
Proof.
  split; [|split].
  - apply (proj1 (proj2 (discover_token_first_candidate _ None)));
      [reflexivity|discriminate].
  - apply (proj1 (proj2 (discover_token_first_candidate _ (Some []))));
      [reflexivity|discriminate].
  - rewrite (proj1 (discover_token_first_candidate _ _)). reflexivity.
Defined.

(** ** Slugs of [normalize_slug] *)

Lemma one_slash_no_scheme (s : str) :
  occurrences (chr "/") s = 1%nat -> contains (lit "://") s = false.
Proof.
  intros Hs. destruct (contains _ s) eqn:Hc; [|done].
  apply contains_inv in Hc as (a & b & ->).
  change (lit "://") with ([chr ":"] ++ [chr "/"] ++ [chr "/"]) in Hs.
  rewrite !occurrences_app in Hs.
  change (occurrences (chr "/") [chr "/"]) with 1%nat in Hs. lia.
Qed.

(** The first two pieces of a string cut at its slashes, joined again. *)
Lemma join_two_pieces (s : str) :
  (2 <= length (split (lit "/") s))%nat ->
  occurrences (chr "/") (join (lit "/") (take 2 (split (lit "/") s))) = 1%nat.
Proof.
  change (lit "/") with [chr "/"]. unfold split. intros Hlen.
  pose proof (split_char_pieces (chr "/") s [] (not_elem_of_nil _)) as Hpieces.
  destruct (split_from [chr "/"] 0 [] s) as [|p0 [|p1 rest]];
    [simpl in Hlen; lia..|].
  apply Forall_cons in Hpieces as [H0 Hpieces].
  apply Forall_cons in Hpieces as [H1 _].
  cbn [take join]. rewrite !occurrences_app.
  by rewrite (occurrences_none _ p0), (occurrences_none _ p1).
Qed.

Section NormalizeSlug.

Context `{PyLib}.

Lemma normalize_slug_again repo s :
  normalize_slug repo = Ok s ->
  occurrences (chr "/") s = 1%nat ∧ normalize_slug s = Ok s.
Proof.
  intros Hs.
  assert (occurrences (chr "/") s = 1%nat) as Hone.
  { revert Hs. unfold normalize_slug.
    destruct (contains (lit "://") repo).
    - destruct (urlparse repo) as [[netloc path]|e]; [|done].
      cbn [mbind res_bind]. destruct (negb _); [done|].
      destruct (Nat.ltb_spec (length (split (lit "/")
                                (strip_chars (lit "/") path))) 2); [done|].
      intros [= <-]. by apply join_two_pieces.
    - destruct (Nat.eqb_spec (count (lit "/") repo) 1) as [Hc|]; [|done].
      intros [= <-]. change (lit "/") with [chr "/"] in Hc.
      by rewrite count_char in Hc. }
  split; [done|]. unfold normalize_slug.
  rewrite (one_slash_no_scheme _ Hone). change (lit "/") with [chr "/"].
  by rewrite count_char, Hone.
Qed.

(** X4: a slug that [normalize_slug] returns, from a URL or from a slug,
    has exactly one slash, and [normalize_slug] returns it unchanged when
    it is given it again. *)
Theorem normalize_slug_idempotent repo s :
  normalize_slug repo = Ok s ->
  occurrences (chr "/") s = 1%nat ∧ normalize_slug s = Ok s.
Proof. apply normalize_slug_again. Qed.

(** X5: [normalize_slug] raises the exception of [urlparse] when that
    raises for an input with [://] (a host with one bracket makes it
    raise), and apart from that nothing but a [ValueError] whose message
    ends with its input, which is no API error.  For an input without
    [://] it returns the input when that has exactly one slash and raises
    otherwise; for an input with [://] it returns a slug only when
    [urlparse] returns and the host is github.com in some case. *)
Theorem normalize_slug_errors repo :
  (∀ e, normalize_slug repo = Raise e ->
        (contains (lit "://") repo = true ∧ urlparse repo = Raise e)
        ∨ ((∃ msg, e = ValueError (msg ++ repo)) ∧ is_api_error e = false))
  ∧ (∀ e, contains (lit "://") repo = true -> urlparse repo = Raise e ->
          normalize_slug repo = Raise e)
  ∧ (contains (lit "://") repo = false ->
     if decide (occurrences (chr "/") repo = 1%nat)
     then normalize_slug repo = Ok repo
     else normalize_slug repo
          = Raise (ValueError (lit "Invalid repo slug: " ++ repo)))
  ∧ (contains (lit "://") repo = true ->
     ∀ s, normalize_slug repo = Ok s ->
          ∃ netloc path, urlparse repo = Ok (netloc, path)
                         ∧ str_lower netloc = lit "github.com").
Proof.
  unfold normalize_slug. split; [|split; [|split]].
  - intros e. destruct (contains (lit "://") repo).
    + destruct (urlparse repo) as [[netloc path]|e0]; cbn [mbind res_bind].
      2: { intros [= <-]. by left. }
      destruct (negb _).
      { intros [= <-]. right. split; [|done].
        by exists (lit "Unsupported host in repo URL: "). }
      destruct (_ <? 2)%nat; [|done].
      intros [= <-]. right. split; [|done].
      by exists (lit "Invalid GitHub URL: ").
    + destruct (negb _); [|done]. intros [= <-]. right. split; [|done].
      by exists (lit "Invalid repo slug: ").
  - by intros e -> ->.
  - intros ->. change (lit "/") with [chr "/"]. rewrite count_char.
    destruct (decide _) as [->|Hne]; [done|].
    by rewrite (proj2 (Nat.eqb_neq _ _) Hne).
  - intros -> s. destruct (urlparse repo) as [[netloc path]|e]; [|done].
    cbn [mbind res_bind]. case_bool_decide; [|done].
    intros _. by exists netloc, path.
Qed.

End NormalizeSlug.

Lemma normalize_slug_idempotent_witness :
  normalize_slug (lit "https://GitHub.com/foo/bar/issues?q=1")
  = Ok (lit "foo/bar")
  ∧ normalize_slug (lit "foo/bar") = Ok (lit "foo/bar").
Proof.
  split; [reflexivity|].
  apply (normalize_slug_idempotent
           (lit "https://GitHub.com/foo/bar/issues?q=1") (lit "foo/bar")).
  reflexivity.
Defined.

Lemma normalize_slug_errors_witness :
  normalize_slug (lit "https://[foo/bar")
  = Raise (ValueError (lit "Invalid IPv6 URL"))
  ∧ normalize_slug (lit "foo")
    = Raise (ValueError (lit "Invalid repo slug: foo")).
Proof.
  split.
  - apply (proj1 (proj2 (normalize_slug_errors (lit "https://[foo/bar"))));
      reflexivity.
  - exact (proj1 (proj2 (proj2 (normalize_slug_errors (lit "foo"))))
             eq_refl).
Defined.

(** ** One lookup *)

(** X6: the headers of a request always have Accept and User-Agent, no
    name comes twice, and there is an Authorization header exactly when
    the token is a non-empty string; its value is then [Bearer] and the
    token.  An empty token is never sent. *)
Theorem build_headers_authorization token :
  (lit "Accept", lit "application/vnd.github+json") ∈ _build_headers token
  ∧ (lit "User-Agent", lit "sociomancer-star-fetcher") ∈ _build_headers token
  ∧ NoDup (_build_headers token).*1
  ∧ ∀ v, (lit "Authorization", v) ∈ _build_headers token ↔
         ∃ c t, token = Some (c :: t) ∧ v = lit "Bearer " ++ c :: t.
Proof.
  assert (Hkeys3 : NoDup [lit "Accept"; lit "User-Agent"; lit "Authorization"]).
  { apply (bool_decide_unpack _). by vm_compute. }
  assert (Hkeys2 : NoDup [lit "Accept"; lit "User-Agent"]).
  { apply (bool_decide_unpack _). by vm_compute. }
  assert (Hplain : ∀ v,
            (lit "Authorization", v)
            ∉ [(lit "Accept", lit "application/vnd.github+json");
               (lit "User-Agent", lit "sociomancer-star-fetcher")]).
  { intros v. rewrite !elem_of_cons, elem_of_nil.
    intros [Heq|[Heq|[]]]; vm_compute in Heq; discriminate Heq. }
  assert (Hnone : ∀ v,
            (lit "Authorization", v)
            ∈ [(lit "Accept", lit "application/vnd.github+json");
               (lit "User-Agent", lit "sociomancer-star-fetcher")] ↔
            ∃ c t, (None : option str) = Some (c :: t)
                   ∧ v = lit "Bearer " ++ c :: t).
  { intros v. split; [by intros ?%Hplain|by intros (c & t & ? & _)]. }
  destruct token as [[|c t]|]; cbn [_build_headers].
  - split; [apply list_elem_of_here|].
    split; [apply list_elem_of_further, list_elem_of_here|].
    split; [done|]. intros v. rewrite Hnone.
    split; intros (c & t & ? & _); done.
  - split; [apply list_elem_of_here|].
    split; [apply list_elem_of_further, list_elem_of_here|].
    split; [done|]. intros v.
    rewrite elem_of_app, list_elem_of_singleton. split.
    + intros [?%Hplain|[= ->]]; [done|]. by exists c, t.
    + intros (c' & t' & [= <- <-] & ->). by right.
  - split; [apply list_elem_of_here|].
    split; [apply list_elem_of_further, list_elem_of_here|].
    split; [done|]. apply Hnone.
Qed.

Section LookupSteps.

Context `{PyLib} {World : Type}.
Variable urlopen : World -> Request -> reply * World.
Variable environ : list (str * str).

(** [fetch_repo_stars] in one piece: the validation, the request and what
    is made of the reply. *)
Lemma fetch_repo_stars_eq w repo token :
  fetch_repo_stars urlopen environ w repo token
  = match normalize_slug repo with
    | Raise e => (Raise e, w)
    | Ok slug =>
        let '(r, w') :=
          urlopen w (lookup_request slug (token_or_discovered environ token)) in
        (lookup_result slug r, w')
    end.
Proof.
  unfold fetch_repo_stars, _request_json, lookup_request, lookup_result,
    token_or_discovered.
  destruct (normalize_slug repo) as [slug|e]; [|done].
  by destruct (urlopen w _) as [[data|err|reason|e] w'].
Qed.

End LookupSteps.

Section Lookup.

Context `{PyLib} {World : Type}.
Variable urlopen : World -> Request -> reply * World.
Variable environ : list (str * str).

(** A lookup on a network that keeps its requests: one request for a
    valid slug, none for another. *)
Lemma fetch_repo_stars_logged w log repo token :
  fetch_repo_stars (logged urlopen) environ (w, log) repo token
  = let '(r, w') := fetch_repo_stars urlopen environ w repo token in
    (r, (w', log ++ match normalize_slug repo with
                    | Ok slug =>
                        [lookup_request slug
                           (token_or_discovered environ token)]
                    | Raise _ => []
                    end)).
Proof.
  rewrite !fetch_repo_stars_eq.
  destruct (normalize_slug repo) as [slug|e]; [|by rewrite app_nil_r].
  unfold logged. cbn [fst snd]. by destruct (urlopen w _) as [r w'].
Qed.

(** X7: a repository can be given by its URL or by its slug: the lookup
    is the same, request and result, and the slug of a result is the
    normalised slug.  A lookup without a token is the lookup with the
    token that [discover_token] finds. *)
Theorem fetch_repo_stars_by_slug w repo token s :
  normalize_slug repo = Ok s ->
  fetch_repo_stars urlopen environ w repo token
  = fetch_repo_stars urlopen environ w s token
  ∧ fetch_repo_stars urlopen environ w repo None
    = fetch_repo_stars urlopen environ w repo (discover_token environ None)
  ∧ ∀ info w', fetch_repo_stars urlopen environ w repo token = (Ok info, w') ->
               rs_slug info = s.
Proof.
  intros Hs. rewrite !fetch_repo_stars_eq.
  destruct (normalize_slug_again _ _ Hs) as [_ ->]. rewrite Hs.
  split; [done|]. split.
  - unfold token_or_discovered. by destruct (discover_token environ None).
  - intros info w'. destruct (urlopen w _) as [[data|err|reason|e] w''];
      cbn [lookup_result]; by intros [= <- _].
Qed.

(** X8: an empty string given as the token is not replaced by a token of
    the environment and is not sent: the lookup is the one of a process
    whose environment has no token at all. *)
Theorem empty_token_is_anonymous w repo :
  fetch_repo_stars urlopen environ w repo (Some [])
  = fetch_repo_stars urlopen [] w repo None.
Proof. rewrite !fetch_repo_stars_eq. reflexivity. Qed.

(** X9: what [_handle_error] raises.  A body that is JSON but no object
    gives the [AttributeError] of [data.get]; then a reset header that
    [str.isdigit] accepts and [int] rejects gives the exception of [int].
    Apart from these two, a status other than 403 gives a
    [GitHubAPIError] whose text is the message and the status; the status
    403 gives the [AttributeError] of [message.lower()] for a message
    that is no string, a [RateLimitError] with the message and the value
    of the header for a message that has [rate limit] in some case, and
    the [GitHubAPIError] otherwise.  The message is the one of the body
    when that has a true one, and [str(error)] when it has not. *)
Theorem handle_error_classification err :
  (body err = NotObject -> _handle_error err = AttributeError)
  ∧ (∀ m e, body err = Object m -> error_reset_at err = Raise e ->
       _handle_error err = e
       ∧ ∃ h, reset_header err = Some h ∧ h ≠ [] ∧ str_isdigit h = true
              ∧ int_of_str h = Raise e)
  ∧ (∀ m reset_at, body err = Object m -> error_reset_at err = Ok reset_at ->
       (code err ≠ 403 ->
        _handle_error err
        = GitHubAPIError (error_message err ++ lit " (HTTP "
                          ++ of_Z (code err) ++ lit ")"))
       ∧ (code err = 403 -> (∃ text, m = Value text) ->
          _handle_error err = AttributeError)
       ∧ (code err = 403 -> (∀ text, m ≠ Value text) ->
          if contains (lit "rate limit") (str_lower (error_message err))
          then _handle_error err = RateLimitError (error_message err) reset_at
          else _handle_error err
               = GitHubAPIError (error_message err ++ lit " (HTTP "
                                 ++ of_Z (code err) ++ lit ")")))
  ∧ (∀ c s, body err = Object (Text (c :: s)) -> error_message err = c :: s)
  ∧ (∀ text, body err = Object (Value text) -> error_message err = text)
  ∧ (body err = Object NoMessage ∨ body err = Object (Text []) ->
     error_message err = error_str err)
  ∧ (is_api_error (_handle_error err) = true
     ∨ _handle_error err = AttributeError
     ∨ ∃ h, reset_header err = Some h ∧ h ≠ [] ∧ str_isdigit h = true
            ∧ int_of_str h = Raise (_handle_error err)).
Proof.
  assert (Hint : ∀ e, error_reset_at err = Raise e ->
            ∃ h, reset_header err = Some h ∧ h ≠ [] ∧ str_isdigit h = true
                 ∧ int_of_str h = Raise e).
  { intros e He. unfold error_reset_at in He.
    destruct (reset_header err) as [h|]; [|done].
    destruct (truthy h) eqn:Hh; [|done]. cbn [andb] in He.
    destruct (str_isdigit h) eqn:Hd; [|done].
    exists h. apply truthy_nonempty in Hh.
    destruct (int_of_str h); [done|]. by injection He as ->. }
  unfold _handle_error, error_message.
  split; [by intros ->|].
  split; [intros m e -> He; rewrite He; by auto|].
  split.
  { intros m reset_at -> ->. split; [|split].
    - intros Hcode. by rewrite (proj2 (Z.eqb_neq _ _) Hcode).
    - intros -> [text ->]. done.
    - intros -> Hm. cbn [Z.eqb Pos.eqb].
      destruct m as [|s|text]; [| |by destruct (Hm text)];
        by destruct (contains _ _). }
  split; [by intros c s ->|]. split; [by intros text ->|].
  split; [by intros [-> | ->]|].
  destruct (body err) as [m|]; [|by right; left].
  destruct (error_reset_at err) as [reset_at|e] eqn:Hreset.
  - destruct (code err =? 403); [|by left].
    destruct m as [|s|text]; [| |by right; left];
      destruct (contains _ _); by left.
  - right. right. by apply Hint.
Qed.

End Lookup.

Lemma fetch_repo_stars_by_slug_witness :
  fetch_repo_stars Sample.urlopen [] tt (lit "https://github.com/foo/bar/") None
  = fetch_repo_stars Sample.urlopen [] tt (lit "foo/bar") None.
Proof.
  apply (fetch_repo_stars_by_slug Sample.urlopen [] tt
           (lit "https://github.com/foo/bar/") None (lit "foo/bar")).
  reflexivity.
Defined.

Lemma handle_error_classification_witness :
  _handle_error Sample.rate_limited
  = RateLimitError (lit "API rate limit exceeded for 203.0.113.7.")
      (Some 1700000300)
  ∧ _handle_error Sample.not_found
    = GitHubAPIError (lit "Not Found (HTTP 404)")
  ∧ _handle_error Sample.listed_rate_limit = AttributeError
  ∧ _handle_error Sample.bad_gateway = AttributeError.
Proof.
  destruct (handle_error_classification Sample.rate_limited)
    as (_ & _ & Hlimit & _).
  destruct (Hlimit _ (Some 1700000300) eq_refl eq_refl) as (_ & _ & Hkind).
  destruct (handle_error_classification Sample.not_found)
    as (_ & _ & Hmissing & _).
  destruct (Hmissing _ None eq_refl eq_refl) as (Hplain & _).
  destruct (handle_error_classification Sample.listed_rate_limit)
    as (_ & _ & Hlisted & _).
  destruct (Hlisted _ None eq_refl eq_refl) as (_ & Hvalue & _).
  destruct (handle_error_classification Sample.bad_gateway) as (Hbody & _).
  split; [|split; [|split]].
  - apply Hkind; [reflexivity|discriminate].
  - apply Hplain. discriminate.
  - apply Hvalue; [reflexivity|by eexists].
  - apply Hbody. reflexivity.
Defined.

(** ** Many lookups: [fetch_many] *)

Section FetchManySteps.

Context `{PyLib} {World : Type}.
Variable urlopen : World -> Request -> reply * World.
Variable environ : list (str * str).

(** The results that the loop has are kept in front of the new ones. *)
Lemma fetch_many_loop_results w results repos token :
  fetch_many_loop urlopen environ w results repos token
  = match fetch_many_loop urlopen environ w [] repos token with
    | (Ok infos, w') => (Ok (results ++ infos), w')
    | (Raise e, w') => (Raise e, w')
    end.
Proof.
  revert w results. induction repos as [|repo rest IH]; intros w results.
  { cbn [fetch_many_loop]. by rewrite app_nil_r. }
  cbn [fetch_many_loop].
  destruct (fetch_repo_stars urlopen environ w repo token) as [[info|e] w'];
    [|done].
  rewrite (IH w' (results ++ [info])), (IH w' ([] ++ [info])).
  destruct (fetch_many_loop urlopen environ w' [] rest token) as [[infos|e] w''];
    [|done].
  by rewrite <- app_assoc.
Qed.

Lemma fetch_many_loop_app w pre post token :
  fetch_many_loop urlopen environ w [] (pre ++ post) token
  = match fetch_many_loop urlopen environ w [] pre token with
    | (Ok infos, w') =>
        match fetch_many_loop urlopen environ w' [] post token with
        | (Ok infos', w'') => (Ok (infos ++ infos'), w'')
        | (Raise e, w'') => (Raise e, w'')
        end
    | (Raise e, w') => (Raise e, w')
    end.
Proof.
  revert w. induction pre as [|repo pre IH]; intros w.
  { cbn [app fetch_many_loop].
    by destruct (fetch_many_loop urlopen environ w [] post token) as [[?|?] ?]. }
  cbn [app fetch_many_loop].
  destruct (fetch_repo_stars urlopen environ w repo token) as [[info|e] w'];
    [|done].
  rewrite (fetch_many_loop_results w' ([] ++ [info]) (pre ++ post)).
  rewrite (fetch_many_loop_results w' ([] ++ [info]) pre).
  rewrite IH.
  destruct (fetch_many_loop urlopen environ w' [] pre token) as [[infos|e] w''];
    [|done].
  destruct (fetch_many_loop urlopen environ w'' [] post token)
    as [[infos'|e] w3]; [|done].
  by rewrite <- app_assoc.
Qed.

Lemma fetch_many_loop_slugs w repos token infos w' :
  fetch_many_loop urlopen environ w [] repos token = (Ok infos, w') ->
  Forall2 (fun repo info => normalize_slug repo = Ok (rs_slug info)) repos infos.
Proof.
  revert w infos. induction repos as [|repo rest IH]; intros w infos.
  { cbn [fetch_many_loop]. intros [= <- _]. constructor. }
  cbn [fetch_many_loop].
  destruct (fetch_repo_stars urlopen environ w repo token) as [[info|e] w1]
    eqn:Hfirst; [|done].
  rewrite fetch_many_loop_results.
  destruct (fetch_many_loop urlopen environ w1 [] rest token)
    as [[infos'|e] w2] eqn:Hrest; [|done].
  intros [= <- <-]. cbn [app]. constructor; [|by eapply IH].
  rewrite fetch_repo_stars_eq in Hfirst.
  destruct (normalize_slug repo) as [s|]; [|done].
  destruct (urlopen w _) as [[data|err|reason|e] w4];
    cbn [lookup_result] in Hfirst; revert Hfirst; by intros [= <- _].
Qed.

End FetchManySteps.

Section FetchMany.

Context `{PyLib} {World : Type}.
Variable urlopen : World -> Request -> reply * World.
Variable environ : list (str * str).

(** X10: [fetch_many] on two lists, one after the other, is [fetch_many]
    on the first list and then, if that returned, on the second, in the
    state that the first left.  So the lookups stop at the first one that
    fails: its exception is the result, the results before it are lost
    and the repositories after it are not looked up. *)
Theorem fetch_many_app w pre post token :
  fetch_many urlopen environ w (pre ++ post) token
  = match fetch_many urlopen environ w pre token with
    | (Ok infos, w') =>
        match fetch_many urlopen environ w' post token with
        | (Ok infos', w'') => (Ok (infos ++ infos'), w'')
        | (Raise e, w'') => (Raise e, w'')
        end
    | (Raise e, w') => (Raise e, w')
    end.
Proof. unfold fetch_many. apply fetch_many_loop_app. Qed.

(** X11: when [fetch_many] returns, it has one result for each
    repository, in the order of the repositories, and the slug of each
    result is the normalised slug of its repository; so nothing is
    returned when one of the repositories is not valid.  The token is
    discovered once: on a network that keeps its requests, the new
    requests are the lookups of the slugs, in order, all with the token
    given or discovered. *)
Theorem fetch_many_results w log repos token infos w' log' :
  fetch_many (logged urlopen) environ (w, log) repos token
  = (Ok infos, (w', log')) ->
  Forall2 (fun repo info => normalize_slug repo = Ok (rs_slug info)) repos infos
  ∧ fetch_many urlopen environ w repos token = (Ok infos, w')
  ∧ log' = log ++ ((fun info =>
                      lookup_request (rs_slug info)
                        (token_or_discovered environ token)) <$> infos).
Proof.
  unfold fetch_many. fold (token_or_discovered environ token).
  set (tok := token_or_discovered environ token).
  assert (Htok : token_or_discovered environ tok = tok).
  { subst tok. unfold token_or_discovered.
    destruct token; [done|]. by destruct (discover_token environ). }
  intros Hmany. split; [by eapply fetch_many_loop_slugs|].
  revert w log infos Hmany. induction repos as [|repo rest IH];
    intros w log infos.
  { cbn [fetch_many_loop]. intros [= <- <- <-]. by rewrite app_nil_r. }
  cbn [fetch_many_loop].
  rewrite fetch_repo_stars_logged, Htok.
  pose proof (fetch_many_loop_slugs urlopen environ w [repo] tok) as Hslug.
  cbn [fetch_many_loop] in Hslug.
  destruct (fetch_repo_stars urlopen environ w repo tok) as [[info|e] w1];
    [|done].
  specialize (Hslug _ _ eq_refl). apply Forall2_cons_1 in Hslug as [-> _].
  rewrite (fetch_many_loop_results (logged urlopen)),
    (fetch_many_loop_results urlopen).
  destruct (fetch_many_loop (logged urlopen) environ _ [] rest tok)
    as [[infos'|e] [w2 log2]] eqn:Hrest; [|done].
  intros [= <- <- <-].
  destruct (IH _ _ _ Hrest) as [-> ->].
  split; [done|]. cbn [app fmap list_fmap]. by rewrite <- app_assoc.
Qed.

End FetchMany.

Lemma fetch_many_results_witness :
  fetch_many Sample.urlopen [(lit "GH_PAT", lit "good")] tt
    [lit "https://github.com/foo/bar"; lit "a/b"] None
  = (Ok [mkRepoStars (lit "foo/bar") 12345 (lit "https://github.com/foo/bar")
           None;
         mkRepoStars (lit "a/b") 12345 (lit "https://github.com/a/b") None],
     tt).
Proof.
  apply (fetch_many_results Sample.urlopen [(lit "GH_PAT", lit "good")] tt []
           [lit "https://github.com/foo/bar"; lit "a/b"] None _ tt
           [lookup_request (lit "foo/bar") (Some (lit "good"));
            lookup_request (lit "a/b") (Some (lit "good"))]).
  reflexivity.
Defined.

(** ** The pass over the entries: [fetch_star_data] *)

Lemma same_repo_refl e : same_repo e e.
Proof. by repeat split. Qed.

Lemma same_repo_set_stars e n : same_repo e (set_stars e n).
Proof. by repeat split. Qed.

Section PassSteps.

Context `{PyLib} {World : Type}.
Variable urlopen : World -> Request -> reply * World.
Variable environ : list (str * str).

(** The entry that the loop of one entry returns is the entry with its
    stars set. *)
Lemma fetch_entry_frame fuel w tokens i entry w' i' entry' :
  fetch_entry urlopen environ fuel w tokens i entry = Some (w', i', Ok entry') ->
  same_repo entry entry' ∧ is_Some (stars entry').
Proof.
  revert w i w' i'. induction fuel as [|fuel IH]; intros w i w' i'; [done|].
  cbn [fetch_entry].
  destruct (fetch_repo_stars urlopen environ w (slug entry) (token_at tokens i))
    as [[info|err] w1].
  { intros [= _ _ <-]. split; [apply same_repo_set_stars|by eexists]. }
  destruct (is_api_error err); [|done].
  destruct (contains (lit "Not Found") _).
  { intros [= _ _ <-]. split; [apply same_repo_set_stars|by eexists]. }
  destruct (_ && _); [apply IH|done].
Qed.

Lemma fetch_entries_frame w tokens i entries w' i' entries' r :
  fetch_entries urlopen environ w tokens i entries = Some (w', i', entries', r) ->
  Forall2 same_repo entries entries'
  ∧ match r with
    | Ok _ => Forall (fun e => is_Some (stars e)) entries'
    | Raise _ =>
        ∃ before before' rest,
          entries = before ++ rest ∧ entries' = before' ++ rest ∧ rest ≠ []
          ∧ Forall (fun e => is_Some (stars e)) before'
    end.
Proof.
  revert w i w' i' entries' r. induction entries as [|entry rest IH];
    intros w i w' i' entries' r.
  { cbn [fetch_entries]. intros [= _ _ <- <-]. split; constructor. }
  cbn [fetch_entries].
  destruct (fetch_entry urlopen environ _ w tokens i entry)
    as [[[w1 i1] [entry1|err]]|] eqn:Hentry; [| |done].
  - destruct (fetch_entries urlopen environ w1 tokens i1 rest)
      as [[[[w2 i2] rest2] r2]|] eqn:Hrest; [|done].
    intros [= _ _ <- <-].
    apply fetch_entry_frame in Hentry as [Hsame Hstars].
    apply IH in Hrest as [Hframe Hr].
    split; [by constructor|]. destruct r2 as [[]|e]; [by constructor|].
    destruct Hr as (before & before' & rest' & -> & -> & Hne & Hbefore).
    exists (entry :: before), (entry1 :: before'), rest'.
    repeat split; [done|by constructor].
  - intros [= _ _ <- <-]. split.
    + apply Forall2_same_length_lookup. split; [done|].
      intros k x y Hx Hy. rewrite Hx in Hy. injection Hy as <-.
      apply same_repo_refl.
    + by exists [], [], (entry :: rest).
Qed.

End PassSteps.

Section PassRequests.

Context `{PyLib} {World : Type}.
Variable urlopen : World -> Request -> reply * World.
Variable environ : list (str * str).

(** The requests of the loop of one entry: none when the slug is not
    valid, and else one for each token from the index at which the loop
    starts to the index at which it ends, in this order. *)
Lemma fetch_entry_requests fuel w log tokens i entry w' log' i' r :
  fetch_entry (logged urlopen) environ fuel (w, log) tokens i entry
  = Some ((w', log'), i', r) ->
  fetch_entry urlopen environ fuel w tokens i entry = Some (w', i', r)
  ∧ (i <= i')%nat
  ∧ log' = log ++
      match normalize_slug (slug entry) with
      | Ok s =>
          (fun j => lookup_request s
                      (token_or_discovered environ (token_at tokens j)))
          <$> seq i (S (i' - i))
      | Raise _ => []
      end.
Proof.
  revert w log i w' log' i' r.
  induction fuel as [|fuel IH]; intros w log i w' log' i' r; [done|].
  cbn [fetch_entry]. rewrite fetch_repo_stars_logged.
  destruct (fetch_repo_stars urlopen environ w (slug entry) (token_at tokens i))
    as [[info|err] w1].
  { intros [= <- <- <- <-]. split; [done|]. split; [done|].
    rewrite Nat.sub_diag. by destruct (normalize_slug (slug entry)). }
  assert (Hstay : log ++ match normalize_slug (slug entry) with
                         | Ok s =>
                             [lookup_request s
                                (token_or_discovered environ
                                   (token_at tokens i))]
                         | Raise _ => []
                         end
                  = log ++ match normalize_slug (slug entry) with
                           | Ok s =>
                               (fun j => lookup_request s
                                  (token_or_discovered environ
                                     (token_at tokens j)))
                               <$> seq i (S (i - i))
                           | Raise _ => []
                           end).
  { rewrite Nat.sub_diag. by destruct (normalize_slug (slug entry)). }
  destruct (is_api_error err) eqn:Hapi.
  2: { intros [= <- <- <- <-]. by rewrite <- Hstay. }
  destruct (contains (lit "Not Found") _).
  { intros [= <- <- <- <-]. by rewrite <- Hstay. }
  destruct (_ && _).
  2: { intros [= <- <- <- <-]. by rewrite <- Hstay. }
  intros (Hrun & Hle & ->)%IH. split; [done|]. split; [lia|].
  destruct (normalize_slug (slug entry)) as [s|e].
  - rewrite <- app_assoc. f_equal.
    replace (S (i' - i)) with (S (S (i' - (i + 1)))) by lia.
    cbn [seq fmap list_fmap app]. by rewrite Nat.add_1_r.
  - by rewrite !app_nil_r.
Qed.

Lemma fetch_entries_requests w log tokens i entries w' log' i' entries' r :
  fetch_entries (logged urlopen) environ (w, log) tokens i entries
  = Some ((w', log'), i', entries', r) ->
  fetch_entries urlopen environ w tokens i entries = Some (w', i', entries', r)
  ∧ (i <= i')%nat
  ∧ ∃ new, log' = log ++ new
      ∧ (length new <= length entries + (i' - i))%nat
      ∧ Forall (fun request =>
                  ∃ e s, e ∈ entries ∧ normalize_slug (slug e) = Ok s
                         ∧ req_url request
                           = lit "https://api.github.com/repos/" ++ s) new.
Proof.
  revert w log i w' log' i' entries' r. induction entries as [|entry rest IH];
    intros w log i w' log' i' entries' r.
  { cbn [fetch_entries]. intros [= <- <- <- <- <-]. split; [done|].
    split; [done|]. exists []. rewrite app_nil_r. repeat split; [simpl; lia|].
    constructor. }
  cbn [fetch_entries].
  destruct (fetch_entry (logged urlopen) environ _ (w, log) tokens i entry)
    as [[[[w1 log1] i1] r1]|] eqn:Hentry; [|done].
  apply fetch_entry_requests in Hentry as (-> & Hle1 & ->).
  assert (Hnew1 : ∃ new1,
            match normalize_slug (slug entry) with
            | Ok s =>
                (fun j => lookup_request s
                            (token_or_discovered environ (token_at tokens j)))
                <$> seq i (S (i1 - i))
            | Raise _ => []
            end = new1
            ∧ (length new1 <= 1 + (i1 - i))%nat
            ∧ Forall (fun request =>
                        ∃ e s, e ∈ entry :: rest
                               ∧ normalize_slug (slug e) = Ok s
                               ∧ req_url request
                                 = lit "https://api.github.com/repos/" ++ s)
                new1).
  { eexists. split; [done|].
    destruct (normalize_slug (slug entry)) as [s|e] eqn:Hs.
    - split; [by rewrite length_fmap, length_seq|].
      apply Forall_fmap, Forall_forall. intros j _.
      exists entry, s. split; [apply list_elem_of_here|done].
    - split; [simpl; lia|constructor]. }
  destruct Hnew1 as (new1 & -> & Hlen1 & Hall1).
  destruct r1 as [entry1|err].
  2: { intros [= <- <- <- <- <-]. split; [done|]. split; [done|].
       exists new1. split; [done|]. split; [simpl; lia|done]. }
  destruct (fetch_entries (logged urlopen) environ _ tokens i1 rest)
    as [[[[[w2 log2] i2] rest2] r2]|] eqn:Hrest; [|done].
  apply IH in Hrest as (-> & Hle2 & new2 & -> & Hlen2 & Hall2).
  intros [= <- <- <- <- <-]. split; [done|]. split; [lia|].
  exists (new1 ++ new2). split; [by rewrite app_assoc|].
  split; [rewrite length_app; simpl; lia|].
  apply Forall_app. split; [done|].
  eapply Forall_impl; [exact Hall2|]. intros request (e & s & He & Hs).
  exists e, s. split; [by apply list_elem_of_further|done].
Qed.

End PassRequests.

Section Pass.

Context `{PyLib} {World : Type}.
Variable urlopen : World -> Request -> reply * World.
Variable environ : list (str * str).
Variable clock : World -> Z.

(** X12: [fetch_star_data] changes nothing of an entry but its stars, and
    keeps the number and the order of the entries.  When the pass ends
    without an exception every entry has a star count; when an exception
    ends it, the entries before the failing one have a star count and the
    failing one and those after it are as they were. *)
Theorem fetch_star_data_frame w entries tokens w' entries' r :
  fetch_star_data urlopen environ w entries tokens = Some (w', entries', r) ->
  Forall2 same_repo entries entries'
  ∧ match r with
    | Ok _ => Forall (fun e => is_Some (stars e)) entries'
    | Raise _ =>
        ∃ before before' rest,
          entries = before ++ rest ∧ entries' = before' ++ rest ∧ rest ≠ []
          ∧ Forall (fun e => is_Some (stars e)) before'
    end.
Proof.
  unfold fetch_star_data.
  destruct (fetch_entries urlopen environ w _ 0 entries)
    as [[[[w1 i1] entries1] r1]|] eqn:Hpass; [|done].
  intros [= <- <- <-]. by eapply fetch_entries_frame.
Qed.

(** X13: on a network that keeps its requests, a pass sends at most one
    request for each entry and one more for each token after the first:
    a token that was given up is never tried again.  Every request is the
    lookup of the slug of one of the entries, and keeping the requests
    does not change the pass. *)
Theorem fetch_star_data_requests w log entries tokens w' log' entries' r :
  fetch_star_data (logged urlopen) environ (w, log) entries tokens
  = Some ((w', log'), entries', r) ->
  fetch_star_data urlopen environ w entries tokens = Some (w', entries', r)
  ∧ ∃ new, log' = log ++ new
      ∧ (length new <= length entries + (length tokens - 1))%nat
      ∧ Forall (fun request =>
                  ∃ e s, e ∈ entries ∧ normalize_slug (slug e) = Ok s
                         ∧ req_url request
                           = lit "https://api.github.com/repos/" ++ s) new.
Proof.
  unfold fetch_star_data.
  set (tokens' := match tokens with [] => [None] | _ => tokens end).
  assert (0 < length tokens')%nat as Hpos.
  { subst tokens'. destruct tokens; simpl; lia. }
  assert (length tokens' - 1 = length tokens - 1)%nat as Hlen.
  { subst tokens'. by destruct tokens. }
  destruct (fetch_entries (logged urlopen) environ (w, log) tokens' 0 entries)
    as [[[[[w1 log1] i1] entries1] r1]|] eqn:Hpass; [|done].
  intros [= <- <- <- <-].
  apply fetch_entries_requests in Hpass as (Hrun & _ & new & -> & Hnew & Hall).
  rewrite Hrun. split; [done|].
  destruct (fetch_entries_total urlopen environ w tokens' 0 entries Hpos)
    as (w2 & i2 & entries2 & r2 & Hrun' & Hi2).
  rewrite Hrun in Hrun'. injection Hrun' as <- <- <- <-.
  exists new. split; [done|]. split; [lia|done].
Qed.


End Pass.

Lemma fetch_star_data_frame_witness :
  fetch_star_data Sample.urlopen [] tt
    [Sample.entry "gone/repo"; Sample.entry "busy/repo"; Sample.entry "foo/bar"]
    []
  = Some (tt, [set_stars (Sample.entry "gone/repo") 0;
               Sample.entry "busy/repo"; Sample.entry "foo/bar"],
          Raise (RateLimitError
                   (lit "API rate limit exceeded for 203.0.113.7.")
                   (Some 1700000300)))
  ∧ Forall2 same_repo
      [Sample.entry "gone/repo"; Sample.entry "busy/repo";
       Sample.entry "foo/bar"]
      [set_stars (Sample.entry "gone/repo") 0;
       Sample.entry "busy/repo"; Sample.entry "foo/bar"].
Proof.
  split; [reflexivity|].
  apply (fetch_star_data_frame Sample.urlopen [] tt
           [Sample.entry "gone/repo"; Sample.entry "busy/repo";
            Sample.entry "foo/bar"] [] tt
           [set_stars (Sample.entry "gone/repo") 0;
            Sample.entry "busy/repo"; Sample.entry "foo/bar"]
           (Raise (RateLimitError
                     (lit "API rate limit exceeded for 203.0.113.7.")
                     (Some 1700000300)))).
  reflexivity.
Defined.

Lemma fetch_star_data_requests_witness :
  fetch_star_data Sample.urlopen [] tt
    [Sample.entry "foo/bar"; Sample.entry "a/b"]
    [Some (lit "bad"); Some (lit "good")]
  = Some (tt, [set_stars (Sample.entry "foo/bar") 12345;
               set_stars (Sample.entry "a/b") 12345], Ok tt).
Proof.
  eapply (fetch_star_data_requests Sample.urlopen [] tt []
            [Sample.entry "foo/bar"; Sample.entry "a/b"]
            [Some (lit "bad"); Some (lit "good")] tt).
  vm_compute. reflexivity.
Defined.

(** ** Failures of the network, from the lookup to the end of [main] *)

(** The words that the pass looks for are not in the text that
    [_request_json] puts before the reason of a network failure. *)
Lemma network_error_words reason :
  contains (lit "Not Found")
    (lit "Network error: <urlopen error " ++ reason ++ lit ">")
  = contains (lit "Not Found") reason
  ∧ contains (lit "Bad credentials")
      (lit "Network error: <urlopen error " ++ reason ++ lit ">")
    = contains (lit "Bad credentials") reason.
Proof.
  split.
  - rewrite <- (contains_snoc (lit "Not Found") reason (chr ">"));
      [reflexivity| |done].
    apply (bool_decide_unpack _). by vm_compute.
  - rewrite <- (contains_snoc (lit "Bad credentials") reason (chr ">"));
      [reflexivity| |done].
    apply (bool_decide_unpack _). by vm_compute.
Qed.

Section Failures.

Context `{PyLib} {World : Type}.
Variable urlopen : World -> Request -> reply * World.
Variable environ : list (str * str).
Variable clock : World -> Z.

(** The token of the first lookup of [main]. *)
Lemma first_token :
  token_or_discovered environ
    (token_at (match Some <$> discover_tokens environ None with
               | [] => [None]
               | _ => Some <$> discover_tokens environ None
               end) 0)
  = discover_token environ None.
Proof.
  unfold token_or_discovered, discover_token.
  by destruct (discover_tokens environ None) as [|t ts].
Qed.

(** X15: a network failure at the first lookup ends the run.  When the
    reason of the failure has neither [Not Found] nor [Bad credentials],
    [main] ends with the [GitHubAPIError] that [_request_json] makes of
    it, whose text is [Network error: <urlopen error REASON>], after this
    one request: no entry gets stars and no report is written. *)
Theorem network_error_ends_run w markdown entry rest reason w' :
  parse_repos markdown = Ok (entry :: rest) ->
  urlopen w (lookup_request (slug entry) (discover_token environ None))
  = (URLErr reason, w') ->
  contains (lit "Not Found") reason = false ->
  contains (lit "Bad credentials") reason = false ->
  main urlopen environ clock w markdown
  = Some (w', Uncaught (GitHubAPIError
                          (lit "Network error: <urlopen error " ++ reason
                           ++ lit ">"))).
Proof.
  intros Hparse Hopen Hnf Hbc. unfold main, fetch_star_data. rewrite Hparse.
  set (tokens := match Some <$> discover_tokens environ None with
                 | [] => [None]
                 | _ => Some <$> discover_tokens environ None
                 end).
  assert (0 < length tokens)%nat as Hpos.
  { subst tokens. destruct (discover_tokens environ None); simpl; lia. }
  assert (Hlookup :
            fetch_repo_stars urlopen environ w (slug entry) (token_at tokens 0)
            = (Raise (GitHubAPIError
                        (lit "Network error: <urlopen error " ++ reason
                         ++ lit ">")), w')).
  { rewrite fetch_repo_stars_eq. rewrite normalize_slug_shape.
    - subst tokens. by rewrite first_token, Hopen.
    - apply parse_repos_inv in Hparse as [Hshape _].
      by apply Forall_cons in Hshape as [? _]. }
  cbn [fetch_entries]. rewrite (fuel_succ tokens 0 Hpos).
  rewrite (fetch_entry_raise _ _ _ _ _ _ _ _ _ Hlookup).
  cbn [is_api_error api_error_str].
  destruct (network_error_words reason) as [-> ->]. by rewrite Hnf, Hbc.
Qed.

Hypothesis no_403 : ∀ w request err w',
  urlopen w request = (HTTPErr err, w') -> code err ≠ 403.
Hypothesis other_errors : ∀ w request e w',
  urlopen w request = (OtherErr e, w') -> is_api_error e = false.
Hypothesis int_errors : ∀ h e, int_of_str h = Raise e -> is_api_error e = false.
Hypothesis urlparse_errors :
  ∀ u e, urlparse u = Raise e -> is_api_error e = false.

Lemma not_api_not_rate_limit e : is_api_error e = false -> is_rate_limit e = false.
Proof. by destruct e. Qed.

Lemma normalize_slug_no_rate_limit repo e :
  normalize_slug repo = Raise e -> is_rate_limit e = false.
Proof using urlparse_errors.
  unfold normalize_slug. destruct (contains (lit "://") repo).
  - destruct (urlparse repo) as [[netloc path]|e0] eqn:Hparse;
      cbn [mbind res_bind].
    2: { intros [= <-]. by eapply not_api_not_rate_limit, urlparse_errors. }
    destruct (negb _); [by intros [= <-]|].
    destruct (_ <? 2)%nat; [|done]. by intros [= <-].
  - destruct (negb _); [|done]. by intros [= <-].
Qed.

Lemma lookup_no_rate_limit w repo token e w' :
  fetch_repo_stars urlopen environ w repo token = (Raise e, w') ->
  is_rate_limit e = false.
Proof using no_403 other_errors int_errors urlparse_errors.
  rewrite fetch_repo_stars_eq.
  destruct (normalize_slug repo) as [s|e0] eqn:Hs.
  2: { intros [= <- _]. by apply normalize_slug_no_rate_limit in Hs. }
  destruct (urlopen w _) as [[data|err|reason|e0] w1] eqn:Hopen;
    cbn [lookup_result]; [done| | |]; intros [= <- _]; [|done|].
  - apply no_403 in Hopen. unfold _handle_error.
    destruct (body err) as [m|]; [|done].
    destruct (error_reset_at err) as [reset_at|e0] eqn:Hreset.
    + by rewrite (proj2 (Z.eqb_neq _ _) Hopen).
    + apply not_api_not_rate_limit. unfold error_reset_at in Hreset.
      destruct (reset_header err) as [h|]; [|done].
      destruct (_ && _); [|done].
      destruct (int_of_str h) eqn:Hint; [done|]. injection Hreset as <-.
      by eapply int_errors.
  - apply not_api_not_rate_limit. by eapply other_errors.
Qed.

Lemma fetch_entry_no_rate_limit fuel w tokens i entry w' i' e :
  fetch_entry urlopen environ fuel w tokens i entry = Some (w', i', Raise e) ->
  is_rate_limit e = false.
Proof using no_403 other_errors int_errors urlparse_errors.
  revert w i. induction fuel as [|fuel IH]; intros w i; [done|].
  cbn [fetch_entry].
  destruct (fetch_repo_stars urlopen environ w (slug entry) (token_at tokens i))
    as [[info|err] w1] eqn:Hlookup; [done|].
  apply lookup_no_rate_limit in Hlookup.
  destruct (is_api_error err); [|by intros [= _ _ <-]].
  destruct (contains (lit "Not Found") _); [done|].
  destruct (_ && _); [apply IH|by intros [= _ _ <-]].
Qed.

Lemma fetch_entries_no_rate_limit w tokens i entries w' i' entries' e :
  fetch_entries urlopen environ w tokens i entries
  = Some (w', i', entries', Raise e) ->
  is_rate_limit e = false.
Proof using no_403 other_errors int_errors urlparse_errors.
  revert w i entries'. induction entries as [|entry rest IH];
    intros w i entries'; [done|].
  cbn [fetch_entries].
  destruct (fetch_entry urlopen environ _ w tokens i entry)
    as [[[w1 i1] [entry1|err]]|] eqn:Hentry; [| |done].
  - destruct (fetch_entries urlopen environ w1 tokens i1 rest)
      as [[[[w2 i2] rest2] r2]|] eqn:Hrest; [|done].
    intros [= <- <- <- ->]. by eapply IH.
  - intros [= _ _ _ <-]. by eapply fetch_entry_no_rate_limit.
Qed.

(** X16: the handler of [RateLimitError] in [main] (lines 154 and 155),
    which ends the run with [SystemExit] and the rate-limit message, is
    entered only after a reply with the status 403.  On a network that
    never gives this status (and on which the other failures, like those
    of [int] and [urlparse], are not API errors), no lookup raises
    [RateLimitError], whatever the messages of the replies say, the pass
    of [fetch_star_data] ends with no such error, and the run of [main]
    from line 150 on never ends with that [SystemExit]. *)
Theorem system_exit_needs_403 :
  (∀ w repo token e w',
     fetch_repo_stars urlopen environ w repo token = (Raise e, w') ->
     is_rate_limit e = false)
  ∧ (∀ w entries tokens w' entries' e,
       fetch_star_data urlopen environ w entries tokens
       = Some (w', entries', Raise e) ->
       is_rate_limit e = false)
  ∧ (∀ w markdown w' o,
       main urlopen environ clock w markdown = Some (w', o) ->
       system_exit o = None).
Proof using no_403 other_errors int_errors urlparse_errors.
  split; [exact lookup_no_rate_limit|]. split.
  - intros w entries tokens w' entries' e. unfold fetch_star_data.
    destruct (fetch_entries urlopen environ w _ 0 entries)
      as [[[[w1 i1] entries1] r]|] eqn:Hpass; [|done].
    intros [= _ _ ->]. by eapply fetch_entries_no_rate_limit.
  - intros w markdown w' o. unfold main, fetch_star_data.
    destruct (parse_repos markdown) as [entries|e]; [|by intros [= _ <-]].
    destruct (fetch_entries urlopen environ w _ 0 entries)
      as [[[[w1 i1] entries1] [[]|e]]|] eqn:Hpass; [| |done].
    + destruct (sorted_report entries1); by intros [= _ <-].
    + apply fetch_entries_no_rate_limit in Hpass.
      destruct e; try by intros [= _ <-]. done.
Qed.

End Failures.

(** A network that is down, and one on which no repository exists. *)
Lemma network_error_ends_run_witness :
  main (fun (w : unit) (_ : Request) => (URLErr (lit "timed out"), w)) []
    Sample.clock tt Sample.document
  = Some (tt, Uncaught (GitHubAPIError
                          (lit "Network error: <urlopen error timed out>"))).
Proof.
  apply (network_error_ends_run
           (fun (w : unit) (_ : Request) => (URLErr (lit "timed out"), w)) []
           Sample.clock tt Sample.document Sample.foo_bar [] (lit "timed out")
           tt); reflexivity.
Defined.

Lemma system_exit_needs_403_witness :
  fetch_repo_stars Sample.misfiled_urlopen [] tt (lit "foo/bar") None
  = (Raise (GitHubAPIError (lit "API rate limit exceeded (HTTP 404)")), tt)
  ∧ is_rate_limit (GitHubAPIError (lit "API rate limit exceeded (HTTP 404)"))
    = false
  ∧ main Sample.misfiled_urlopen [] Sample.clock tt Sample.document
    = Some (tt, Uncaught (GitHubAPIError
                            (lit "API rate limit exceeded (HTTP 404)")))
  ∧ system_exit (Uncaught (GitHubAPIError
                             (lit "API rate limit exceeded (HTTP 404)")))
    = None.
Proof.
  assert (Hint : ∀ h e, int_of_str h = Raise e -> is_api_error e = false).
  { intros h e. simpl. unfold Ascii_lib.to_int.
    destruct (Ascii_lib.isdigit h); [discriminate|]. by intros [= <-]. }
  assert (Hurl : ∀ u e, urlparse u = Raise e -> is_api_error e = false).
  { intros u e. simpl. unfold Ascii_lib.ascii_urlparse.
    destruct (starts_with _ _); [|discriminate].
    destruct (Ascii_lib.cut_at _ _) as [netloc url].
    destruct (xorb _ _); [|discriminate]. by intros [= <-]. }
  destruct (system_exit_needs_403 Sample.misfiled_urlopen [] Sample.clock)
    as (Hlookup & _ & Hmain); [..|exact Hint|exact Hurl|].
  - unfold Sample.misfiled_urlopen. intros w request err w' [= <- _].
    discriminate.
  - unfold Sample.misfiled_urlopen. intros w request e w' [=].
  - split; [reflexivity|]. split.
    + apply (Hlookup tt (lit "foo/bar") None _ tt). reflexivity.
    + split; [reflexivity|].
      apply (Hmain tt Sample.document tt). reflexivity.
Defined.


(** ** Lines that [parse_repos] cannot read, and lines that it passes over *)

Lemma index_first_piece sep s : ∃ a, index (split sep s) 0 = Ok a.
Proof.
  pose proof (split_nonempty sep s). unfold index.
  destruct (split sep s) as [|a rest]; [done|]. by exists a.
Qed.

(** The slug of a bullet is not computed exactly when the matched URL
    does not have the text [github.com/]: the pattern of the bullet lets
    any character stand for the dot. *)
Lemma bullet_slug_raises url e :
  bullet_slug url = Raise e ↔
  e = IndexError ∧ contains (lit "github.com/") url = false.
Proof.
  unfold bullet_slug.
  pose proof (split_length (lit "github.com/") url ltac:(done)) as Hlen.
  destruct (contains (lit "github.com/") url).
  - split; [|by intros [_ ?]].
    destruct (split (lit "github.com/") url) as [|a [|after rest]];
      [simpl in Hlen; lia..|].
    change (index (a :: after :: rest) 1) with (Ok after).
    cbn [mbind res_bind].
    destruct (index_first_piece (lit "/?") after) as [x ->].
    cbn [mbind res_bind].
    destruct (index_first_piece (lit "#") x) as [y ->].
    cbn [mbind res_bind]. by destruct (_ <? 2)%nat.
  - rewrite Hlen. cbn [index lookup list_lookup mbind res_bind].
    split; [by intros [= <-]|by intros [-> _]].
Qed.

(** X17: a line makes [parse_repos] raise exactly when it is no heading,
    it matches the bullet pattern, and the URL that was matched does not
    have the text [github.com/], which the unescaped dot of the pattern
    allows; the exception is then [IndexError], raised by the subscript 1
    of line 76. *)
Theorem parse_line_raises st raw e :
  parse_line st raw = Raise e ↔
  e = IndexError
  ∧ ∃ m, rmatch header_re (strip raw) = None
      ∧ rmatch bullet_re (strip raw) = Some m
      ∧ contains (lit "github.com/") (group 2 m) = false.
Proof.
  unfold parse_line.
  destruct (rmatch header_re (strip raw)) as [m|].
  { split; [done|]. by intros (_ & m' & ? & _). }
  destruct (rmatch bullet_re (strip raw)) as [m|].
  2: { split; [done|]. by intros (_ & m' & _ & ? & _). }
  pose proof (bullet_slug_raises (group 2 m) e) as Hraise.
  destruct (bullet_slug (group 2 m)) as [[s|]|e'] eqn:Hslug;
    cbn [mbind res_bind].
  - split; [by destruct (seen st !! s)|].
    intros (-> & m' & _ & [= <-] & Hfree).
    discriminate (proj2 Hraise (conj eq_refl Hfree)).
  - split; [done|]. intros (-> & m' & _ & [= <-] & Hfree).
    discriminate (proj2 Hraise (conj eq_refl Hfree)).
  - split.
    + intros [= ->]. destruct (proj1 Hraise eq_refl) as [-> Hfree].
      split; [done|]. by exists m.
    + intros (-> & m' & _ & [= <-] & Hfree).
      by injection (proj2 Hraise (conj eq_refl Hfree)) as ->.
Qed.

Lemma parse_line_raises_anywhere st st' raw e :
  parse_line st raw = Raise e -> parse_line st' raw = Raise IndexError.
Proof.
  unfold parse_line.
  destruct (rmatch header_re (strip raw)) as [m|]; [done|].
  destruct (rmatch bullet_re (strip raw)) as [m|]; [|done].
  pose proof (bullet_slug_raises (group 2 m)) as Hraise.
  destruct (bullet_slug (group 2 m)) as [[s|]|e']; cbn [mbind res_bind].
  - by destruct (seen st !! s).
  - done.
  - intros _. by destruct (proj1 (Hraise e') eq_refl) as [-> _].
Qed.

Lemma parse_line_raises_index st raw e :
  parse_line st raw = Raise e -> e = IndexError.
Proof.
  intros Hraise. pose proof (parse_line_raises_anywhere _ st _ _ Hraise).
  congruence.
Qed.

Lemma parse_lines_raise lines raw st0 e :
  raw ∈ lines -> parse_line st0 raw = Raise e ->
  ∀ st, parse_lines st lines = Raise IndexError.
Proof.
  intros Hraw Hline. induction lines as [|x lines IH]; intros st.
  { by apply elem_of_nil in Hraw. }
  cbn [parse_lines].
  destruct (parse_line st x) as [st'|e'] eqn:Hx; cbn [mbind res_bind].
  - apply elem_of_cons in Hraw as [<-|Hraw]; [|by apply IH].
    apply (parse_line_raises_anywhere _ st) in Hline. congruence.
  - by rewrite (parse_line_raises_anywhere _ st _ _ Hx) in Hx; injection Hx as <-.
Qed.

Section ParseFailure.

Context `{PyLib} {World : Type}.
Variable urlopen : World -> Request -> reply * World.
Variable environ : list (str * str).
Variable clock : World -> Z.

(** X18: one line that cannot be read is enough to lose the run:
    [parse_repos] raises [IndexError] for the whole document, whatever
    the other lines are, and [main] ends with this exception before any
    request is sent and without a report.  [IndexError] is the only
    exception of [parse_repos]. *)
Theorem parse_failure_ends_run :
  (∀ markdown e, parse_repos markdown = Raise e -> e = IndexError)
  ∧ ∀ markdown raw st e w,
      raw ∈ splitlines markdown -> parse_line st raw = Raise e ->
      parse_repos markdown = Raise IndexError
      ∧ main urlopen environ clock w markdown = Some (w, Uncaught IndexError).
Proof.
  split.
  - intros markdown e. unfold parse_repos.
    generalize (mkParser [] [] ∅). generalize (splitlines markdown).
    intros lines. induction lines as [|x lines IH]; intros st; [done|].
    cbn [parse_lines].
    destruct (parse_line st x) as [st'|e'] eqn:Hx; cbn [mbind res_bind].
    + apply IH.
    + intros [= <-]. by apply parse_line_raises_index in Hx.
  - intros markdown raw st e w Hraw Hline.
    assert (parse_repos markdown = Raise IndexError) as Hparse.
    { unfold parse_repos. by erewrite parse_lines_raise. }
    split; [done|]. unfold main. by rewrite Hparse.
Qed.

End ParseFailure.

Lemma parse_line_raises_witness :
  parse_line (mkParser [] [] ∅) (lit "- [x](https://githubxcom/foo/bar)")
  = Raise IndexError.
Proof.
  apply (proj2 (parse_line_raises (mkParser [] [] ∅)
                  (lit "- [x](https://githubxcom/foo/bar)") IndexError)).
  split; [reflexivity|]. eexists. split; [reflexivity|].
  split; [vm_compute; reflexivity|reflexivity].
Defined.

Lemma parse_failure_ends_run_witness :
  main Sample.urlopen [] Sample.clock tt
    (Sample.document ++ lit "- [x](https://github-com/foo/bar)")
  = Some (tt, Uncaught IndexError).
Proof.
  apply (proj2 (parse_failure_ends_run Sample.urlopen [] Sample.clock)
           (Sample.document ++ lit "- [x](https://github-com/foo/bar)")
           (lit "- [x](https://github-com/foo/bar)") (mkParser [] [] ∅)
           IndexError tt).
  - apply list_elem_of_In. vm_compute. do 4 right. left. reflexivity.
  - vm_compute. reflexivity.
Defined.

(** ** Lines that are passed over *)

(** A line of seven hashes or more is no heading. *)
Lemma header_seven_hashes n rest :
  (7 <= n)%nat -> rmatch header_re (replicate n (chr "#") ++ rest) = None.
Proof.
  intros Hn. destruct (rmatch _ _) as [m|] eqn:Hm; [|done]. exfalso.
  revert Hm. unfold rmatch, header_re. cbn [exec Nat.eqb].
  intros (n1 & Hn1 & Hhi & _ & Hk)%many_inv.
  specialize (Hhi _ eq_refl).
  apply many_inv in Hk as (n2 & Hn2 & _ & Hall & _).
  rewrite Forall_lookup in Hall.
  assert (take n2 (drop n1 (replicate n (chr "#") ++ rest)) !! 0%nat
          = Some (chr "#")) as Hfirst.
  { rewrite lookup_take_lt by lia. rewrite lookup_drop, Nat.add_0_r.
    rewrite lookup_app_l by (rewrite length_replicate; lia).
    apply lookup_replicate_2. lia. }
  by apply Hall in Hfirst.
Qed.

(** X19: a line that, once stripped, is empty or starts with a character
    other than a hash and a hyphen changes nothing: it is no heading and
    no bullet.  Nor is a line of seven hashes or more a heading: it is
    passed over as well. *)
Theorem prose_line_ignored st raw :
  (strip raw = []
   ∨ (∃ c t, strip raw = c :: t ∧ c ≠ chr "#" ∧ c ≠ chr "-")
   ∨ ∃ n rest, (7 <= n)%nat ∧ strip raw = replicate n (chr "#") ++ rest) ->
  parse_line st raw = Ok st.
Proof.
  unfold parse_line. intros [->|[(c & t & -> & Hhash & Hhyphen)|(n & rest & Hn & ->)]].
  - reflexivity.
  - assert (eqc "#" c = false) as Hc1 by (by apply N.eqb_neq).
    assert (eqc "-" c = false) as Hc2 by (by apply N.eqb_neq).
    unfold rmatch, header_re, bullet_re, plus.
    cbn [exec Nat.eqb many]. by rewrite Hc1, Hc2.
  - rewrite header_seven_hashes by done.
    destruct n as [|n]; [lia|]. reflexivity.
Qed.

Lemma prose_line_ignored_witness :
  parse_line (mkParser [lit "Awesome"] [] ∅) (lit "  Some text about tools.  ")
  = Ok (mkParser [lit "Awesome"] [] ∅)
  ∧ parse_line (mkParser [lit "Awesome"] [] ∅) (lit "######## deep")
    = Ok (mkParser [lit "Awesome"] [] ∅).
Proof.
  split.
  - apply prose_line_ignored. right. left. eexists _, _.
    split; [vm_compute; reflexivity|]. split; discriminate.
  - apply prose_line_ignored. right. right. exists 8%nat, (lit " deep").
    split; [lia|reflexivity].
Defined.

(** ** The entries of [parse_repos] *)

Lemma strip_stripped (s : str) : stripped (strip s).
Proof. apply strip_by_idemp. Qed.

Lemma clean_note_stripped (text : str) : stripped (_clean_note text).
Proof. apply strip_stripped. Qed.

(** The entries of the occurrences, one by one. *)
Lemma bullets_entries hs lines occ :
  bullets hs lines = Ok occ ->
  Forall (fun e => ∃ st m, bullet_slug (group 2 m) = Ok (Some (slug e))
                           ∧ e = new_entry st m (slug e)) occ.
Proof.
  revert hs occ. induction lines as [|raw rest IH]; intros hs occ.
  { intros [= <-]. constructor. }
  cbn [bullets].
  destruct (parse_line _ raw) as [st|] eqn:Hline; cbn [mbind res_bind]; [|done].
  destruct (bullets (headings st) rest) as [later|] eqn:Hrest;
    cbn [mbind res_bind]; [|done].
  intros [= <-]. apply Forall_app. split; [|by eapply IH].
  apply parse_line_inv in Hline.
  inversion Hline as [m Hm Hst| |m s Hh Hb Hs Hnew Hst]; cbn [entries];
    [constructor..|].
  cbn [app]. constructor; [|constructor]. by eexists _, m.
Qed.

Lemma parsed_entries markdown es :
  parse_repos markdown = Ok es ->
  Forall (fun e => ∃ st m, bullet_slug (group 2 m) = Ok (Some (slug e))
                           ∧ e = new_entry st m (slug e)) es.
Proof.
  intros (_ & occ & Hocc & ->)%parse_repos_inv.
  apply bullets_entries in Hocc. rewrite Forall_forall in Hocc.
  apply Forall_forall. intros e He. apply Hocc.
  eapply elem_of_sublist; [exact He|apply first_occurrences_sublist].
Qed.

(** X20: every entry that [parse_repos] returns has no star count yet,
    its URL is [https://github.com/] followed by its slug, whatever the
    URL of the bullet was, and its name and its note are stripped of
    white space at both ends. *)
Theorem parsed_entry_fields markdown es :
  parse_repos markdown = Ok es ->
  Forall (fun e => stars e = None
                   ∧ url e = lit "https://github.com/" ++ slug e
                   ∧ stripped (name e) ∧ stripped (note e)) es.
Proof.
  intros Hparse%parsed_entries.
  eapply Forall_impl; [exact Hparse|]. intros e (st & m & _ & ->).
  cbn [new_entry stars url name note slug].
  repeat split; [apply strip_stripped|apply clean_note_stripped].
Qed.

Lemma parsed_entry_fields_witness :
  Forall (fun e => stars e = None
                   ∧ url e = lit "https://github.com/" ++ slug e
                   ∧ stripped (name e) ∧ stripped (note e))
    [Sample.foo_bar].
Proof. apply (parsed_entry_fields Sample.document). reflexivity. Defined.

(** ** From the URL of an entry back to its slug *)

Lemma not_contains_inside sep a s b :
  contains sep (a ++ s ++ b) = false -> contains sep s = false.
Proof.
  intros Hfree. destruct (contains sep s) eqn:Hs; [|done].
  by rewrite (contains_inside sep a s b Hs) in Hfree.
Qed.

Lemma not_contains_prefix sep s b :
  contains sep (s ++ b) = false -> contains sep s = false.
Proof. apply (not_contains_inside sep []). Qed.

Lemma index_first_free sep s a :
  sep ≠ [] -> index (split sep s) 0 = Ok a ->
  contains sep a = false ∧ ∃ b, s = a ++ b.
Proof.
  intros Hsep. unfold index.
  destruct (split sep s) as [|a' rest] eqn:Hsplit; [done|].
  intros [= <-]. by eapply split_first_free.
Qed.

Lemma index_second_free sep s a :
  sep ≠ [] -> index (split sep s) 1 = Ok a ->
  contains sep a = false ∧ ∃ x b, s = x ++ a ++ b.
Proof.
  intros Hsep. pose proof (split_length sep s Hsep) as Hlen.
  destruct (contains sep s) eqn:Hs; [|by rewrite Hlen].
  unfold split. destruct (split_from_some sep [] s Hsep Hs) as (x & b & -> & ->).
  unfold index. cbn [lookup list_lookup].
  destruct (split_from sep 0 [] b) as [|a' rest] eqn:Hsplit; [done|].
  intros [= <-].
  destruct (split_first_free sep b a' rest Hsep Hsplit) as (Hfree & b' & ->).
  split; [done|]. exists (x ++ sep), b'. by rewrite <- !app_assoc.
Qed.

(** What [bullet_slug] returns has no text at which it would be cut
    again. *)
Lemma bullet_slug_free u s :
  bullet_slug u = Ok (Some s) ->
  contains (lit "github.com/") s = false
  ∧ contains (lit "/?") s = false
  ∧ contains (lit "#") s = false.
Proof.
  unfold bullet_slug.
  destruct (index (split (lit "github.com/") u) 1) as [after|] eqn:H1;
    cbn [mbind res_bind]; [|done].
  destruct (index (split (lit "/?") after) 0) as [before_query|] eqn:H2;
    cbn [mbind res_bind]; [|done].
  destruct (index (split (lit "#") before_query) 0) as [before_fragment|]
    eqn:H3; cbn [mbind res_bind]; [|done].
  apply index_second_free in H1 as (Hhost & _); [|done].
  apply index_first_free in H2 as (Hquery & x2 & ->); [|done].
  apply index_first_free in H3 as (Hfragment & x3 & ->); [|done].
  destruct (strip_by_inside (char_in (lit "/")) before_fragment)
    as (a & b & Hstrip).
  fold (strip_chars (lit "/") before_fragment) in Hstrip.
  set (t := strip_chars (lit "/") before_fragment) in *.
  destruct (Nat.ltb_spec (length (split (lit "/") t)) 2) as [|Hlen]; [done|].
  intros [= <-].
  assert (∃ y, t = join (lit "/") (take 2 (split (lit "/") t)) ++ y)
    as [y Ht].
  { pose proof (join_split_char (chr "/") t []) as Hjoin.
    change (lit "/") with [chr "/"]. unfold split in Hlen |- *.
    change (lit "/") with [chr "/"] in Hlen.
    destruct (split_from [chr "/"] 0 [] t) as [|p0 [|p1 rest]];
      [simpl in Hlen; lia..|].
    change (take 2 (p0 :: p1 :: rest)) with [p0; p1].
    change (join [chr "/"] [p0; p1]) with (p0 ++ [chr "/"] ++ p1).
    change (reverse [] ++ t) with t in Hjoin. rewrite <- Hjoin.
    destruct rest as [|p2 rest].
    - exists []. by rewrite app_nil_r.
    - exists ([chr "/"] ++ join [chr "/"] (p2 :: rest)).
      change (join [chr "/"] (p0 :: p1 :: p2 :: rest))
        with (p0 ++ [chr "/"] ++ p1 ++ [chr "/"] ++ join [chr "/"] (p2 :: rest)).
      by rewrite <- !app_assoc. }
  set (s := join (lit "/") (take 2 (split (lit "/") t))) in *.
  assert (∃ x z, before_fragment = x ++ s ++ z) as (x & z & Hs).
  { exists a, (y ++ b). by rewrite Hstrip, Ht, <- !app_assoc. }
  rewrite Hs in Hfragment, Hquery, Hhost.
  split; [|split].
  - apply (not_contains_inside _ x s (z ++ x3 ++ x2)).
    by rewrite <- !app_assoc in Hhost.
  - apply (not_contains_inside _ x s (z ++ x3)).
    by rewrite <- !app_assoc in Hquery.
  - by apply (not_contains_inside _ x s z).
Qed.

(** X21: the URL that [parse_repos] writes for an entry gives the slug of
    the entry back when it is read as the URL of a bullet, provided that
    the second segment of the slug is not empty (the slug does not end
    with a slash).  So a report row, read again as a bullet, names the
    same repository. *)
Theorem written_url_round_trip markdown es e :
  parse_repos markdown = Ok es -> e ∈ es ->
  last (slug e) ≠ Some (chr "/") ->
  bullet_slug (url e) = Ok (Some (slug e)).
Proof.
  intros Hparse He Hlast.
  pose proof (parsed_entries _ _ Hparse) as Hall.
  rewrite Forall_forall in Hall.
  destruct (Hall e He) as (st & m & Hslug & Hentry).
  assert (url e = lit "https://github.com/" ++ slug e) as ->.
  { by rewrite Hentry at 1. }
  destruct (bullet_slug_free _ _ Hslug) as (Hhost & Hquery & Hfragment).
  destruct (bullet_slug_shape _ _ Hslug) as (owner & repo & Hs & Ho & Hr & Hne).
  unfold bullet_slug. rewrite split_written_url.
  pose proof (split_length (lit "github.com/") (slug e) ltac:(done)) as H1.
  pose proof (split_length (lit "/?") (slug e) ltac:(done)) as H2.
  pose proof (split_length (lit "#") (slug e) ltac:(done)) as H3.
  rewrite Hhost in H1. rewrite Hquery in H2. rewrite Hfragment in H3.
  rewrite H1. cbn [index lookup list_lookup mbind res_bind].
  rewrite H2. cbn [index lookup list_lookup mbind res_bind].
  rewrite H3. cbn [index lookup list_lookup mbind res_bind].
  assert (strip_chars (lit "/") (slug e) = slug e) as ->.
  { apply strip_by_id.
    - rewrite Hs. destruct owner as [|c owner]; [done|]. cbn [app].
      apply not_elem_of_cons in Ho as [Hc _]. unfold char_in. cbn [lit existsb
        list_ascii_of_string List.map]. rewrite orb_false_r.
      apply N.eqb_neq. by intros ->.
    - destruct (last (slug e)) as [c|]; [|done].
      unfold char_in. cbn [lit existsb list_ascii_of_string List.map].
      rewrite orb_false_r. apply N.eqb_neq. by intros ->. }
  rewrite Hs. change (lit "/") with [chr "/"].
  rewrite split_two_pieces by done. reflexivity.
Qed.

Lemma written_url_round_trip_witness :
  bullet_slug (url Sample.foo_bar) = Ok (Some (slug Sample.foo_bar)).
Proof.
  apply (written_url_round_trip Sample.document [Sample.foo_bar]).
  - reflexivity.
  - apply list_elem_of_here.
  - discriminate.
Defined.

(** ** Sorting, rendering and the end of [main] *)

Section SortAgain.

Context {A : Type} (key : A -> Z).

Lemma sort_desc_sorted_id l :
  StronglySorted (fun a b => key b <= key a) l -> sort_desc key l = l.
Proof.
  induction 1 as [|x l Hl IH Hx]; [done|].
  cbn [sort_desc]. rewrite IH. destruct l as [|y l]; [done|].
  apply insert_desc_first. by apply Forall_cons in Hx as [? _].
Qed.

End SortAgain.

(** X22: a list of entries that is in the order of the report is left as
    it is by the sort of [main]; so sorting twice is sorting once. *)
Theorem sort_desc_idempotent (es : list RepoEntry) :
  sort_desc stars_or_0 (sort_desc stars_or_0 es) = sort_desc stars_or_0 es
  ∧ (StronglySorted (fun a b => stars_or_0 b <= stars_or_0 a) es ->
     sort_desc stars_or_0 es = es).
Proof.
  split; [|apply sort_desc_sorted_id].
  apply sort_desc_sorted_id, sort_desc_sorted.
Qed.

Lemma sort_desc_idempotent_witness :
  sort_desc stars_or_0
    [Sample.starred "a/top" (Some 10); Sample.starred "a/first" (Some 5);
     Sample.starred "a/new" None]
  = [Sample.starred "a/top" (Some 10); Sample.starred "a/first" (Some 5);
     Sample.starred "a/new" None].
Proof.
  apply (proj2 (sort_desc_idempotent _)).
  repeat constructor; vm_compute; discriminate.
Defined.

Lemma format_stars_raises n e :
  format_stars n = Raise e -> e = OverflowError ∧ 2 ^ 1024 <= n.
Proof.
  intros Hraise. split.
  - revert Hraise. unfold format_stars. destruct (1000 <=? n); [|done].
    unfold Float.truediv. destruct (n =? 0); [done|].
    destruct (Float.scaled _ _ _) as [x y].
    destruct (Float.scaled _ _ _) as [x' y'].
    destruct (_ && _); [|done]. cbn [mbind res_bind]. by intros [= <-].
  - destruct (Z.lt_ge_cases n (2 ^ 1024)) as [Hlt|]; [|done].
    destruct (format_stars_ok n Hlt) as [t Ht]. congruence.
Qed.

Lemma render_rows_raises idx es e :
  render_rows idx es = Raise e ->
  e = OverflowError ∧ Exists (fun x => 2 ^ 1024 <= stars_or_0 x) es.
Proof.
  revert idx. induction es as [|x es IH]; intros idx; [done|].
  cbn [render_rows].
  destruct (format_stars (stars_or_0 x)) as [t|e'] eqn:Hx;
    cbn [mbind res_bind].
  - destruct (render_rows (idx + 1) es) as [rows|e'] eqn:Hrows;
      cbn [mbind res_bind]; [done|].
    intros [= <-]. destruct (IH _ Hrows) as [-> Hex].
    split; [done|]. by apply Exists_cons_tl.
  - intros [= <-]. apply format_stars_raises in Hx as [-> Hx].
    split; [done|]. by apply Exists_cons_hd.
Qed.

(** X23: the only exception of [render_markdown], and of the sort and
    the rendering of [main], is [OverflowError], and it needs an entry
    with 2 ^ 1024 stars or more: the quotient by 1000 of a smaller count
    is a float. *)
Theorem render_markdown_raises es e :
  (render_markdown es = Raise e ∨ sorted_report es = Raise e) ->
  e = OverflowError ∧ Exists (fun x => 2 ^ 1024 <= stars_or_0 x) es.
Proof.
  assert (∀ l, render_markdown l = Raise e ->
               e = OverflowError
               ∧ Exists (fun x => 2 ^ 1024 <= stars_or_0 x) l) as Hrender.
  { intros l. unfold render_markdown.
    destruct (render_rows 1 l) as [rows|e'] eqn:Hrows; cbn [mbind res_bind];
      [done|].
    intros [= <-]. by eapply render_rows_raises. }
  intros [Hraise|Hraise]; [by apply Hrender|].
  apply Hrender in Hraise as [-> Hex]. split; [done|].
  by rewrite sort_desc_perm in Hex.
Qed.

Lemma render_markdown_raises_witness :
  OverflowError = OverflowError
  ∧ Exists (fun x => 2 ^ 1024 <= stars_or_0 x)
      [Sample.starred "a/huge" (Some (10 ^ 312))].
Proof.
  apply (render_markdown_raises [Sample.starred "a/huge" (Some (10 ^ 312))]
           OverflowError).
  left. vm_compute. reflexivity.
Defined.

(** X24: when the reset time is not 0 and is not after the current time,
    the message of [rate_limit_message] says 0 minutes: the time that is
    left is never negative. *)
Theorem rate_limit_message_past now reset :
  reset ≠ 0 -> reset <= now ->
  rate_limit_message now (Some reset)
  = Ok (lit "GitHub rate limit exceeded. Try again in ~0 minutes.").
Proof.
  intros Hreset Hpast. unfold rate_limit_message.
  rewrite (proj2 (Z.eqb_neq reset 0)) by done.
  rewrite Z.max_l by lia. reflexivity.
Qed.

Lemma rate_limit_message_past_witness :
  rate_limit_message 1700000000 (Some 1600000000)
  = Ok (lit "GitHub rate limit exceeded. Try again in ~0 minutes.").
Proof. apply rate_limit_message_past; [discriminate|lia]. Defined.

(** Lines that are no bullets add no entry. *)
Lemma parse_lines_no_bullet lines st :
  (∀ raw, raw ∈ lines -> rmatch bullet_re (strip raw) = None) ->
  ∃ st', parse_lines st lines = Ok st' ∧ entries st' = entries st.
Proof.
  revert st. induction lines as [|raw rest IH]; intros st Hlines.
  { by exists st. }
  cbn [parse_lines].
  assert (∃ st1, parse_line st raw = Ok st1 ∧ entries st1 = entries st)
    as (st1 & -> & Hst1).
  { unfold parse_line.
    destruct (rmatch header_re (strip raw)); [by eexists|].
    rewrite Hlines by apply list_elem_of_here. by eexists. }
  cbn [mbind res_bind].
  destruct (IH st1) as (st' & -> & Hst').
  { intros raw' Hraw'. apply Hlines. by apply list_elem_of_further. }
  exists st'. split; [done|]. congruence.
Qed.

Section Report.

Context `{PyLib} {World : Type}.
Variable urlopen : World -> Request -> reply * World.
Variable environ : list (str * str).
Variable clock : World -> Z.

(** X25: a document without a line that matches the bullet pattern has
    no entry, and [main] writes the report that has the header row and
    the separator row only, without sending a request. *)
Theorem no_bullets_empty_report w markdown :
  (∀ raw, raw ∈ splitlines markdown -> rmatch bullet_re (strip raw) = None) ->
  parse_repos markdown = Ok []
  ∧ main urlopen environ clock w markdown
    = Some (w, Written (table_header ++ [0xa%N] ++ table_separator
                        ++ [0xa%N])).
Proof.
  intros Hlines.
  assert (parse_repos markdown = Ok []) as Hparse.
  { unfold parse_repos.
    destruct (parse_lines_no_bullet _ (mkParser [] [] ∅) Hlines)
      as (st' & -> & Hst').
    cbn [mbind res_bind]. by rewrite Hst'. }
  split; [done|]. unfold main, fetch_star_data. rewrite Hparse.
  cbn [fetch_entries]. reflexivity.
Qed.

(** X26: from line 150 on, [main] comes to write a report (lines 159
    and 160) only at the end of a run in which the document was parsed
    and the pass over its entries ended without an exception.  The report
    is then the sorted table of the entries of the document, each with a
    star count and otherwise as it was parsed; none is lost and none is
    added. *)
Theorem report_written_after_full_pass w markdown w' report :
  main urlopen environ clock w markdown = Some (w', Written report) ->
  ∃ es es',
    parse_repos markdown = Ok es
    ∧ fetch_star_data urlopen environ w es
        (Some <$> discover_tokens environ None)
      = Some (w', es', Ok tt)
    ∧ Forall2 same_repo es es'
    ∧ Forall (fun e => is_Some (stars e)) es'
    ∧ sorted_report es' = Ok report.
Proof.
  unfold main.
  destruct (parse_repos markdown) as [es|e]; [|done].
  destruct (fetch_star_data urlopen environ w es _)
    as [[[w1 es1] [[]|e]]|] eqn:Hpass; [| |done].
  - destruct (sorted_report es1) as [text|e] eqn:Htext; [|done].
    intros [= <- <-]. exists es, es1.
    pose proof Hpass as Hsteps. unfold fetch_star_data in Hsteps.
    destruct (fetch_entries urlopen environ w _ 0 es)
      as [[[[w2 i2] es2] r2]|] eqn:Hentries; [|done].
    injection Hsteps as <- <- ->.
    apply fetch_entries_frame in Hentries as [Hframe Hstars].
    by repeat split.
  - destruct e; try done. by destruct (rate_limit_message _ _).
Qed.

End Report.

Lemma no_bullets_empty_report_witness :
  main Sample.urlopen [] Sample.clock tt (lit "# Title

Some text.
")
  = Some (tt, Written (table_header ++ [0xa%N] ++ table_separator
                       ++ [0xa%N])).
Proof.
  apply (no_bullets_empty_report Sample.urlopen [] Sample.clock).
  intros raw Hraw. apply list_elem_of_In in Hraw. vm_compute in Hraw.
  destruct Hraw as [<-|[<-|[<-|[]]]]; reflexivity.
Defined.

Lemma report_written_after_full_pass_witness :
  ∃ es',
    fetch_star_data Sample.urlopen [] tt [Sample.foo_bar]
      (Some <$> discover_tokens [] None)
    = Some (tt, es', Ok tt)
    ∧ Forall2 same_repo [Sample.foo_bar] es'
    ∧ sorted_report es'
      = Ok (lit "| Rank | Repository | Stars | Category | Note |
| --- | --- | --- | --- | --- |
| 1 | [foo/bar](https://github.com/foo/bar) | 12.3k | DBs | a database |
").
Proof.
  destruct (report_written_after_full_pass Sample.urlopen []
              Sample.clock tt Sample.document tt
              (lit "| Rank | Repository | Stars | Category | Note |
| --- | --- | --- | --- | --- |
| 1 | [foo/bar](https://github.com/foo/bar) | 12.3k | DBs | a database |
") eq_refl)
    as (es & es' & Hparse & Hpass & Hframe & _ & Hreport).
  injection Hparse as <-. exists es'. by repeat split.
Defined.

(** ** The stack of headings *)

Lemma strip_by_last (f : N -> bool) (s : str) :
  match last (strip_by f s) with None => True | Some c => f c = false end.
Proof.
  unfold strip_by, rstrip_by. rewrite last_reverse.
  pose proof (lstrip_by_head f (reverse (lstrip_by f s))) as Hhead.
  by destruct (lstrip_by f (reverse (lstrip_by f s))).
Qed.

Lemma lstrip_by_nil (f : N -> bool) (s : str) :
  lstrip_by f s = [] -> Forall (fun c => f c = true) s.
Proof.
  destruct (lstrip_by_span f s) as (a & Hs & Ha). intros Hnil.
  rewrite Hnil, app_nil_r in Hs. by subst.
Qed.

Lemma strip_by_nil (f : N -> bool) (s : str) :
  strip_by f s = [] -> Forall (fun c => f c = true) s.
Proof.
  unfold strip_by, rstrip_by. intros Hnil.
  apply (f_equal reverse) in Hnil. rewrite reverse_involutive in Hnil.
  apply lstrip_by_nil in Hnil. rewrite Forall_reverse in Hnil.
  pose proof (lstrip_by_head f s) as Hhead.
  destruct (lstrip_by f s) as [|c t] eqn:Hl; [by apply lstrip_by_nil|].
  apply Forall_cons in Hnil as [Hc _]. congruence.
Qed.

Lemma header_title_nonempty raw m :
  rmatch header_re (strip raw) = Some m -> strip (group 2 m) ≠ [].
Proof.
  unfold rmatch, header_re. cbn [exec Nat.eqb].
  intros (n1 & Hn1 & _ & _ & Hk)%many_inv.
  apply many_inv in Hk as (n2 & Hn2 & _ & Hall2 & Hk).
  apply many_inv in Hk as (n3 & Hn3 & _ & _ & Hk).
  destruct (at_end _) eqn:Hend; [|done]. injection Hk as <-.
  cbn [group Nat.eqb].
  replace (n1 + n2 + n3 - (n1 + n2))%nat with n3 by lia.
  intros Hall3%strip_by_nil.
  pose proof (strip_by_last isspace raw) as Hlast. fold (strip raw) in Hlast.
  set (line := strip raw) in *.
  set (A := drop n1 line) in *. set (B := drop n2 A) in *.
  set (T := drop n3 B) in *.
  assert (Forall (fun c => isspace c = true) T) as HT.
  { destruct T as [|c [|c' T']]; [constructor| |done].
    cbn [at_end] in Hend. apply N.eqb_eq in Hend as ->. by repeat constructor. }
  assert (line = take n1 line ++ take n2 A ++ take n3 B ++ T) as Hline.
  { subst T B A. by rewrite !take_drop. }
  assert (Forall (fun c => isspace c = true) (take n2 A ++ take n3 B ++ T))
    as Hspaces.
  { by repeat (apply Forall_app; split). }
  destruct (last (take n2 A ++ take n3 B ++ T)) as [c|] eqn:Hc.
  - rewrite Hline, last_app, Hc in Hlast.
    apply last_Some in Hc as [l' Hc]. rewrite Hc in Hspaces.
    apply Forall_app in Hspaces as [_ Hspaces].
    apply Forall_cons in Hspaces as [Hspace _]. congruence.
  - apply last_None in Hc. apply app_eq_nil in Hc as [Hc _].
    apply (f_equal length) in Hc. rewrite length_take in Hc. simpl in Hc. lia.
Qed.

(** The state of the loop, as to its headings: at most six, none of them
    empty, each one stripped. *)
Lemma parse_line_headings st raw st' :
  parse_line st raw = Ok st' ->
  (length (headings st) <= 6)%nat
  ∧ Forall (fun h => h ≠ [] ∧ stripped h) (headings st) ->
  (length (headings st') <= 6)%nat
  ∧ Forall (fun h => h ≠ [] ∧ stripped h) (headings st').
Proof.
  intros Hstep%parse_line_inv [Hlen Hall].
  destruct Hstep as [m Hm| |m s Hh Hb Hs Hnew]; cbn [headings]; [|done..].
  pose proof (header_level _ _ Hm) as [Hlevel _].
  pose proof (header_title_nonempty _ _ Hm) as Htitle.
  split.
  - rewrite length_app, length_take. simpl. lia.
  - apply Forall_app. split; [by apply Forall_take|].
    constructor; [|constructor]. split; [done|apply strip_stripped].
Qed.

(** X27: while a document is read, the stack of headings never has more
    than six titles, and no title is empty or has white space at an end:
    the heading pattern needs text after the hashes.  So the category of
    an entry has at most five parts, none of them empty. *)
Theorem heading_stack_invariant lines st' :
  parse_lines (mkParser [] [] ∅) lines = Ok st' ->
  (length (headings st') <= 6)%nat
  ∧ Forall (fun h => h ≠ [] ∧ stripped h) (headings st').
Proof.
  assert (∀ st, parse_lines st lines = Ok st' ->
            (length (headings st) <= 6)%nat
            ∧ Forall (fun h => h ≠ [] ∧ stripped h) (headings st) ->
            (length (headings st') <= 6)%nat
            ∧ Forall (fun h => h ≠ [] ∧ stripped h) (headings st')) as Hgen.
  { induction lines as [|raw rest IH]; intros st.
    - by intros [= <-].
    - cbn [parse_lines].
      destruct (parse_line st raw) as [st1|] eqn:Hline; cbn [mbind res_bind];
        [|done].
      intros Hrest Hinv. apply (IH _ Hrest).
      by eapply parse_line_headings. }
  intros Hparse. apply (Hgen _ Hparse). split; [simpl; lia|constructor].
Qed.

Lemma heading_stack_invariant_witness :
  (length [lit "Awesome"; lit "DBs"] <= 6)%nat
  ∧ Forall (fun h => h ≠ [] ∧ stripped h) [lit "Awesome"; lit "DBs"].
Proof.
  apply (heading_stack_invariant (splitlines Sample.document)
           (mkParser [lit "Awesome"; lit "DBs"] [Sample.foo_bar]
              {[ lit "foo/bar" := Sample.foo_bar ]})).
  vm_compute. reflexivity.
Defined.

(** ** The note of an entry: [_clean_note] *)

Section SubFacts.

Variable P : N -> Prop.

Lemma group_ok i cs : caps_ok P cs -> Forall P (group i cs).
Proof.
  induction 1 as [|[j g] cs Hg _ IH]; cbn [group]; [constructor|].
  by destruct (i =? j)%nat.
Qed.

(** What a pattern leaves and what it captures is taken from the string
    that it reads. *)
Lemma exec_caps {A} r pos s cs (k : nat -> str -> caps -> option A) res :
  Forall P s -> caps_ok P cs -> exec r pos s cs k = Some res ->
  ∃ pos' s' cs', Forall P s' ∧ caps_ok P cs' ∧ k pos' s' cs' = Some res.
Proof.
  revert pos s cs k. induction r as [| |l|cls lo hi|i r IH|r1 IH1 r2 IH2];
    intros pos s cs k Hs Hcs; cbn [exec].
  - destruct (pos =? 0)%nat; [|done]. intros Hk. by exists pos, s, cs.
  - destruct (at_end s); [|done]. intros Hk. by exists pos, s, cs.
  - destruct (starts_with l s); [|done]. intros Hk.
    eexists _, _, cs. split; [|split; [done|exact Hk]]. by apply Forall_drop.
  - intros (n & _ & _ & _ & Hk)%many_inv.
    eexists _, _, cs. split; [|split; [done|exact Hk]]. by apply Forall_drop.
  - intros (pos' & s' & cs' & Hs' & Hcs' & Hk)%IH; [|done..].
    eexists _, _, _. split; [exact Hs'|]. split; [|exact Hk].
    constructor; [|done]. by apply Forall_take.
  - intros (pos1 & s1 & cs1 & Hs1 & Hcs1 & Hk)%IH1; [|done..].
    by apply IH2 in Hk.
Qed.

(** A substitution whose replacements are made of what was captured
    keeps a property of the characters. *)
Lemma sub_from_Forall r (repl : caps -> str) fuel pos s :
  (∀ cs, caps_ok P cs -> Forall P (repl cs)) ->
  Forall P s -> Forall P (sub_from fuel r repl pos s).
Proof.
  intros Hrepl. revert pos s. induction fuel as [|fuel IH]; intros pos s Hs;
    [done|].
  cbn [sub_from].
  destruct (exec r pos s [] _) as [[[pos' rest] cs]|] eqn:Hexec.
  - apply exec_caps in Hexec as (p & t & c & Ht & Hc & [= -> -> ->]);
      [|done|constructor].
    destruct (pos' =? pos)%nat.
    + destruct s as [|x s']; [by apply Hrepl|].
      apply Forall_cons in Hs as [Hx Hs'].
      apply Forall_app. split; [by apply Hrepl|]. constructor; [done|].
      by apply IH.
    + apply Forall_app. split; [by apply Hrepl|]. by apply IH.
  - destruct s as [|x s']; [done|].
    apply Forall_cons in Hs as [Hx Hs']. constructor; [done|]. by apply IH.
Qed.

End SubFacts.

(** A repetition that may stop at once matches when what follows it
    does. *)
Lemma many_total {A} cls hi pos s (k : nat -> str -> option A) :
  (∀ pos' s', is_Some (k pos' s')) -> is_Some (many cls 0 hi pos s k).
Proof.
  intros Hk. revert hi pos. induction s as [|c s IH]; intros hi pos;
    cbn [many]; [done|].
  destruct (cls c && at_most hi); [|done].
  cbn [Nat.pred]. destruct (IH (Nat.pred <$> hi) (S pos)) as [r ->]. by eexists.
Qed.

(** Every run of white space becomes one space. *)
Lemma sub_spaces fuel pos (s : str) :
  (length s < fuel)%nat ->
  Forall (fun c => isspace c = true -> c = 0x20%N)
    (sub_from fuel spaces_re (fun _ => lit " ") pos s).
Proof.
  revert pos s. induction fuel as [|fuel IH]; intros pos s Hfuel; [lia|].
  cbn [sub_from]. unfold spaces_re at 1, plus. cbn [exec].
  destruct s as [|c s'].
  { cbn [many]. constructor. }
  destruct (isspace c) eqn:Hc.
  - destruct (many isspace 1 None pos (c :: s') _) as [[[pos' rest] cs]|]
      eqn:Hmany.
    + apply many_inv in Hmany as (n & Hn & _ & _ & [= <- <- <-]).
      rewrite (proj2 (Nat.eqb_neq _ _)) by lia.
      apply Forall_app. split; [by repeat constructor|].
      apply IH. rewrite length_drop. simpl in *. lia.
    + exfalso. revert Hmany. cbn [many]. rewrite Hc. cbn [andb at_most].
      destruct (many_total isspace (Nat.pred <$> None) (S pos) s'
                  (fun pos' s'0 => Some (pos', s'0, ([] : caps))))
        as [r Hr]; [by eexists|].
      cbn [Nat.pred fmap option_fmap option_map] in Hr |- *. by rewrite Hr.
  - cbn [many]. rewrite Hc. cbn [andb].
    constructor; [by rewrite Hc|]. apply IH. simpl in Hfuel. lia.
Qed.

Lemma Forall_strip_by (P : N -> Prop) (f : N -> bool) (s : str) :
  Forall P s -> Forall P (strip_by f s).
Proof. rewrite !Forall_forall. intros Hs c Hc%strip_by_elem. by apply Hs. Qed.

(** X28: the note that [_clean_note] returns has no white space at its
    ends, and the only white space inside it is the plain space: tabs,
    no-break spaces and every other kind of white space of the text have
    been turned into spaces or removed. *)
Theorem clean_note_spaces (text : str) :
  stripped (_clean_note text)
  ∧ Forall (fun c => isspace c = true -> c = 0x20%N) (_clean_note text).
Proof.
  split; [apply clean_note_stripped|].
  unfold _clean_note, strip, strip_chars, sub.
  apply Forall_strip_by.
  apply sub_from_Forall; [intros cs _; constructor|].
  apply sub_from_Forall; [intros cs Hcs; by apply group_ok|].
  apply Forall_strip_by, sub_spaces. lia.
Qed.
